(** * Project Estimation Engine of backend/server.py

    A shallow embedding of the estimation part of [analyze_project]
    (PERT duration, cost roll-up, dependency graph, critical path) together
    with the parts of networkx 3.x that [calculate_critical_path] calls
    ([DiGraph.add_node], [DiGraph.add_edge], [topological_generations],
    [topological_sort], [dag_longest_path]).

    Conventions.
    - Python numbers (JSON ints and floats) are idealised as exact rationals
      [Q]; rounding, overflow and NaN are not modelled.  Dates are rational
      day counts.
    - Python dicts keep insertion order, and the tie-breaks of the resolver
      depend on it, so a dict is an association list kept in insertion
      order ([Dict]).
    - A computation that can raise or loop returns a [result]; the two
      [while] loops are bounded by a fuel argument and [OutOfFuel] is the
      outcome of a loop that did not finish within it. *)

From Stdlib Require Import String Ascii Bool Arith ZArith QArith Lia Lqa List.
From Stdlib Require Import Relations.Relation_Operators Relations.Operators_Properties.
Import ListNotations.

Local Open Scope string_scope.
Local Open Scope Q_scope.

(* ===================================================================== *)
(** ** Outcomes of Python computations *)
(* ===================================================================== *)

(** The exceptions the modelled code can raise. *)
Inductive exn : Type :=
| TypeError
| KeyError
| ValueError
| RuntimeError
| NetworkXUnfeasible
| HTTPException (status : Z) (detail : string).

Inductive result (A : Type) : Type :=
| Ok (a : A)
| Raise (e : exn)
| OutOfFuel.

Arguments Ok {A} a.
Arguments Raise {A} e.
Arguments OutOfFuel {A}.

Definition bind {A B : Type} (m : result A) (k : A -> result B) : result B :=
  match m with
  | Ok a => k a
  | Raise e => Raise e
  | OutOfFuel => OutOfFuel
  end.

Notation "x <- m ;; k" := (bind m (fun x => k))
  (at level 61, m at next level, right associativity).
Notation "' pat <- m ;; k" := (bind m (fun x => match x with pat => k end))
  (at level 61, pat pattern, m at next level, right associativity).


(* ===================================================================== *)
(** ** Insertion-ordered dictionaries with string keys *)
(* ===================================================================== *)

Module Dict.
Section Defs.
Variable V : Type.

Definition t := list (string * V).

Definition empty : t := [].

Definition keys (d : t) : list string := map fst d.

(** [d.get(k)] *)
Fixpoint get (d : t) (k : string) : option V :=
  match d with
  | [] => None
  | (k', v) :: d' => if String.eqb k k' then Some v else get d' k
  end.

(** [k in d] *)
Definition mem (d : t) (k : string) : bool :=
  match get d k with Some _ => true | None => false end.

(** [d[k] = v]: an existing key keeps its position, a new key goes last. *)
Fixpoint set (d : t) (k : string) (v : V) : t :=
  match d with
  | [] => [(k, v)]
  | (k', v') :: d' =>
      if String.eqb k k' then (k', v) :: d' else (k', v') :: set d' k v
  end.

(** [del d[k]] *)
Definition del (d : t) (k : string) : t :=
  filter (fun kv => negb (String.eqb k (fst kv))) d.
End Defs.

Arguments empty {V}.
Arguments keys {V} d.
Arguments get {V} d k.
Arguments mem {V} d k.
Arguments set {V} d k v.
Arguments del {V} d k.
End Dict.

(* ===================================================================== *)
(** ** JSON scalars and the Python arithmetic applied to them *)
(* ===================================================================== *)

(** The value found under a numeric key of a task record: the upstream
    producer is untrusted, so it may be a number, a string or null. *)
Inductive value : Type :=
| VNum (q : Q)
| VStr (s : string)
| VNull.

Fixpoint str_repeat (s : string) (n : nat) : string :=
  match n with
  | O => EmptyString
  | S n' => s ++ str_repeat s n'
  end.

(** [n * v] and [v * n] for an int [n]: a number is multiplied, a string
    is repeated, [None] raises. *)
Definition py_mul_int (n : Z) (v : value) : result value :=
  match v with
  | VNum q => Ok (VNum (inject_Z n * q))
  | VStr s => Ok (VStr (str_repeat s (Z.to_nat n)))
  | VNull => Raise TypeError
  end.

(** [a + b]: numbers add, strings concatenate, anything else raises. *)
Definition py_add (a b : value) : result value :=
  match a, b with
  | VNum x, VNum y => Ok (VNum (x + y))
  | VStr s, VStr t => Ok (VStr (s ++ t))
  | _, _ => Raise TypeError
  end.

(** [a / n] for an int [n <> 0]. *)
Definition py_div_int (a : value) (n : Z) : result value :=
  match a with
  | VNum x => Ok (VNum (x / inject_Z n))
  | _ => Raise TypeError
  end.

(** Validation of a pydantic [float] field after the arithmetic. *)
Definition as_float (v : value) : result Q :=
  match v with
  | VNum q => Ok q
  | _ => Raise ValueError
  end.

(* ===================================================================== *)
(** ** Duration estimator *)
(* ===================================================================== *)

(** [calculate_pert_estimate]: the arguments are whatever the task record
    holds, so the expression is evaluated with Python's dynamic typing. *)
Definition calculate_pert_estimate (optimistic most_likely pessimistic : value)
  : result value :=
  m4 <- py_mul_int 4 most_likely ;;
  s1 <- py_add optimistic m4 ;;
  s2 <- py_add s1 pessimistic ;;
  py_div_int s2 6.

(* ===================================================================== *)
(** ** Cost aggregator *)
(* ===================================================================== *)

(** [DEFAULT_RATES], hourly rates in INR. *)
Definition DEFAULT_RATES : Dict.t Z :=
  [ ("Junior Developer", 400%Z);
    ("Mid Developer", 800%Z);
    ("Senior Developer", 1500%Z);
    ("Architect", 2500%Z);
    ("QA Engineer", 600%Z);
    ("Project Manager", 1800%Z);
    ("UI/UX Designer", 1200%Z);
    ("DevOps Engineer", 1800%Z) ].

(** A role allocation as found in the task record; a key may be absent. *)
Record role_data : Type := mkRole {
  rd_role : option string;
  rd_hours_optimistic : option value;
  rd_hours_most_likely : option value;
  rd_hours_pessimistic : option value
}.

Definition get_default {A : Type} (o : option A) (d : A) : A :=
  match o with Some a => a | None => d end.

(** [rate = DEFAULT_RATES.get(role, 1000)], the table being the module
    global read at call time. *)
Definition rate_of (rates : Dict.t Z) (role : string) : Z :=
  get_default (Dict.get rates role) 1000%Z.

(** One turn of the loop over [task_data.get("roles", [])]. *)
Definition add_role_cost (rates : Dict.t Z) (task_cost : value) (r : role_data)
  : result value :=
  let role := get_default (rd_role r) "Developer" in
  let hours := get_default (rd_hours_most_likely r) (VNum 40) in
  let rate := rate_of rates role in
  c <- py_mul_int rate hours ;;
  py_add task_cost c.

Fixpoint role_loop (rates : Dict.t Z) (task_cost : value) (roles : list role_data)
  : result value :=
  match roles with
  | [] => Ok task_cost
  | r :: rs => c <- add_role_cost rates task_cost r ;; role_loop rates c rs
  end.

(** [task_cost = 0; for role_data in roles: task_cost += hours * rate] *)
Definition task_cost (rates : Dict.t Z) (roles : list role_data) : result value :=
  role_loop rates (VNum 0) roles.

(* ===================================================================== *)
(** ** networkx: [DiGraph] *)
(* ===================================================================== *)

(** The attribute dict of a node or of an edge.  The only attribute the
    program ever writes or reads is ["duration"], so the dict is the
    optional value under that key. *)
Definition attrs := option Q.

(** [networkx.DiGraph]: node attributes, successors and predecessors, three
    dicts over the same keys. *)
Record DiGraph : Type := mkDiGraph {
  g_node : Dict.t attrs;
  g_succ : Dict.t (Dict.t attrs);
  g_pred : Dict.t (Dict.t attrs)
}.

Definition empty_graph : DiGraph := mkDiGraph [] [] [].

(** [n in G] *)
Definition has_node (G : DiGraph) (n : string) : bool := Dict.mem (g_succ G) n.

(** [list(G)], the nodes in insertion order. *)
Definition nodes (G : DiGraph) : list string := Dict.keys (g_succ G).

(** [G.succ[n]] and [G.pred[n]]; an absent node has none. *)
Definition succ_of (G : DiGraph) (n : string) : Dict.t attrs :=
  get_default (Dict.get (g_succ G) n) [].

Definition pred_of (G : DiGraph) (n : string) : Dict.t attrs :=
  get_default (Dict.get (g_pred G) n) [].

(** [G.has_edge(u, v)] *)
Definition has_edge (G : DiGraph) (u v : string) : bool :=
  Dict.mem (succ_of G u) v.

(** [G.add_node(n, duration=d)]: a new node gets empty adjacency dicts, an
    existing one only has its attribute updated. *)
Definition add_node (G : DiGraph) (n : string) (d : Q) : DiGraph :=
  if has_node G n then
    mkDiGraph (Dict.set (g_node G) n (Some d)) (g_succ G) (g_pred G)
  else
    mkDiGraph (Dict.set (g_node G) n (Some d))
              (Dict.set (g_succ G) n [])
              (Dict.set (g_pred G) n []).

(** The node-creating prefix of [add_edge]: an endpoint that is not in the
    graph is added, without attributes. *)
Definition ensure_node (G : DiGraph) (n : string) : DiGraph :=
  if has_node G n then G
  else mkDiGraph (Dict.set (g_node G) n None)
                 (Dict.set (g_succ G) n [])
                 (Dict.set (g_pred G) n []).

(** [G.add_edge(u, v)] with no attributes: both endpoints are created when
    missing, and the edge keeps the attribute dict it had, or an empty one. *)
Definition add_edge (G : DiGraph) (u v : string) : DiGraph :=
  let G1 := ensure_node G u in
  let G2 := ensure_node G1 v in
  let datadict : attrs := get_default (Dict.get (succ_of G2 u) v) None in
  mkDiGraph (g_node G2)
            (Dict.set (g_succ G2) u (Dict.set (succ_of G2 u) v datadict))
            (Dict.set (g_pred G2) v (Dict.set (pred_of G2 v) u datadict)).

(** [G.in_degree()]: the pairs (node, number of predecessors). *)
Definition in_degree (G : DiGraph) : list (string * Z) :=
  map (fun n => (n, Z.of_nat (length (pred_of G n)))) (nodes G).

(* ===================================================================== *)
(** ** networkx: topological sort by generations *)
(* ===================================================================== *)

(** The state of the inner loops: [indegree_map] and the [zero_indegree]
    list being collected for the next generation. *)
Definition topo_state : Type := (Dict.t Z * list string)%type.

(** [for child in G.neighbors(node)]: decrement the child's entry; a child
    that reaches zero moves from the map to [zero_indegree]. *)
Fixpoint relax_children (children : list string) (st : topo_state)
  : result topo_state :=
  match children with
  | [] => Ok st
  | child :: rest =>
      let '(indegree_map, zero_indegree) := st in
      match Dict.get indegree_map child with
      | None => Raise RuntimeError
      | Some d =>
          let d' := (d - 1)%Z in
          if (d' =? 0)%Z then
            relax_children rest (Dict.del indegree_map child, (zero_indegree ++ [child])%list)
          else
            relax_children rest (Dict.set indegree_map child d', zero_indegree)
      end
  end.

(** [for node in this_generation] *)
Fixpoint process_generation (G : DiGraph) (this_generation : list string)
  (st : topo_state) : result topo_state :=
  match this_generation with
  | [] => Ok st
  | node :: rest =>
      if has_node G node then
        st' <- relax_children (Dict.keys (succ_of G node)) st ;;
        process_generation G rest st'
      else Raise RuntimeError
  end.

(** [while zero_indegree: ...], then the cycle check.  The generations are
    returned as a list: the consumer has no effect of its own, so it sees
    the same outcome whether the exception comes before or after the
    generations already yielded. *)
Fixpoint generations_loop (fuel : nat) (G : DiGraph)
  (indegree_map : Dict.t Z) (zero_indegree : list string)
  : result (list (list string)) :=
  match zero_indegree with
  | [] =>
      match indegree_map with
      | [] => Ok []
      | _ :: _ => Raise NetworkXUnfeasible
      end
  | _ :: _ =>
      match fuel with
      | O => OutOfFuel
      | S fuel' =>
          let this_generation := zero_indegree in
          '(indegree_map', zero_indegree') <-
             process_generation G this_generation (indegree_map, []) ;;
          later <- generations_loop fuel' G indegree_map' zero_indegree' ;;
          Ok (this_generation :: later)
      end
  end.

Definition initial_indegree_map (G : DiGraph) : Dict.t Z :=
  filter (fun vd => (0 <? snd vd)%Z) (in_degree G).

Definition initial_zero_indegree (G : DiGraph) : list string :=
  map fst (filter (fun vd => (snd vd =? 0)%Z) (in_degree G)).

(** [nx.topological_generations(G)]; one turn of the loop removes at least
    one entry of [indegree_map] or is the last, so this fuel is enough. *)
Definition topological_generations (G : DiGraph) : result (list (list string)) :=
  generations_loop (S (length (initial_indegree_map G))) G
                   (initial_indegree_map G) (initial_zero_indegree G).

(** [nx.topological_sort(G)] *)
Definition topological_sort (G : DiGraph) : result (list string) :=
  gens <- topological_generations G ;; Ok (concat gens).

(* ===================================================================== *)
(** ** networkx: [dag_longest_path] *)
(* ===================================================================== *)

Definition Qlt_bool (x y : Q) : bool := negb (Qle_bool y x).

(** [max(xs, key=key)] on a non-empty list: the first of the maximal
    elements. *)
Fixpoint py_max_from {A : Type} (key : A -> Q) (best : A) (xs : list A) : A :=
  match xs with
  | [] => best
  | x :: xs' =>
      if Qlt_bool (key best) (key x) then py_max_from key x xs'
      else py_max_from key best xs'
  end.

Definition py_max {A : Type} (key : A -> Q) (xs : list A) : result A :=
  match xs with
  | [] => Raise ValueError
  | x :: xs' => Ok (py_max_from key x xs')
  end.

(** [data.get(weight, default_weight)] with [weight='duration'] and
    [default_weight=1], on the attribute dict of an EDGE. *)
Definition edge_weight (data : attrs) : Q := get_default data 1.

(** [dist]: node |-> (length, predecessor on the best path). *)
Definition dist_t : Type := Dict.t (Q * string).

(** The list comprehension [us]. *)
Fixpoint candidates (dist : dist_t) (preds : Dict.t attrs)
  : result (list (Q * string)) :=
  match preds with
  | [] => Ok []
  | (u, data) :: rest =>
      match Dict.get dist u with
      | None => Raise KeyError
      | Some (len_u, _) =>
          us <- candidates dist rest ;;
          Ok ((len_u + edge_weight data, u) :: us)
      end
  end.

(** One turn of [for v in topo_order]. *)
Definition relax_node (G : DiGraph) (dist : dist_t) (v : string) : result dist_t :=
  us <- candidates dist (pred_of G v) ;;
  let maxu :=
    match us with
    | [] => (0, v)
    | x :: xs => py_max_from fst x xs
    end in
  Ok (Dict.set dist v (if Qle_bool 0 (fst maxu) then maxu else (0, v))).

Fixpoint relax_all (G : DiGraph) (dist : dist_t) (topo_order : list string)
  : result dist_t :=
  match topo_order with
  | [] => Ok dist
  | v :: rest => dist' <- relax_node G dist v ;; relax_all G dist' rest
  end.

(** [while u != v: path.append(v); u = v; v = dist[v][1]] *)
Fixpoint walk_back (fuel : nat) (dist : dist_t) (u : option string) (v : string)
  (path : list string) : result (list string) :=
  if match u with Some u' => String.eqb u' v | None => false end then Ok path
  else
    match fuel with
    | O => OutOfFuel
    | S fuel' =>
        match Dict.get dist v with
        | None => Raise KeyError
        | Some (_, v') => walk_back fuel' dist (Some v) v' (path ++ [v])%list
        end
    end.

(** [nx.dag_longest_path(G, weight='duration')] *)
Definition dag_longest_path (G : DiGraph) : result (list string) :=
  match nodes G with
  | [] => Ok []
  | _ :: _ =>
      topo_order <- topological_sort G ;;
      dist <- relax_all G [] topo_order ;;
      v <- py_max (fun x => fst (get_default (Dict.get dist x) (0, x)))
                  (Dict.keys dist) ;;
      path <- walk_back (S (length dist)) dist None v [] ;;
      Ok (rev path)
  end.

(* ===================================================================== *)
(** ** Critical path resolver *)
(* ===================================================================== *)

(** [for task in tasks: G.add_node(task["id"], duration=task["expected_days"])] *)
Definition add_task_nodes (G : DiGraph) (tasks : list (string * Q)) : DiGraph :=
  fold_left (fun g t => add_node g (fst t) (snd t)) tasks G.

(** [for dep in deps: G.add_edge(dep, task_id)] *)
Definition add_dep_edges (G : DiGraph) (task_id : string) (deps : list string)
  : DiGraph :=
  fold_left (fun g dep => add_edge g dep task_id) deps G.

(** [for task_id, deps in dependencies.items(): ...] *)
Definition add_all_edges (G : DiGraph) (dependencies : Dict.t (list string))
  : DiGraph :=
  fold_left (fun g kv => add_dep_edges g (fst kv) (snd kv)) dependencies G.

(** The graph that [calculate_critical_path] hands to [dag_longest_path]. *)
Definition build_graph (tasks : list (string * Q))
  (dependencies : Dict.t (list string)) : DiGraph :=
  add_all_edges (add_task_nodes empty_graph tasks) dependencies.

(** [calculate_critical_path]: the bare [except] turns every exception of
    [dag_longest_path] into the empty path. *)
Definition calculate_critical_path (tasks : list (string * Q))
  (dependencies : Dict.t (list string)) : result (list string) :=
  match dag_longest_path (build_graph tasks dependencies) with
  | Ok critical_path => Ok critical_path
  | Raise _ => Ok []
  | OutOfFuel => OutOfFuel
  end.

(* ===================================================================== *)
(** ** Estimation orchestrator *)
(* ===================================================================== *)

(** A task record of the decomposition; every key may be absent, and the
    three duration keys hold whatever the producer wrote. *)
Record task_data : Type := mkTaskData {
  td_id : option string;
  td_title : option string;
  td_description : option string;
  td_category : option string;
  td_acceptance_criteria : option (list string);
  td_dependencies : option (list string);
  td_roles : option (list role_data);
  td_optimistic_days : option value;
  td_most_likely_days : option value;
  td_pessimistic_days : option value;
  td_risk : option string;
  td_priority : option string
}.

Record TaskEstimate : Type := mkTaskEstimate {
  te_id : string;
  te_title : string;
  te_description : string;
  te_category : string;
  te_acceptance_criteria : list string;
  te_dependencies : list string;
  te_roles : list role_data;
  te_optimistic_days : Q;
  te_most_likely_days : Q;
  te_pessimistic_days : Q;
  te_expected_days : Q;
  te_risk : string;
  te_priority : string
}.

(** [ProjectEstimate], without [created_at]. *)
Record ProjectEstimate : Type := mkProjectEstimate {
  pe_id : string;
  pe_project_id : string;
  pe_tasks : list TaskEstimate;
  pe_total_cost : Q;
  pe_total_duration_days : Q;
  pe_critical_path : list string;
  pe_start_date : Q;
  pe_end_date : Q;
  pe_resource_allocation : Dict.t Z
}.

(** What a run reads from outside: the clock and the [uuid.uuid4()]
    generator, whose [k]-th call returns [uuid4 k]. *)
Record world : Type := mkWorld {
  now : Q;
  uuid4 : nat -> string
}.

(** The accumulators of the loop over the task records:
    [tasks], [total_cost], [dependencies], and the number of [uuid4] calls
    made so far. *)
Record loop_state : Type := mkLoop {
  ls_tasks : list TaskEstimate;
  ls_total_cost : value;
  ls_dependencies : Dict.t (list string);
  ls_uuid_calls : nat
}.

(** [tasks = []; total_cost = 0; dependencies = {}] *)
Definition initial_loop_state : loop_state := mkLoop [] (VNum 0) [] 0.

(** The body of [for task_data in decomposition.get("tasks", [])].  The
    default of [task_data.get("id", str(uuid.uuid4()))] is evaluated on
    every turn, whether it is used or not. *)
Definition process_task (w : world) (rates : Dict.t Z) (st : loop_state)
  (td : task_data) : result loop_state :=
  let opt_days := get_default (td_optimistic_days td) (VNum 5) in
  let ml_days := get_default (td_most_likely_days td) (VNum 10) in
  let pess_days := get_default (td_pessimistic_days td) (VNum 15) in
  expected_days <- calculate_pert_estimate opt_days ml_days pess_days ;;
  cost <- task_cost rates (get_default (td_roles td) []) ;;
  let fresh := uuid4 w (ls_uuid_calls st) in
  opt <- as_float opt_days ;;
  ml <- as_float ml_days ;;
  pess <- as_float pess_days ;;
  expected <- as_float expected_days ;;
  let task :=
    mkTaskEstimate
      (get_default (td_id td) fresh)
      (get_default (td_title td) "Unnamed Task")
      (get_default (td_description td) "")
      (get_default (td_category td) "General")
      (get_default (td_acceptance_criteria td) [])
      (get_default (td_dependencies td) [])
      (get_default (td_roles td) [])
      opt ml pess expected
      (get_default (td_risk td) "medium")
      (get_default (td_priority td) "medium") in
  total_cost <- py_add (ls_total_cost st) cost ;;
  Ok (mkLoop (ls_tasks st ++ [task])%list
             total_cost
             (Dict.set (ls_dependencies st) (te_id task) (te_dependencies task))
             (S (ls_uuid_calls st))).

Fixpoint process_tasks (w : world) (rates : Dict.t Z) (st : loop_state)
  (tds : list task_data) : result loop_state :=
  match tds with
  | [] => Ok st
  | td :: rest => st' <- process_task w rates st td ;; process_tasks w rates st' rest
  end.

(** Python's [sum], from 0 and left to right. *)
Definition py_sum (xs : list Q) : Q := fold_left Qplus xs 0.

Definition in_list (x : string) (xs : list string) : bool :=
  existsb (String.eqb x) xs.

(** [sum(t.expected_days for t in tasks if t.id in critical_path)
     if critical_path else sum(t.expected_days for t in tasks)] *)
Definition total_duration (tasks : list TaskEstimate) (critical_path : list string)
  : Q :=
  match critical_path with
  | _ :: _ =>
      py_sum (map te_expected_days
                  (filter (fun t => in_list (te_id t) critical_path) tasks))
  | [] => py_sum (map te_expected_days tasks)
  end.

Definition task_dicts (tasks : list TaskEstimate) : list (string * Q) :=
  map (fun t => (te_id t, te_expected_days t)) tasks.

(** The statements of [analyze_project] inside its [try], from the loop
    over the decomposed tasks to the construction of the estimate.  The
    calls to the generative model and to the database are outside the
    engine; [tds] is [decomposition.get("tasks", [])]. *)
Definition analyze_body (w : world) (rates : Dict.t Z) (project_id : string)
  (tds : list task_data) : result ProjectEstimate :=
  st <- process_tasks w rates initial_loop_state tds ;;
  let tasks := ls_tasks st in
  critical_path <- calculate_critical_path (task_dicts tasks) (ls_dependencies st) ;;
  let total := total_duration tasks critical_path in
  let start_date := now w in
  let end_date := start_date + total in
  cost <- as_float (ls_total_cost st) ;;
  Ok (mkProjectEstimate (uuid4 w (ls_uuid_calls st)) project_id tasks cost total
                        critical_path start_date end_date rates).

(** [analyze_project]: [except Exception] answers every exception of the
    body with HTTP 500 (the detail text is carried over as "Analysis failed"). *)
Definition analyze_project (w : world) (rates : Dict.t Z) (project_id : string)
  (tds : list task_data) : result ProjectEstimate :=
  match analyze_body w rates project_id tds with
  | Ok estimate => Ok estimate
  | Raise _ => Raise (HTTPException 500 "Analysis failed")
  | OutOfFuel => OutOfFuel
  end.

(* ===================================================================== *)
(** ** Specification-side definitions *)
(* ===================================================================== *)


(** A value that Python arithmetic accepts as a number. *)
Definition is_num (v : value) : bool :=
  match v with VNum _ => true | _ => false end.

Definition num_or (o : option value) (d : Q) : Q :=
  match o with Some (VNum q) => q | _ => d end.

Definition absent_or_num (o : option value) : bool :=
  match o with Some v => is_num v | None => true end.

(** The most-likely hours and the role name a role allocation is priced
    with. *)
Definition hours_of (r : role_data) : Q := num_or (rd_hours_most_likely r) 40.

Definition role_of (r : role_data) : string := get_default (rd_role r) "Developer".

(** The cost roll-up as the specification writes it: a sum over the role
    allocations of hours times the rate of the role, the rate being the
    table's entry for exactly that name, or the default rate. *)
Definition spec_rate (rates : Dict.t Z) (default_rate : Z) (role : string) : Z :=
  match Dict.get rates role with
  | Some rate => rate
  | None => default_rate
  end.

Definition spec_role_cost (rates : Dict.t Z) (default_rate : Z) (r : role_data) : Q :=
  hours_of r * inject_Z (spec_rate rates default_rate (role_of r)).

Fixpoint spec_task_cost (rates : Dict.t Z) (default_rate : Z)
  (roles : list role_data) : Q :=
  match roles with
  | [] => 0
  | r :: rs => spec_role_cost rates default_rate r + spec_task_cost rates default_rate rs
  end.

Fixpoint spec_total_cost (rates : Dict.t Z) (default_rate : Z)
  (tasks : list TaskEstimate) : Q :=
  match tasks with
  | [] => 0
  | t :: ts =>
      spec_task_cost rates default_rate (te_roles t)
      + spec_total_cost rates default_rate ts
  end.

(** A task record whose numeric keys, where present, hold numbers. *)
Definition well_typed_role (r : role_data) : bool :=
  absent_or_num (rd_hours_most_likely r).

Definition well_typed_task (td : task_data) : bool :=
  absent_or_num (td_optimistic_days td)
  && absent_or_num (td_most_likely_days td)
  && absent_or_num (td_pessimistic_days td)
  && forallb well_typed_role (get_default (td_roles td) []).

(** What the loop body computes on a well-typed record, as pure
    functions: the estimate of the record and the state after the turn. *)
Definition typed_task_cost (rates : Dict.t Z) (roles : list role_data) (acc : Q) : Q :=
  fold_left (fun c r => c + inject_Z (rate_of rates (role_of r)) * hours_of r) roles acc.

Definition estimate_of (fresh : string) (td : task_data) : TaskEstimate :=
  let opt := num_or (td_optimistic_days td) 5 in
  let ml := num_or (td_most_likely_days td) 10 in
  let pess := num_or (td_pessimistic_days td) 15 in
  mkTaskEstimate
    (get_default (td_id td) fresh)
    (get_default (td_title td) "Unnamed Task")
    (get_default (td_description td) "")
    (get_default (td_category td) "General")
    (get_default (td_acceptance_criteria td) [])
    (get_default (td_dependencies td) [])
    (get_default (td_roles td) [])
    opt ml pess ((opt + inject_Z 4 * ml + pess) / inject_Z 6)
    (get_default (td_risk td) "medium")
    (get_default (td_priority td) "medium").

Definition typed_task (w : world) (rates : Dict.t Z) (st : loop_state)
  (td : task_data) : loop_state :=
  let task := estimate_of (uuid4 w (ls_uuid_calls st)) td in
  mkLoop (ls_tasks st ++ [task])%list
         (VNum (num_or (Some (ls_total_cost st)) 0
                + typed_task_cost rates (get_default (td_roles td) []) 0))
         (Dict.set (ls_dependencies st) (te_id task) (te_dependencies task))
         (S (ls_uuid_calls st)).



(** [v] declares a dependency on [u]. *)
Definition depends_on (dependencies : Dict.t (list string)) (v u : string) : Prop :=
  exists deps, In (v, deps) dependencies /\ In u deps.

(** The declared dependencies form a cycle: some task is reached from
    itself by following one or more "must complete before" edges. *)
Definition has_cycle (dependencies : Dict.t (list string)) : Prop :=
  exists v, clos_trans string (fun a b => depends_on dependencies b a) v v.

(** Every id a task list mentions: ids of tasks and declared dependencies. *)
Definition mentioned_ids (tasks : list (string * Q))
  (dependencies : Dict.t (list string)) : list string :=
  (map fst tasks ++ Dict.keys dependencies ++ concat (map snd dependencies))%list.

(** Total node weight of a path, a node without duration weighing 0. *)
Definition node_weight (tasks : list (string * Q)) (n : string) : Q :=
  get_default (Dict.get tasks n) 0.

Definition path_weight (tasks : list (string * Q)) (path : list string) : Q :=
  py_sum (map (node_weight tasks) path).

(** A path of the graph from a root (no incoming edge) to a leaf (no
    outgoing edge). *)
Fixpoint is_chain (G : DiGraph) (path : list string) : bool :=
  match path with
  | u :: ((v :: _) as rest) => has_edge G u v && is_chain G rest
  | _ => true
  end.

Definition root_to_leaf_path (G : DiGraph) (path : list string) : bool :=
  match path with
  | [] => false
  | first :: _ =>
      forallb (has_node G) path
      && is_chain G path
      && match pred_of G first with [] => true | _ => false end
      && match succ_of G (last path first) with [] => true | _ => false end
  end.

(** Largest expected duration of a non-empty task list. *)
Definition max_expected_days (tasks : list TaskEstimate) : Q :=
  fold_right (fun t m => if Qlt_bool m (te_expected_days t) then te_expected_days t else m)
             0 tasks.

(* ===================================================================== *)
(** ** Inputs used in the examples *)
(* ===================================================================== *)

Definition example_world : world :=
  mkWorld 0 (fun _ => "00000000-0000-4000-8000-000000000000").

(** A task record with an id, dependencies and three numeric durations,
    every other key absent. *)
Definition task_record (id : string) (deps : list string) (o m p : Q) : task_data :=
  mkTaskData (Some id) None None None None (Some deps) None
             (Some (VNum o)) (Some (VNum m)) (Some (VNum p)) None None.

(** A role allocation with a name and most-likely hours. *)
Definition allocation (role : string) (hours : Q) : role_data :=
  mkRole (Some role) None (Some (VNum hours)) None.

(* ===================================================================== *)
(** ** Invariants used in the proofs *)
(* ===================================================================== *)

(** An edge, as a proposition. *)
Definition edge (G : DiGraph) (u v : string) : Prop :=
  In v (Dict.keys (succ_of G u)).

(** The three dicts of a graph agree. *)
Record wf_graph (G : DiGraph) : Prop := mkWf {
  wf_nodup : NoDup (nodes G);
  wf_pred_keys : Dict.keys (g_pred G) = Dict.keys (g_succ G);
  wf_sym : forall u v,
      In v (Dict.keys (succ_of G u)) <-> In u (Dict.keys (pred_of G v));
  wf_succ_nodup : forall u, NoDup (Dict.keys (succ_of G u));
  wf_succ_nodes : forall u v,
      In v (Dict.keys (succ_of G u)) -> In u (nodes G) /\ In v (nodes G)
}.

Arguments wf_nodup {G} w.
Arguments wf_pred_keys {G} w.
Arguments wf_sym {G} w u v.
Arguments wf_succ_nodup {G} w u.
Arguments wf_succ_nodes {G} w u v.

(** A node that is not the id of a task carries no ["duration"]. *)
Definition attr_inv (ids : list string) (G : DiGraph) : Prop :=
  forall x, In x (nodes G) -> ~ In x ids -> Dict.get (g_node G) x = Some None.

(** Every entry of [dist] points to itself or to an entry made before it;
    stated on the reversed dict, newest entry first. *)
Fixpoint back_ok (r : dist_t) : Prop :=
  match r with
  | [] => True
  | (v, (_, u)) :: r' => (u = v \/ In u (Dict.keys r')) /\ back_ok r'
  end.

(** Number of predecessors of [v] whose edge into [v] is not yet [relaxed]. *)
Definition pending (G : DiGraph) (relaxed : string -> string -> bool) (v : string)
  : nat :=
  length (filter (fun u => negb (relaxed u v)) (Dict.keys (pred_of G v))).

(** Invariants of the topological sort on a graph with a cycle.  [X] is a
    set of nodes each of which has a predecessor in [X]; [started] lists
    the nodes whose out-edges may have been relaxed; every entry of
    [indegree_map] is at least the number of pending edges into its node,
    and the nodes of [X] never leave [indegree_map]. *)
Definition count_inv (G : DiGraph) (relaxed : string -> string -> bool)
  (indegree_map : Dict.t Z) : Prop :=
  forall v d, Dict.get indegree_map v = Some d ->
              (Z.of_nat (pending G relaxed v) <= d)%Z.

Definition cyc_inv (G : DiGraph) (X : string -> Prop) (started : list string)
  (relaxed : string -> string -> bool) (indegree_map : Dict.t Z) : Prop :=
  (forall u v, relaxed u v = true -> In u started) /\
  count_inv G relaxed indegree_map /\
  (forall x, X x -> Dict.mem indegree_map x = true) /\
  (forall x, X x -> ~ In x started).

(** Invariant of the topological sort: the nodes released so far ([seen]
    and the generation being collected) are distinct and have left
    [indegree_map]. *)
Definition topo_inv (seen : list string) (st : topo_state) : Prop :=
  NoDup (seen ++ snd st)%list /\
  forall x, In x (seen ++ snd st)%list -> ~ In x (Dict.keys (fst st)).

(* ===================================================================== *)
(** ** Invariants of the topological sort on any graph *)
(* ===================================================================== *)

(** All predecessors of [v] are in [l]. *)
Definition preds_in (G : DiGraph) (l : list string) (v : string) : Prop :=
  forall u, In u (Dict.keys (pred_of G v)) -> In u l.

(** [order] lists every node after all its predecessors, [before] being
    what precedes [order]. *)
Fixpoint preds_closed (G : DiGraph) (before order : list string) : Prop :=
  match order with
  | [] => True
  | v :: rest => preds_in G before v /\ preds_closed G (before ++ [v]) rest
  end.

(** The exact bookkeeping of [indegree_map]: an entry is the number of
    pending edges into its node and is positive; a node without entry has
    no pending edge. *)
Definition kahn_inv (G : DiGraph) (started : list string)
  (relaxed : string -> string -> bool) (indegree_map : Dict.t Z) : Prop :=
  (forall u v, relaxed u v = true -> In u started) /\
  (forall v d, Dict.get indegree_map v = Some d ->
               d = Z.of_nat (pending G relaxed v) /\ (0 < d)%Z) /\
  (forall v, In v (nodes G) -> ~ In v (Dict.keys indegree_map) ->
             pending G relaxed v = 0%nat).

(** A graph as [calculate_critical_path] builds it: well formed, each
    predecessor listed once, no edge with attributes. *)
Record plain_graph (G : DiGraph) : Prop := mkPlain {
  pg_wf : wf_graph G;
  pg_pred_nodup : forall v, NoDup (Dict.keys (pred_of G v));
  pg_succ_plain : forall u v d, In (v, d) (succ_of G u) -> d = None;
  pg_pred_plain : forall v u d, In (u, d) (pred_of G v) -> d = None
}.

Arguments pg_wf {G} p.
Arguments pg_pred_nodup {G} p v.
Arguments pg_succ_plain {G} p u v d.
Arguments pg_pred_plain {G} p v u d.

(** What [dist] holds after the longest-path pass over a plain graph: the
    length of an entry is at least one more than the length of every
    predecessor, and the entry points to a predecessor exactly one shorter,
    or to the node itself with length 0. *)
Definition dist_ok (G : DiGraph) (dist : dist_t) : Prop :=
  forall v l p, Dict.get dist v = Some (l, p) ->
    0 <= l /\
    (forall u, In u (Dict.keys (pred_of G v)) ->
               exists lu pu, Dict.get dist u = Some (lu, pu) /\ lu + 1 <= l) /\
    ((p = v /\ l == 0) \/
     (In p (Dict.keys (pred_of G v)) /\
      exists lp pp, Dict.get dist p = Some (lp, pp) /\ l == lp + 1)).

(** The length recorded for a node, 0 when absent. *)
Definition dist_len (dist : dist_t) (v : string) : Q :=
  fst (get_default (Dict.get dist v) (0, v)).

(** The number of nodes of a path, as a rational. *)
Definition qlen (path : list string) : Q := inject_Z (Z.of_nat (length path)).

(** The declared dependencies have no cycle. *)
Definition acyclic (dependencies : Dict.t (list string)) : Prop :=
  ~ has_cycle dependencies.

(** [chain] starts at [v], every next element is a predecessor of the one
    before it, and the last element has no predecessor. *)
Fixpoint back_chain (G : DiGraph) (v : string) (chain : list string) : Prop :=
  match chain with
  | [] => False
  | x :: rest =>
      x = v /\
      match rest with
      | [] => pred_of G x = []
      | y :: _ => In y (Dict.keys (pred_of G x)) /\ back_chain G y rest
      end
  end.

(** The three durations a task record is estimated with are non-negative. *)
Definition nonneg_durations (td : task_data) : Prop :=
  0 <= num_or (td_optimistic_days td) 5 /\
  0 <= num_or (td_most_likely_days td) 10 /\
  0 <= num_or (td_pessimistic_days td) 15.

(** The last task of a list that carries a given id. *)
Definition last_with_id (tasks : list TaskEstimate) (id : string) : option TaskEstimate :=
  find (fun t => String.eqb (te_id t) id) (rev tasks).

(* ===================================================================== *)
(** ** The conversation script and the request handlers *)
(* ===================================================================== *)

(** The texts of the assistant, line breaks included. *)
Definition greeting_text : string :=
  "Hi! I'm your IT Project Planning Assistant. I'll help you create detailed project estimates with timelines and costs. Let's start with your project basics:

1. What's your project name?
2. What's the main objective?
3. Do you have a target deadline?".

Definition details_text : string :=
  "Great! Now I need more details:

1. What's your preferred tech stack?
2. What's your team size preference?
3. What are the key deliverables/features?
4. What's your budget range?".

Definition constraints_text : string :=
  "Perfect! A few more questions:

1. Any specific constraints or requirements?
2. How would you rate the project complexity (simple/medium/complex)?
3. Any existing assets or systems to integrate with?".

Definition ready_text : string :=
  "Excellent! I have all the information needed. Let me analyze your project and create a detailed breakdown with tasks, timeline, and cost estimates. This will take a moment...".

(** An entry of [messages]: [{"role": ..., "content": ...}]. *)
Record Message : Type := mkMessage {
  msg_role : string;
  msg_content : string
}.

(** [ConversationState], without [created_at]; also the document stored in
    [db.conversations]. *)
Record Conversation : Type := mkConversation {
  cv_id : string;
  cv_project_id : string;
  cv_current_step : string;
  cv_completed_steps : list string;
  cv_context : Dict.t string;
  cv_messages : list Message
}.

(** The two collections of the database, each a list of documents in the
    order of insertion. *)
Record Database : Type := mkDatabase {
  db_conversations : list Conversation;
  db_project_estimates : list ProjectEstimate
}.

(** [db.conversations.find_one({"id": id})]: the first document with that
    id. *)
Definition find_conversation (db : Database) (id : string) : option Conversation :=
  find (fun c => String.eqb (cv_id c) id) (db_conversations db).

(** [db.project_estimates.find_one({"project_id": project_id})] *)
Definition find_estimate (db : Database) (project_id : string) : option ProjectEstimate :=
  find (fun e => String.eqb (pe_project_id e) project_id) (db_project_estimates db).

(** [replace_one({"id": id}, doc)]: the first document with that id is
    replaced; without a match nothing is written. *)
Fixpoint replace_first (docs : list Conversation) (id : string) (doc : Conversation)
  : list Conversation :=
  match docs with
  | [] => []
  | c :: rest =>
      if String.eqb (cv_id c) id then doc :: rest
      else c :: replace_first rest id doc
  end.

Definition replace_conversation (db : Database) (id : string) (doc : Conversation)
  : Database :=
  mkDatabase (replace_first (db_conversations db) id doc) (db_project_estimates db).

(** [start_conversation]: the uuid of [project_id] is drawn while the
    arguments are evaluated, the one of [id] by the default factory. *)
Definition start_conversation (w : world) (db : Database) : Conversation * Database :=
  let conversation :=
    mkConversation (uuid4 w 1) (uuid4 w 0) "greeting" [] []
                   [mkMessage "assistant" greeting_text] in
  (conversation,
   mkDatabase (db_conversations db ++ [conversation])%list (db_project_estimates db)).

(** The [if]/[elif] chain of [chat_response]: the context, the step and the
    answer after a message received in step [current_step]. *)
Definition script_step (current_step : string) (context : Dict.t string)
  (user_message : string) : Dict.t string * string * string :=
  if String.eqb current_step "greeting" then
    (Dict.set context "initial_input" user_message, "details", details_text)
  else if String.eqb current_step "details" then
    (Dict.set context "additional_details" user_message, "constraints", constraints_text)
  else if String.eqb current_step "constraints" then
    (Dict.set context "constraints" user_message, "ready_for_analysis", ready_text)
  else (context, current_step, "").

(** [chat_response]; [content] is [message.get("content", "")] before the
    default.  The answer is the pair of ["response"] and ["step"]. *)
Definition chat_response (db : Database) (conversation_id : string)
  (content : option string) : result ((string * string) * Database) :=
  let user_message := get_default content "" in
  match find_conversation db conversation_id with
  | None => Raise (HTTPException 404 "Conversation not found")
  | Some conversation =>
      let messages1 := (cv_messages conversation ++ [mkMessage "user" user_message])%list in
      let '(context, step, assistant_response) :=
        script_step (cv_current_step conversation) (cv_context conversation)
                    user_message in
      let messages2 := (messages1 ++ [mkMessage "assistant" assistant_response])%list in
      let conversation' :=
        mkConversation (cv_id conversation) (cv_project_id conversation) step
                       (cv_completed_steps conversation) context messages2 in
      Ok ((assistant_response, step),
          replace_conversation db conversation_id conversation')
  end.

(** [project_data] as [analyze_project] extracts it from the context. *)
Record ProjectData : Type := mkProjectData {
  pd_name : string;
  pd_objective : string;
  pd_tech_stack : string;
  pd_complexity : string;
  pd_constraints : string
}.

Definition project_data_of (conversation : Conversation) : ProjectData :=
  let context := cv_context conversation in
  mkProjectData "Project from conversation"
                (get_default (Dict.get context "initial_input") "")
                (get_default (Dict.get context "additional_details") "")
                "medium"
                (get_default (Dict.get context "constraints") "").

(** The whole handler [analyze_project].  [groq] stands for
    [decompose_project_with_groq]: it answers with the ["tasks"] of the
    decomposition, [None] when the key is absent, or it raises.  Whatever is
    raised inside the [try] is answered with HTTP 500; the 404 is raised
    before it. *)
Definition analyze_project_handler (w : world) (rates : Dict.t Z)
  (groq : ProjectData -> result (option (list task_data)))
  (db : Database) (conversation_id : string)
  : result (ProjectEstimate * Database) :=
  match find_conversation db conversation_id with
  | None => Raise (HTTPException 404 "Conversation not found")
  | Some conversation =>
      match (decomposition <- groq (project_data_of conversation) ;;
             analyze_body w rates (cv_project_id conversation)
                          (get_default decomposition [])) with
      | Ok estimate =>
          Ok (estimate,
              mkDatabase (db_conversations db)
                         (db_project_estimates db ++ [estimate])%list)
      | Raise _ => Raise (HTTPException 500 "Analysis failed")
      | OutOfFuel => OutOfFuel
      end
  end.

(** [get_project_estimate] and [get_conversation] *)
Definition get_project_estimate (db : Database) (project_id : string)
  : result ProjectEstimate :=
  match find_estimate db project_id with
  | Some estimate => Ok estimate
  | None => Raise (HTTPException 404 "Project estimate not found")
  end.

Definition get_conversation (db : Database) (conversation_id : string)
  : result Conversation :=
  match find_conversation db conversation_id with
  | Some conversation => Ok conversation
  | None => Raise (HTTPException 404 "Conversation not found")
  end.

(** Three messages sent one after the other to the same conversation. *)
Definition three_turns (db : Database) (id : string) (m1 m2 m3 : string)
  : result (list (string * string) * Database) :=
  '(a1, db1) <- chat_response db id (Some m1) ;;
  '(a2, db2) <- chat_response db1 id (Some m2) ;;
  '(a3, db3) <- chat_response db2 id (Some m3) ;;
  Ok ([a1; a2; a3], db3).

(* ===================================================================== *)
(** ** The answer of the model, before it is parsed *)
(* ===================================================================== *)

(** In this part a character of a [string] stands for one code point of the
    Python [str], so the strings covered are those of code points below
    256.  [is_space] is [str.isspace] on them. *)
Definition is_space (c : Ascii.ascii) : bool :=
  let n := Ascii.nat_of_ascii c in
  ((9 <=? n) && (n <=? 13) || (28 <=? n) && (n <=? 32) || (n =? 133) || (n =? 160))%nat.

Fixpoint lstrip (s : string) : string :=
  match s with
  | EmptyString => EmptyString
  | String c s' => if is_space c then lstrip s' else s
  end.

Fixpoint rstrip (s : string) : string :=
  match s with
  | EmptyString => EmptyString
  | String c s' =>
      match rstrip s' with
      | EmptyString => if is_space c then EmptyString else String c EmptyString
      | r => String c r
      end
  end.

(** [s.strip()] *)
Definition py_strip (s : string) : string := rstrip (lstrip s).

(** [s.replace(old, "")] for a non-empty [old]: the occurrences of [old]
    are found from the left, without overlap, and left out; [skip] counts
    the characters of the occurrence in progress that remain to be left
    out. *)
Fixpoint remove_from (old : string) (skip : nat) (s : string) : string :=
  match s with
  | EmptyString => EmptyString
  | String c s' =>
      match skip with
      | S k => remove_from old k s'
      | O =>
          if String.prefix old s then remove_from old (String.length old - 1) s'
          else String c (remove_from old 0 s')
      end
  end.

Definition py_remove (old s : string) : string := remove_from old 0 s.

(** The cleaning of the response in [decompose_project_with_groq]. *)
Definition clean_response (response : string) : string :=
  let stripped := py_strip response in
  if String.prefix "```json" stripped
  then py_strip (py_remove "```" (py_remove "```json" stripped))
  else stripped.

(** [decompose_project_with_groq], the call to the model and [json.loads]
    being parameters: [call_groq_api] stands for the request built from the
    project data, and [json_loads] answers [inr msg] where [json.loads]
    raises a [JSONDecodeError] whose text is [msg]. *)
Definition decompose_project_with_groq {A : Type}
  (call_groq_api : ProjectData -> result string)
  (json_loads : string -> A + string)
  (project_data : ProjectData) : result A :=
  response <- call_groq_api project_data ;;
  match json_loads (clean_response response) with
  | inl parsed_data => Ok parsed_data
  | inr msg =>
      Raise (HTTPException 500 ("Failed to parse Groq response as JSON: " ++ msg))
  end.

(** The character [c] occurs in [s]. *)
Fixpoint occurs (c : Ascii.ascii) (s : string) : bool :=
  match s with
  | EmptyString => false
  | String c' s' => Ascii.eqb c c' || occurs c s'
  end.

(** Every character of [s] is white space. *)
Fixpoint all_space (s : string) : bool :=
  match s with
  | EmptyString => true
  | String c s' => is_space c && all_space s'
  end.

(* ===================================================================== *)
(** ** Facts about dictionaries *)
(* ===================================================================== *)

Ltac eqb_case a b :=
  let E := fresh "E" in
  destruct (String.eqb a b) eqn:E;
  [apply String.eqb_eq in E; try subst | apply String.eqb_neq in E].

Section DictFacts.
Context {V : Type}.
Implicit Types (d : Dict.t V) (k : string) (x : V).

Lemma get_set d k x k' :
  Dict.get (Dict.set d k x) k' = if String.eqb k' k then Some x else Dict.get d k'.
Proof.
  induction d as [|[a y] d IH]; simpl.
  - reflexivity.
  - eqb_case k a; simpl.
    + destruct (String.eqb k' a); reflexivity.
    + eqb_case k' a.
      * apply String.eqb_neq in E. rewrite String.eqb_sym, E. reflexivity.
      * exact IH.
Qed.

Lemma get_set_same d k x : Dict.get (Dict.set d k x) k = Some x.
Proof. rewrite get_set, String.eqb_refl. reflexivity. Qed.

Lemma get_set_other d k x k' :
  k' <> k -> Dict.get (Dict.set d k x) k' = Dict.get d k'.
Proof.
  intros N. rewrite get_set. apply String.eqb_neq in N. rewrite N. reflexivity.
Qed.

Lemma get_some_in d k x : Dict.get d k = Some x -> In (k, x) d.
Proof.
  induction d as [|[a y] d IH]; simpl; [discriminate|].
  eqb_case k a.
  - intros [= ->]. left; reflexivity.
  - intros H. right. auto.
Qed.

Lemma get_none_iff d k : Dict.get d k = None <-> ~ In k (Dict.keys d).
Proof.
  induction d as [|[a y] d IH]; simpl.
  - tauto.
  - eqb_case k a.
    + split; [discriminate | intros H; exfalso; apply H; left; reflexivity].
    + rewrite IH. split; [intros H [F|F]; [congruence | tauto] | tauto].
Qed.

Lemma mem_iff d k : Dict.mem d k = true <-> In k (Dict.keys d).
Proof.
  unfold Dict.mem. destruct (Dict.get d k) eqn:E.
  - split; [intros _ | reflexivity].
    apply get_some_in in E. apply (in_map fst) in E. exact E.
  - apply get_none_iff in E. split; [discriminate | tauto].
Qed.

Lemma mem_false_iff d k : Dict.mem d k = false <-> ~ In k (Dict.keys d).
Proof.
  rewrite <- mem_iff. destruct (Dict.mem d k); split; congruence.
Qed.

Lemma in_get d k : In k (Dict.keys d) -> exists x, Dict.get d k = Some x.
Proof.
  intros H. destruct (Dict.get d k) eqn:E; [eauto|].
  apply get_none_iff in E. tauto.
Qed.

Lemma in_nodup_get d k x :
  NoDup (Dict.keys d) -> In (k, x) d -> Dict.get d k = Some x.
Proof.
  induction d as [|[a y] d IH]; simpl; [tauto|].
  intros ND [H|H].
  - injection H as -> ->. rewrite String.eqb_refl. reflexivity.
  - inversion ND as [|? ? Hn ND']; subst.
    eqb_case k a.
    + exfalso. apply Hn. apply (in_map fst) in H. exact H.
    + auto.
Qed.

Lemma set_new d k x :
  ~ In k (Dict.keys d) -> Dict.set d k x = (d ++ [(k, x)])%list.
Proof.
  induction d as [|[a y] d IH]; simpl; intros H.
  - reflexivity.
  - eqb_case k a.
    + exfalso. apply H. left; reflexivity.
    + f_equal. apply IH. tauto.
Qed.

Lemma keys_set_old d k x :
  In k (Dict.keys d) -> Dict.keys (Dict.set d k x) = Dict.keys d.
Proof.
  induction d as [|[a y] d IH]; simpl; intros H.
  - tauto.
  - eqb_case k a; simpl.
    + reflexivity.
    + f_equal. apply IH. destruct H; congruence.
Qed.

Lemma keys_set_new d k x :
  ~ In k (Dict.keys d) -> Dict.keys (Dict.set d k x) = (Dict.keys d ++ [k])%list.
Proof.
  intros H. rewrite set_new by exact H. unfold Dict.keys.
  rewrite map_app. reflexivity.
Qed.

Lemma in_keys_set d k x a :
  In a (Dict.keys (Dict.set d k x)) <-> a = k \/ In a (Dict.keys d).
Proof.
  destruct (in_dec string_dec k (Dict.keys d)) as [H|H].
  - rewrite keys_set_old by exact H. split; [tauto | intros [->|?]; assumption].
  - rewrite keys_set_new by exact H. rewrite in_app_iff. simpl.
    split; [intros [?|[?|[]]]; auto | intros [?|?]; auto].
Qed.

Lemma nodup_keys_set d k x :
  NoDup (Dict.keys d) -> NoDup (Dict.keys (Dict.set d k x)).
Proof.
  intros ND. destruct (in_dec string_dec k (Dict.keys d)) as [H|H].
  - rewrite keys_set_old by exact H. exact ND.
  - rewrite keys_set_new by exact H.
    apply NoDup_app; [exact ND | repeat constructor; simpl; tauto |].
    intros a Ha [<-|[]]. tauto.
Qed.

Lemma length_set_old d k x :
  In k (Dict.keys d) -> length (Dict.set d k x) = length d.
Proof.
  intros H. rewrite <- (length_map fst (Dict.set d k x)), <- (length_map fst d).
  fold (Dict.keys (Dict.set d k x)). fold (Dict.keys d).
  rewrite keys_set_old by exact H. reflexivity.
Qed.

Lemma in_keys_del d k a :
  In a (Dict.keys (Dict.del d k)) <-> a <> k /\ In a (Dict.keys d).
Proof.
  unfold Dict.del, Dict.keys. rewrite !in_map_iff. split.
  - intros [[b y] [<- H]]. apply filter_In in H. destruct H as [H1 H2]. simpl in *.
    split.
    + intros ->. rewrite String.eqb_refl in H2. discriminate.
    + exists (b, y). auto.
  - intros [N [[b y] [<- H]]]. exists (b, y). split; [reflexivity|].
    apply filter_In. split; [exact H|]. simpl in *.
    apply negb_true_iff. apply String.eqb_neq. congruence.
Qed.

Lemma length_del d k :
  In k (Dict.keys d) -> (length (Dict.del d k) < length d)%nat.
Proof.
  unfold Dict.del, Dict.keys.
  induction d as [|[a y] d IH]; simpl; [tauto|].
  intros H. eqb_case k a; simpl.
  - pose proof (filter_length_le (fun kv : string * V => negb (String.eqb a (fst kv))) d).
    lia.
  - destruct H as [H|H]; [congruence|]. apply IH in H. lia.
Qed.

Lemma get_del_other d k k' :
  k' <> k -> Dict.get (Dict.del d k) k' = Dict.get d k'.
Proof.
  intros N. unfold Dict.del.
  induction d as [|[a y] d IH]; simpl; [reflexivity|].
  eqb_case k a; simpl.
  + apply String.eqb_neq in N. rewrite N. exact IH.
  + rewrite IH. reflexivity.
Qed.
End DictFacts.

Lemma get_del_same {V : Type} (d : Dict.t V) k : Dict.get (Dict.del d k) k = None.
Proof.
  apply get_none_iff. rewrite in_keys_del. tauto.
Qed.

(* ===================================================================== *)
(** ** The topological sort terminates *)
(* ===================================================================== *)

Lemma bind_ok {A B : Type} (m : result A) (k : A -> result B) b :
  bind m k = Ok b -> exists a, m = Ok a /\ k a = Ok b.
Proof. destruct m; simpl; intros H; try discriminate. eauto. Qed.

Lemma relax_children_length cs im z im' z' :
  relax_children cs (im, z) = Ok (im', z') ->
  (length im' + length z' <= length im + length z)%nat /\ (length z <= length z')%nat.
Proof.
  revert im z. induction cs as [|c cs IH]; simpl; intros im z H.
  - injection H as <- <-. lia.
  - destruct (Dict.get im c) as [d|] eqn:E; [|discriminate].
    assert (Hc : In c (Dict.keys im)).
    { apply mem_iff. unfold Dict.mem. rewrite E. reflexivity. }
    destruct ((d - 1 =? 0)%Z).
    + apply IH in H. pose proof (length_del im c Hc). rewrite length_app in H.
      simpl in H. lia.
    + apply IH in H. rewrite (length_set_old im c _ Hc) in H. lia.
Qed.

Lemma process_generation_length G gen im z im' z' :
  process_generation G gen (im, z) = Ok (im', z') ->
  (length im' + length z' <= length im + length z)%nat /\ (length z <= length z')%nat.
Proof.
  revert im z. induction gen as [|n gen IH]; simpl; intros im z H.
  - injection H as <- <-. lia.
  - destruct (has_node G n); [|discriminate].
    apply bind_ok in H. destruct H as [[im1 z1] [H1 H2]].
    apply relax_children_length in H1. apply IH in H2. lia.
Qed.

Lemma generations_loop_nil fuel G im :
  generations_loop fuel G im [] =
  match im with [] => Ok [] | _ :: _ => Raise NetworkXUnfeasible end.
Proof. destruct fuel; reflexivity. Qed.

Lemma generations_loop_cons fuel G im n zero :
  generations_loop (S fuel) G im (n :: zero) =
  bind (process_generation G (n :: zero) (im, []))
       (fun st => later <- generations_loop fuel G (fst st) (snd st) ;;
                  Ok ((n :: zero) :: later)).
Proof.
  cbn [generations_loop].
  destruct (process_generation _ _ _) as [[im' z']| |]; reflexivity.
Qed.

Lemma relax_children_returns cs st : relax_children cs st <> OutOfFuel.
Proof.
  revert st. induction cs as [|c cs IH]; intros [im z]; cbn [relax_children].
  - discriminate.
  - destruct (Dict.get im c); [|discriminate].
    destruct (_ =? 0)%Z; apply IH.
Qed.

Lemma process_generation_returns G gen st : process_generation G gen st <> OutOfFuel.
Proof.
  revert st. induction gen as [|n gen IH]; intros st; cbn [process_generation].
  - discriminate.
  - destruct (has_node G n); [|discriminate].
    destruct (relax_children (Dict.keys (succ_of G n)) st) eqn:E; cbn [bind].
    + apply IH.
    + discriminate.
    + exfalso. exact (relax_children_returns _ _ E).
Qed.

Lemma generations_loop_fuel G fuel im zero :
  (length im < fuel)%nat -> generations_loop fuel G im zero <> OutOfFuel.
Proof.
  revert im zero. induction fuel as [|fuel IH]; intros im zero Hf; [lia|].
  destruct zero as [|n zero].
  - rewrite generations_loop_nil. destruct im; discriminate.
  - rewrite generations_loop_cons.
    destruct (process_generation _ _ _) as [[im' z']| |] eqn:E; cbn [bind fst snd].
    + apply process_generation_length in E. cbn [length] in E.
      destruct z' as [|c z'].
      * rewrite generations_loop_nil. destruct im'; discriminate.
      * cbn [length] in E. specialize (IH im' (c :: z')).
        destruct (generations_loop fuel G im' (c :: z')); cbn [bind];
          try discriminate. apply IH. lia.
    + discriminate.
    + exfalso. exact (process_generation_returns _ _ _ E).
Qed.

Lemma topological_sort_terminates G : topological_sort G <> OutOfFuel.
Proof.
  unfold topological_sort, topological_generations.
  pose proof (generations_loop_fuel G (S (length (initial_indegree_map G)))
                (initial_indegree_map G) (initial_zero_indegree G)) as H.
  destruct (generations_loop _ G _ _); cbn [bind]; try discriminate.
  exfalso. apply H; [lia | reflexivity].
Qed.

(* ===================================================================== *)
(** ** The topological order lists distinct nodes of the graph *)
(* ===================================================================== *)

Lemma relax_children_inv seen cs st st' :
  topo_inv seen st ->
  relax_children cs st = Ok st' ->
  topo_inv seen st' /\
  (forall x, In x (Dict.keys (fst st')) -> In x (Dict.keys (fst st))) /\
  (forall x, In x (snd st') -> In x (snd st) \/ In x (Dict.keys (fst st))).
Proof.
  revert st. induction cs as [|c cs IH]; intros [im z] Inv H; cbn [relax_children] in H.
  - injection H as <-. auto.
  - destruct (Dict.get im c) as [d|] eqn:E; [|discriminate].
    assert (Hc : In c (Dict.keys im)).
    { apply mem_iff. unfold Dict.mem. rewrite E. reflexivity. }
    destruct Inv as [ND Dis]. cbn [fst snd] in *.
    destruct ((d - 1 =? 0)%Z).
    + apply IH in H; cbn [fst snd].
      * destruct H as (I1 & I2 & I3). split; [exact I1|]. cbn [fst snd] in *. split.
        -- intros x Hx. apply I2 in Hx. apply in_keys_del in Hx. tauto.
        -- intros x Hx. apply I3 in Hx. rewrite in_app_iff in Hx. cbn [In] in Hx.
           rewrite in_keys_del in Hx.
           destruct Hx as [[Hx|[<-|[]]]|[_ Hx]]; auto.
      * split; cbn [fst snd].
        -- rewrite app_assoc. apply NoDup_app; [exact ND | repeat constructor; simpl; tauto|].
           intros a Ha [<-|[]]. exact (Dis _ Ha Hc).
        -- intros x Hx Hk. apply in_keys_del in Hk. destruct Hk as [Hne Hk].
           rewrite app_assoc, in_app_iff in Hx. cbn [In] in Hx.
           destruct Hx as [Hx|[Hx|[]]]; [exact (Dis _ Hx Hk) | congruence].
    + apply IH in H; cbn [fst snd].
      * destruct H as (I1 & I2 & I3). split; [exact I1|]. cbn [fst snd] in *. split.
        -- intros x Hx. apply I2 in Hx. apply in_keys_set in Hx.
           destruct Hx as [->|Hx]; assumption.
        -- intros x Hx. apply I3 in Hx. rewrite in_keys_set in Hx.
           destruct Hx as [Hx|[->|Hx]]; auto.
      * split; cbn [fst snd]; [exact ND|].
        intros x Hx Hk. apply in_keys_set in Hk.
        destruct Hk as [->|Hk]; [exact (Dis _ Hx Hc) | exact (Dis _ Hx Hk)].
Qed.

Lemma process_generation_inv G seen gen st st' :
  topo_inv seen st ->
  process_generation G gen st = Ok st' ->
  topo_inv seen st' /\
  (forall x, In x (Dict.keys (fst st')) -> In x (Dict.keys (fst st))) /\
  (forall x, In x (snd st') -> In x (snd st) \/ In x (Dict.keys (fst st))).
Proof.
  revert st. induction gen as [|n gen IH]; intros st Inv H; cbn [process_generation] in H.
  - injection H as <-. auto.
  - destruct (has_node G n); [|discriminate].
    apply bind_ok in H. destruct H as [st1 [H1 H2]].
    destruct (relax_children_inv _ _ _ _ Inv H1) as (J1 & J2 & J3).
    destruct (IH _ J1 H2) as (K1 & K2 & K3).
    split; [exact K1|]. split.
    + auto.
    + intros x Hx. apply K3 in Hx. destruct Hx as [Hx|Hx]; auto.
Qed.

Lemma generations_loop_nodup G fuel im zero seen gens :
  topo_inv seen (im, zero) ->
  generations_loop fuel G im zero = Ok gens ->
  NoDup (seen ++ concat gens)%list /\
  (forall x, In x (concat gens) -> In x zero \/ In x (Dict.keys im)).
Proof.
  revert im zero seen gens.
  induction fuel as [|fuel IH]; intros im zero seen gens Inv H.
  - destruct zero as [|n zero]; [|discriminate].
    cbn in H. destruct im; [|discriminate]. injection H as <-.
    destruct Inv as [ND _]. cbn [snd] in ND. cbn [concat]. split; [exact ND | tauto].
  - destruct zero as [|n zero].
    + rewrite generations_loop_nil in H. destruct im; [|discriminate]. injection H as <-.
      destruct Inv as [ND _]. cbn [snd] in ND. cbn [concat]. split; [exact ND | tauto].
    + rewrite generations_loop_cons in H.
      apply bind_ok in H. destruct H as [[im' z'] [H1 H2]]. cbn [fst snd] in H2.
      apply bind_ok in H2. destruct H2 as [later [H2 H3]]. injection H3 as <-.
      assert (Inv' : topo_inv (seen ++ n :: zero) (im, [])).
      { destruct Inv as [ND Dis]. cbn [fst snd] in *. split; cbn [fst snd];
          rewrite app_nil_r; assumption. }
      destruct (process_generation_inv _ _ _ _ _ Inv' H1) as (J1 & J2 & J3).
      cbn [fst snd] in *.
      destruct (IH _ _ _ _ J1 H2) as [K1 K2]. cbn [concat]. split.
      * rewrite app_assoc. exact K1.
      * intros x Hx. rewrite in_app_iff in Hx. destruct Hx as [Hx|Hx]; [auto|].
        apply K2 in Hx. destruct Hx as [Hx|Hx]; [|auto].
        apply J3 in Hx. cbn [In] in Hx. tauto.
Qed.

Lemma keys_in_degree G : map fst (in_degree G) = nodes G.
Proof.
  unfold in_degree. rewrite map_map. cbn [fst]. apply map_id.
Qed.

Lemma nodup_map_fst_filter {A B : Type} (P : A * B -> bool) (l : list (A * B)) :
  NoDup (map fst l) -> NoDup (map fst (filter P l)).
Proof.
  induction l as [|[a b] l IH]; cbn [map filter fst]; intros ND; [constructor|].
  inversion ND as [|? ? Hn ND']; subst.
  destruct (P (a, b)); cbn [map fst]; [|auto].
  constructor; [|auto].
  intros F. apply Hn. apply in_map_iff in F. destruct F as [[a' b'] [<- F]].
  apply filter_In in F. apply in_map_iff. exists (a', b'). tauto.
Qed.

Lemma in_in_degree G x d :
  In (x, d) (in_degree G) <-> In x (nodes G) /\ d = Z.of_nat (length (pred_of G x)).
Proof.
  unfold in_degree. rewrite in_map_iff. split.
  - intros [n [E H]]. injection E as <- <-. auto.
  - intros [H ->]. exists x. auto.
Qed.

Lemma initial_topo_inv G :
  NoDup (nodes G) ->
  topo_inv [] (initial_indegree_map G, initial_zero_indegree G).
Proof.
  intros ND. unfold topo_inv, initial_indegree_map, initial_zero_indegree.
  cbn [fst snd app]. split.
  - apply nodup_map_fst_filter. rewrite keys_in_degree. exact ND.
  - intros x Hx Hk. unfold Dict.keys in Hk.
    apply in_map_iff in Hx. destruct Hx as [[a d] [<- Hx]].
    apply in_map_iff in Hk. destruct Hk as [[a' d'] [Ea Hk]]. cbn [fst] in *. subst a'.
    apply filter_In in Hx. apply filter_In in Hk. cbn [snd] in *.
    destruct Hx as [Hx Ex]. destruct Hk as [Hk Ek].
    apply in_in_degree in Hx. apply in_in_degree in Hk.
    destruct Hx as [_ ->]. destruct Hk as [_ ->].
    apply Z.eqb_eq in Ex. apply Z.ltb_lt in Ek. lia.
Qed.

Lemma topological_sort_nodup G order :
  NoDup (nodes G) ->
  topological_sort G = Ok order ->
  NoDup order /\ forall x, In x order -> In x (nodes G).
Proof.
  intros ND H. unfold topological_sort, topological_generations in H.
  apply bind_ok in H. destruct H as [gens [H1 H2]]. injection H2 as <-.
  destruct (generations_loop_nodup _ _ _ _ _ _ (initial_topo_inv _ ND) H1) as [K1 K2].
  cbn [app] in K1. split; [exact K1|].
  intros x Hx. apply K2 in Hx. rewrite <- keys_in_degree.
  unfold initial_zero_indegree, initial_indegree_map, Dict.keys in Hx.
  destruct Hx as [Hx|Hx]; apply in_map_iff in Hx; destruct Hx as [p [<- Hx]];
    apply filter_In in Hx; apply in_map; tauto.
Qed.

(* ===================================================================== *)
(** ** The longest-path pass and the walk back along [dist] *)
(* ===================================================================== *)

Lemma candidates_in dist preds us :
  candidates dist preds = Ok us ->
  forall l u, In (l, u) us -> In u (Dict.keys dist).
Proof.
  revert us. induction preds as [|[p data] preds IH]; intros us H; cbn [candidates] in H.
  - injection H as <-. intros l u [].
  - destruct (Dict.get dist p) as [[len_p q]|] eqn:E; [|discriminate].
    apply bind_ok in H. destruct H as [us' [H1 H2]]. injection H2 as <-.
    intros l u [Hu|Hu].
    + injection Hu as _ <-. apply mem_iff. unfold Dict.mem. rewrite E. reflexivity.
    + exact (IH _ H1 _ _ Hu).
Qed.

Lemma candidates_returns dist preds : candidates dist preds <> OutOfFuel.
Proof.
  induction preds as [|[p data] preds IH]; cbn [candidates]; [discriminate|].
  destruct (Dict.get dist p) as [[len_p q]|]; [|discriminate].
  destruct (candidates dist preds); cbn [bind]; [discriminate | discriminate | exact IH].
Qed.

Lemma py_max_from_in {A : Type} (key : A -> Q) (best : A) (xs : list A) :
  py_max_from key best xs = best \/ In (py_max_from key best xs) xs.
Proof.
  revert best. induction xs as [|x xs IH]; intros best; cbn [py_max_from]; [auto|].
  destruct (Qlt_bool (key best) (key x)).
  - destruct (IH x) as [->|H]; [right; left; reflexivity | right; right; exact H].
  - destruct (IH best) as [H|H]; [left; exact H | right; right; exact H].
Qed.

Lemma py_max_in {A : Type} (key : A -> Q) (xs : list A) v :
  py_max key xs = Ok v -> In v xs.
Proof.
  destruct xs as [|x xs]; cbn [py_max]; [discriminate|].
  intros [= <-]. destruct (py_max_from_in key x xs) as [->|H]; [left|right]; auto.
Qed.

Lemma relax_node_spec G dist v dist' :
  relax_node G dist v = Ok dist' ->
  exists l u, dist' = Dict.set dist v (l, u) /\ (u = v \/ In u (Dict.keys dist)).
Proof.
  unfold relax_node. intros H. apply bind_ok in H. destruct H as [us [H1 H2]].
  injection H2 as <-.
  pose proof (candidates_in _ _ _ H1) as Hin.
  destruct us as [|x xs].
  - cbn [fst]. exists 0, v. split; [|auto].
    destruct (Qle_bool 0 0); reflexivity.
  - destruct (Qle_bool 0 (fst (py_max_from fst x xs))).
    + destruct (py_max_from fst x xs) as [l u] eqn:E. exists l, u. split; [reflexivity|].
      right. apply (Hin l). rewrite <- E.
      destruct (py_max_from_in fst x xs) as [->|H]; [left|right]; auto.
    + exists 0, v. auto.
Qed.

Lemma relax_all_returns G order dist : relax_all G dist order <> OutOfFuel.
Proof.
  revert dist. induction order as [|v order IH]; intros dist; cbn [relax_all];
    [discriminate|].
  unfold relax_node at 1.
  destruct (candidates dist (pred_of G v)) eqn:E; cbn [bind].
  - apply IH.
  - discriminate.
  - exfalso. exact (candidates_returns _ _ E).
Qed.

Lemma keys_rev {V : Type} (d : Dict.t V) x :
  In x (Dict.keys (rev d)) <-> In x (Dict.keys d).
Proof.
  unfold Dict.keys. rewrite map_rev. symmetry. apply in_rev.
Qed.

Lemma relax_all_inv G order dist dist' :
  NoDup (Dict.keys dist ++ order)%list ->
  back_ok (rev dist) ->
  relax_all G dist order = Ok dist' ->
  Dict.keys dist' = (Dict.keys dist ++ order)%list /\ back_ok (rev dist').
Proof.
  revert dist. induction order as [|v order IH]; intros dist ND B H; cbn [relax_all] in H.
  - injection H as <-. rewrite app_nil_r. auto.
  - apply bind_ok in H. destruct H as [dist1 [H1 H2]].
    apply relax_node_spec in H1. destruct H1 as (l & u & -> & Hu).
    assert (Hv : ~ In v (Dict.keys dist)).
    { apply NoDup_remove_2 in ND. intros F. apply ND. apply in_or_app. auto. }
    rewrite (set_new _ _ _ Hv) in H2.
    apply IH in H2.
    + destruct H2 as [K1 K2]. split; [|exact K2].
      rewrite K1. unfold Dict.keys. rewrite map_app. cbn [map fst].
      rewrite <- app_assoc. reflexivity.
    + unfold Dict.keys. rewrite map_app. cbn [map fst].
      rewrite <- app_assoc. exact ND.
    + rewrite rev_app_distr. cbn [rev app back_ok]. split; [|exact B].
      destruct Hu as [Hu|Hu]; [auto | right; apply keys_rev; exact Hu].
Qed.

Lemma walk_back_unfold fuel dist u v path :
  walk_back fuel dist u v path =
  if match u with Some u' => String.eqb u' v | None => false end then Ok path
  else match fuel with
       | O => OutOfFuel
       | S fuel' =>
           match Dict.get dist v with
           | None => Raise KeyError
           | Some (_, v') => walk_back fuel' dist (Some v) v' (path ++ [v])%list
           end
       end.
Proof. destruct fuel; reflexivity. Qed.

Lemma walk_back_ok dist r :
  back_ok r ->
  NoDup (Dict.keys r) ->
  (forall k x, In (k, x) r -> Dict.get dist k = Some x) ->
  forall v, In v (Dict.keys r) ->
  forall fuel u path, (length r <= fuel)%nat -> u <> Some v ->
  exists chain,
    walk_back fuel dist u v path = Ok (path ++ chain)%list /\
    NoDup chain /\ forall x, In x chain -> In x (Dict.keys r).
Proof.
  induction r as [|[k [l p]] r IH]; intros B ND Hget v Hv fuel u path Hf Hu.
  - destruct Hv.
  - cbn [back_ok] in B. destruct B as [Hp B].
    cbn [Dict.keys map fst] in ND. inversion ND as [|? ? Hk ND']; subst.
    assert (Hget' : forall k0 x, In (k0, x) r -> Dict.get dist k0 = Some x).
    { intros k0 x Hx. apply Hget. right. exact Hx. }
    cbn [length] in Hf.
    destruct (string_dec v k) as [->|Hvk].
    + destruct fuel as [|fuel]; [lia|].
      rewrite walk_back_unfold.
      replace (match u with Some u' => String.eqb u' k | None => false end) with false.
      2:{ destruct u as [u'|]; [|reflexivity]. symmetry. apply String.eqb_neq. congruence. }
      rewrite (Hget k (l, p)) by (left; reflexivity).
      destruct (string_dec p k) as [->|Hpk].
      * rewrite walk_back_unfold, String.eqb_refl. exists [k]. split; [reflexivity|].
        split; [repeat constructor; simpl; tauto|].
        intros x [<-|[]]. left; reflexivity.
      * destruct Hp as [Hp|Hp]; [congruence|].
        destruct (IH B ND' Hget' p Hp fuel (Some k) (path ++ [k])%list) as (chain & W & NDc & Sub).
        { lia. }
        { congruence. }
        exists (k :: chain). split.
        -- rewrite W, <- app_assoc. reflexivity.
        -- split.
           ++ constructor; [|exact NDc]. intros F. apply Hk. apply Sub. exact F.
           ++ intros x [<-|Hx]; [left; reflexivity | right; apply Sub; exact Hx].
    + destruct Hv as [Hv|Hv]; [cbn [fst] in Hv; congruence|].
      destruct (IH B ND' Hget' v Hv fuel u path) as (chain & W & NDc & Sub);
        [lia | exact Hu |].
      exists chain. split; [exact W|]. split; [exact NDc|].
      intros x Hx. right. apply Sub. exact Hx.
Qed.

(** The resolver of networkx returns distinct nodes of the graph, or
    raises; it never runs out of fuel. *)
Lemma dag_longest_path_cases G :
  NoDup (nodes G) ->
  (exists p, dag_longest_path G = Ok p /\ NoDup p /\
             forall x, In x p -> In x (nodes G))
  \/ (exists e, dag_longest_path G = Raise e).
Proof.
  intros ND. unfold dag_longest_path.
  destruct (nodes G) as [|n0 ns] eqn:En.
  { left. exists []. split; [reflexivity|]. split; [constructor | intros x []]. }
  rewrite <- En in *. clear En n0 ns.
  destruct (topological_sort G) as [order|e|] eqn:Et; cbn [bind].
  2:{ right. eauto. }
  2:{ exfalso. exact (topological_sort_terminates _ Et). }
  destruct (topological_sort_nodup _ _ ND Et) as [NDo Sub].
  destruct (relax_all G [] order) as [dist|e|] eqn:Er; cbn [bind].
  2:{ right. eauto. }
  2:{ exfalso. exact (relax_all_returns _ _ _ Er). }
  destruct (relax_all_inv G order [] dist NDo I Er) as [Hk Hb]. cbn [Dict.keys map app] in Hk.
  destruct (py_max _ (Dict.keys dist)) as [v|e|] eqn:Em; cbn [bind].
  2:{ right. eauto. }
  2:{ destruct (Dict.keys dist); discriminate. }
  apply py_max_in in Em.
  assert (NDd : NoDup (Dict.keys dist)) by (rewrite Hk; exact NDo).
  destruct (walk_back_ok dist (rev dist) Hb) with (v := v) (fuel := S (length dist))
    (u := @None string) (path := @nil string) as (chain & W & NDc & Sc).
  - unfold Dict.keys. rewrite map_rev. apply NoDup_rev. exact NDd.
  - intros k x Hx. apply in_nodup_get; [exact NDd|]. apply in_rev. exact Hx.
  - apply keys_rev. exact Em.
  - rewrite length_rev. lia.
  - discriminate.
  - rewrite W. cbn [bind app]. left. exists (rev chain). split; [reflexivity|].
    split; [apply NoDup_rev; exact NDc|].
    intros x Hx. apply Sub. rewrite <- Hk. apply keys_rev. apply Sc.
    apply in_rev. exact Hx.
Qed.

(* ===================================================================== *)
(** ** The graph builder keeps the graph well formed *)
(* ===================================================================== *)

Lemma get_default_set_new {V : Type} (d : Dict.t (Dict.t V)) n a :
  Dict.mem d n = false ->
  get_default (Dict.get (Dict.set d n []) a) [] = get_default (Dict.get d a) [].
Proof.
  intros H. rewrite get_set. eqb_case a n; [|reflexivity].
  unfold Dict.mem in H. destruct (Dict.get d n); [discriminate | reflexivity].
Qed.

Lemma wf_empty : wf_graph empty_graph.
Proof.
  split; cbn; try tauto; constructor.
Qed.

Lemma wf_has_node_pred G n :
  wf_graph G -> Dict.mem (g_pred G) n = has_node G n.
Proof.
  intros W. unfold has_node.
  destruct (Dict.mem (g_succ G) n) eqn:E.
  - apply mem_iff. rewrite (wf_pred_keys W). apply mem_iff. exact E.
  - apply mem_false_iff. rewrite (wf_pred_keys W). apply mem_false_iff. exact E.
Qed.

(** Adding an absent node without edges. *)
Lemma wf_new_node G n a :
  wf_graph G -> has_node G n = false ->
  wf_graph (mkDiGraph (Dict.set (g_node G) n a)
                      (Dict.set (g_succ G) n [])
                      (Dict.set (g_pred G) n [])).
Proof.
  intros W Hn.
  assert (Hp : Dict.mem (g_pred G) n = false) by (rewrite wf_has_node_pred; assumption).
  assert (Hs : forall u, succ_of (mkDiGraph (Dict.set (g_node G) n a)
                      (Dict.set (g_succ G) n []) (Dict.set (g_pred G) n [])) u
                         = succ_of G u).
  { intros u. unfold succ_of. cbn [g_succ]. apply get_default_set_new. exact Hn. }
  assert (Hq : forall u, pred_of (mkDiGraph (Dict.set (g_node G) n a)
                      (Dict.set (g_succ G) n []) (Dict.set (g_pred G) n [])) u
                         = pred_of G u).
  { intros u. unfold pred_of. cbn [g_pred]. apply get_default_set_new. exact Hp. }
  split.
  - unfold nodes. cbn [g_succ]. apply nodup_keys_set. exact (wf_nodup W).
  - cbn [g_succ g_pred].
    rewrite !keys_set_new.
    + rewrite (wf_pred_keys W). reflexivity.
    + apply mem_false_iff. exact Hn.
    + apply mem_false_iff. exact Hp.
  - intros u v. rewrite Hs, Hq. apply (wf_sym W).
  - intros u. rewrite Hs. apply (wf_succ_nodup W).
  - intros u v. rewrite Hs. intros H. apply (wf_succ_nodes W) in H.
    unfold nodes in *. cbn [g_succ]. rewrite !in_keys_set. tauto.
Qed.

Lemma wf_ensure_node G n : wf_graph G -> wf_graph (ensure_node G n).
Proof.
  intros W. unfold ensure_node. destruct (has_node G n) eqn:E; [exact W|].
  apply wf_new_node; assumption.
Qed.

Lemma wf_add_node G n d : wf_graph G -> wf_graph (add_node G n d).
Proof.
  intros W. unfold add_node. destruct (has_node G n) eqn:E.
  - destruct W as [W1 W2 W3 W4 W5]. split; assumption.
  - apply wf_new_node; assumption.
Qed.

Lemma nodes_ensure_node G n x :
  In x (nodes (ensure_node G n)) <-> x = n \/ In x (nodes G).
Proof.
  unfold ensure_node. destruct (has_node G n) eqn:E.
  - apply mem_iff in E. fold (nodes G) in E. split; [tauto | intros [->|?]; assumption].
  - unfold nodes. cbn [g_succ]. apply in_keys_set.
Qed.

Lemma succ_of_ensure_node G n a : succ_of (ensure_node G n) a = succ_of G a.
Proof.
  unfold ensure_node. destruct (has_node G n) eqn:E; [reflexivity|].
  unfold succ_of. cbn [g_succ]. apply get_default_set_new. exact E.
Qed.

Lemma nodes_add_node G n d x :
  In x (nodes (add_node G n d)) <-> x = n \/ In x (nodes G).
Proof.
  unfold add_node. destruct (has_node G n) eqn:E.
  - apply mem_iff in E. fold (nodes G) in E. unfold nodes at 1. cbn [g_succ].
    fold (nodes G). split; [tauto | intros [->|?]; assumption].
  - unfold nodes. cbn [g_succ]. apply in_keys_set.
Qed.

Lemma succ_of_add_node G n d a : succ_of (add_node G n d) a = succ_of G a.
Proof.
  unfold add_node. destruct (has_node G n) eqn:E; [reflexivity|].
  unfold succ_of. cbn [g_succ]. apply get_default_set_new. exact E.
Qed.

Lemma succ_of_add_edge G u v a :
  succ_of (add_edge G u v) a =
  if String.eqb a u
  then Dict.set (succ_of (ensure_node (ensure_node G u) v) u) v
         (get_default (Dict.get (succ_of (ensure_node (ensure_node G u) v) u) v) None)
  else succ_of (ensure_node (ensure_node G u) v) a.
Proof.
  unfold add_edge. unfold succ_of at 1. cbn [g_succ]. rewrite get_set.
  destruct (String.eqb a u); reflexivity.
Qed.

Lemma pred_of_add_edge G u v b :
  pred_of (add_edge G u v) b =
  if String.eqb b v
  then Dict.set (pred_of (ensure_node (ensure_node G u) v) v) u
         (get_default (Dict.get (succ_of (ensure_node (ensure_node G u) v) u) v) None)
  else pred_of (ensure_node (ensure_node G u) v) b.
Proof.
  unfold add_edge. unfold pred_of at 1. cbn [g_pred]. rewrite get_set.
  destruct (String.eqb b v); reflexivity.
Qed.

Lemma nodes_add_edge G u v x :
  In x (nodes (add_edge G u v)) <-> x = u \/ x = v \/ In x (nodes G).
Proof.
  unfold add_edge. unfold nodes at 1. cbn [g_succ]. rewrite in_keys_set.
  fold (nodes (ensure_node (ensure_node G u) v)).
  rewrite !nodes_ensure_node. tauto.
Qed.

Lemma wf_add_edge G u v : wf_graph G -> wf_graph (add_edge G u v).
Proof.
  intros W.
  assert (W2 : wf_graph (ensure_node (ensure_node G u) v))
    by (apply wf_ensure_node, wf_ensure_node, W).
  assert (Hu : In u (nodes (ensure_node (ensure_node G u) v)))
    by (rewrite !nodes_ensure_node; auto).
  assert (Hv : In v (nodes (ensure_node (ensure_node G u) v)))
    by (rewrite !nodes_ensure_node; auto).
  split.
  - unfold add_edge, nodes. cbn [g_succ]. apply nodup_keys_set. exact (wf_nodup W2).
  - unfold add_edge. cbn [g_succ g_pred]. rewrite !keys_set_old.
    + exact (wf_pred_keys W2).
    + exact Hu.
    + rewrite (wf_pred_keys W2). exact Hv.
  - intros a b. rewrite succ_of_add_edge, pred_of_add_edge.
    pose proof (wf_sym W2 a b) as S.
    eqb_case a u; eqb_case b v; rewrite ?in_keys_set.
    + tauto.
    + rewrite <- S. split; [intros [?|?]; [congruence|assumption] | auto].
    + rewrite S. split; [auto | intros [?|?]; [congruence|assumption]].
    + exact S.
  - intros a. rewrite succ_of_add_edge. eqb_case a u.
    + apply nodup_keys_set. apply (wf_succ_nodup W2).
    + apply (wf_succ_nodup W2).
  - intros a b. rewrite succ_of_add_edge.
    assert (N : forall x, In x (nodes (ensure_node (ensure_node G u) v)) ->
                          In x (nodes (add_edge G u v))).
    { intros x Hx. apply nodes_add_edge. rewrite !nodes_ensure_node in Hx. tauto. }
    eqb_case a u.
    + rewrite in_keys_set. intros [->|H]; [auto|].
      apply (wf_succ_nodes W2) in H. split; apply N; tauto.
    + intros H. apply (wf_succ_nodes W2) in H. split; apply N; tauto.
Qed.

Lemma has_edge_iff G u v : has_edge G u v = true <-> edge G u v.
Proof. unfold has_edge, edge. apply mem_iff. Qed.

Lemma edge_add_edge G u v a b :
  edge (add_edge G u v) a b <-> (a = u /\ b = v) \/ edge G a b.
Proof.
  unfold edge. rewrite succ_of_add_edge. eqb_case a u.
  - rewrite in_keys_set, !succ_of_ensure_node. tauto.
  - rewrite !succ_of_ensure_node. split; [auto | intros [[? _]|?]; [congruence|assumption]].
Qed.

Lemma edge_add_node G n d a b : edge (add_node G n d) a b <-> edge G a b.
Proof. unfold edge. rewrite succ_of_add_node. tauto. Qed.

Lemma add_task_nodes_spec tasks G :
  wf_graph G ->
  wf_graph (add_task_nodes G tasks) /\
  (forall a b, edge (add_task_nodes G tasks) a b <-> edge G a b) /\
  (forall x, In x (nodes (add_task_nodes G tasks)) <->
             In x (nodes G) \/ In x (map fst tasks)).
Proof.
  unfold add_task_nodes. revert G.
  induction tasks as [|[n d] tasks IH]; intros G W; cbn [fold_left map fst snd].
  - split; [exact W|]. split; [tauto|]. intros x. cbn [In]. tauto.
  - destruct (IH (add_node G n d) (wf_add_node G n d W)) as (I1 & I2 & I3).
    split; [exact I1|]. split.
    + intros a b. rewrite I2. apply edge_add_node.
    + intros x. rewrite I3, nodes_add_node. cbn [In]. split; intros H; intuition auto.
Qed.

Lemma add_dep_edges_spec deps v G :
  wf_graph G ->
  wf_graph (add_dep_edges G v deps) /\
  (forall a b, edge (add_dep_edges G v deps) a b <->
               edge G a b \/ (b = v /\ In a deps)) /\
  (forall x, In x (nodes (add_dep_edges G v deps)) ->
             In x (nodes G) \/ In x deps \/ x = v).
Proof.
  unfold add_dep_edges. revert G.
  induction deps as [|u deps IH]; intros G W; cbn [fold_left].
  - split; [exact W|]. split; [|auto]. intros a b. cbn [In]. tauto.
  - destruct (IH (add_edge G u v) (wf_add_edge G u v W)) as (I1 & I2 & I3).
    split; [exact I1|]. split.
    + intros a b. rewrite I2, edge_add_edge. cbn [In].
      split; intros H; intuition (subst; auto).
    + intros x Hx. apply I3 in Hx. rewrite nodes_add_edge in Hx. cbn [In].
      intuition auto.
Qed.

Lemma add_all_edges_spec dependencies G :
  wf_graph G ->
  wf_graph (add_all_edges G dependencies) /\
  (forall a b, edge (add_all_edges G dependencies) a b <->
               edge G a b \/ depends_on dependencies b a) /\
  (forall x, In x (nodes (add_all_edges G dependencies)) ->
             In x (nodes G) \/ In x (Dict.keys dependencies)
             \/ In x (concat (map snd dependencies))).
Proof.
  unfold add_all_edges. revert G.
  induction dependencies as [|[v deps] rest IH]; intros G W; cbn [fold_left fst snd].
  - split; [exact W|]. split; [|auto].
    intros a b. split; [auto | intros [?|[ds [[] _]]]; assumption].
  - destruct (add_dep_edges_spec deps v G W) as (J1 & J2 & J3).
    destruct (IH _ J1) as (I1 & I2 & I3).
    split; [exact I1|]. split.
    + intros a b. rewrite I2, J2. unfold depends_on. split.
      * intros [[H|[-> H]]|[ds [H1 H2]]].
        -- auto.
        -- right. exists deps. split; [left; reflexivity | exact H].
        -- right. exists ds. split; [right; exact H1 | exact H2].
      * intros [H|[ds [[H1|H1] H2]]].
        -- auto.
        -- injection H1 as -> ->. auto.
        -- right. exists ds. auto.
    + intros x Hx. apply I3 in Hx. cbn [Dict.keys map fst snd concat In].
      rewrite in_app_iff.
      destruct Hx as [Hx|[Hx|Hx]].
      * apply J3 in Hx. destruct Hx as [Hx|[Hx|Hx]]; auto.
      * auto.
      * auto.
Qed.

(** The built graph: well formed, its edges are exactly the declared
    dependencies, its nodes are ids the task list mentions. *)
Lemma build_graph_spec tasks dependencies :
  wf_graph (build_graph tasks dependencies) /\
  (forall u v, edge (build_graph tasks dependencies) u v <->
               depends_on dependencies v u) /\
  (forall x, In x (nodes (build_graph tasks dependencies)) ->
             In x (mentioned_ids tasks dependencies)) /\
  (forall x, In x (map fst tasks) -> In x (nodes (build_graph tasks dependencies))).
Proof.
  unfold build_graph.
  destruct (add_task_nodes_spec tasks empty_graph wf_empty) as (J1 & J2 & J3).
  destruct (add_all_edges_spec dependencies _ J1) as (I1 & I2 & I3).
  split; [exact I1|]. split; [|split].
  - intros u v. rewrite I2, J2. split; [intros [[]|H]; exact H | auto].
  - intros x Hx. apply I3 in Hx. unfold mentioned_ids. rewrite !in_app_iff.
    destruct Hx as [Hx|[Hx|Hx]]; auto.
    apply J3 in Hx. destruct Hx as [[]|Hx]. auto.
  - intros x Hx.
    assert (M : forall deps G y, In y (nodes G) -> In y (nodes (add_all_edges G deps))).
    { unfold add_all_edges. induction deps as [|[v ds] deps IHd]; intros G y Hy;
        cbn [fold_left fst snd]; [exact Hy|].
      apply IHd. clear IHd. revert G Hy. unfold add_dep_edges.
      induction ds as [|u ds IHs]; intros G Hy; cbn [fold_left]; [exact Hy|].
      apply IHs. apply nodes_add_edge. auto. }
    apply M. apply J3. auto.
Qed.

Lemma attr_inv_ensure_node ids G n : attr_inv ids G -> attr_inv ids (ensure_node G n).
Proof.
  intros A x Hx Hi. pose proof Hx as Hx'. rewrite nodes_ensure_node in Hx'.
  unfold ensure_node in *. destruct (has_node G n) eqn:E; [exact (A x Hx Hi)|].
  cbn [g_node]. rewrite get_set. eqb_case x n; [reflexivity|].
  destruct Hx' as [?|Hn]; [congruence | exact (A x Hn Hi)].
Qed.

Lemma attr_inv_add_edge ids G u v : attr_inv ids G -> attr_inv ids (add_edge G u v).
Proof.
  intros A x Hx Hi.
  assert (A2 : attr_inv ids (ensure_node (ensure_node G u) v))
    by (apply attr_inv_ensure_node, attr_inv_ensure_node, A).
  unfold add_edge at 1. cbn [g_node]. apply A2; [|exact Hi].
  rewrite nodes_add_edge in Hx. rewrite !nodes_ensure_node. tauto.
Qed.

(** In the built graph a node that is not a task id has no duration. *)
Lemma build_graph_attr tasks dependencies :
  attr_inv (map fst tasks) (build_graph tasks dependencies).
Proof.
  unfold build_graph.
  destruct (add_task_nodes_spec tasks empty_graph wf_empty) as (_ & _ & J3).
  assert (A : attr_inv (map fst tasks) (add_task_nodes empty_graph tasks)).
  { intros x Hx Hi. apply J3 in Hx. destruct Hx as [[]|Hx]. contradiction. }
  revert A. generalize (add_task_nodes empty_graph tasks) as G.
  unfold add_all_edges.
  induction dependencies as [|[v ds] rest IH]; intros G A; cbn [fold_left fst snd];
    [exact A|].
  apply IH. clear IH. revert G A. unfold add_dep_edges.
  induction ds as [|u ds IHs]; intros G A; cbn [fold_left]; [exact A|].
  apply IHs. apply attr_inv_add_edge. exact A.
Qed.

(* ===================================================================== *)
(** ** A cycle makes the topological sort raise *)
(* ===================================================================== *)

Lemma filter_length_mono {A : Type} (f g : A -> bool) (l : list A) :
  (forall x, In x l -> f x = true -> g x = true) ->
  (length (filter f l) <= length (filter g l))%nat.
Proof.
  induction l as [|a l IH]; intros H; cbn [filter]; [lia|].
  assert (IH' : (length (filter f l) <= length (filter g l))%nat).
  { apply IH. intros x Hx. apply H. right. exact Hx. }
  destruct (f a) eqn:Ef.
  - rewrite (H a (or_introl eq_refl) Ef). cbn [length]. lia.
  - destruct (g a); cbn [length]; lia.
Qed.

Lemma filter_length_drop {A : Type} (f g : A -> bool) (l : list A) a :
  In a l -> f a = false -> g a = true ->
  (forall x, In x l -> f x = true -> g x = true) ->
  (length (filter f l) < length (filter g l))%nat.
Proof.
  induction l as [|b l IH]; intros Ha Hf Hg H; [destruct Ha|].
  cbn [filter]. destruct Ha as [->|Ha].
  - rewrite Hf, Hg. cbn [length].
    assert ((length (filter f l) <= length (filter g l))%nat).
    { apply filter_length_mono. intros x Hx. apply H. right. exact Hx. }
    lia.
  - assert (IH' : (length (filter f l) < length (filter g l))%nat).
    { apply IH; auto. intros x Hx. apply H. right. exact Hx. }
    destruct (f b) eqn:Ef.
    + rewrite (H b (or_introl eq_refl) Ef). cbn [length]. lia.
    + destruct (g b); cbn [length]; lia.
Qed.

Lemma pending_mono G rel rel' v :
  (forall u, rel u v = true -> rel' u v = true) ->
  (pending G rel' v <= pending G rel v)%nat.
Proof.
  intros H. unfold pending. apply filter_length_mono.
  intros u _ Hu. apply negb_true_iff in Hu. apply negb_true_iff.
  destruct (rel u v) eqn:E; [|reflexivity]. rewrite (H u E) in Hu. discriminate.
Qed.

Lemma pending_drop G rel rel' n c :
  In n (Dict.keys (pred_of G c)) -> rel n c = false -> rel' n c = true ->
  (forall u, rel u c = true -> rel' u c = true) ->
  (pending G rel' c < pending G rel c)%nat.
Proof.
  intros Hn H0 H1 H. unfold pending. apply filter_length_drop with (a := n).
  - exact Hn.
  - rewrite H1. reflexivity.
  - rewrite H0. reflexivity.
  - intros u _ Hu. apply negb_true_iff in Hu. apply negb_true_iff.
    destruct (rel u c) eqn:E; [|reflexivity]. rewrite (H u E) in Hu. discriminate.
Qed.

Lemma pending_pos G rel p c :
  In p (Dict.keys (pred_of G c)) -> rel p c = false -> (0 < pending G rel c)%nat.
Proof.
  intros Hp H. unfold pending.
  assert (F : In p (filter (fun u => negb (rel u c)) (Dict.keys (pred_of G c)))).
  { apply filter_In. split; [exact Hp|]. rewrite H. reflexivity. }
  destruct (filter _ _); [destruct F | cbn [length]; lia].
Qed.

Section Cycle.
Variable G : DiGraph.
Variable X : string -> Prop.
Hypothesis W : wf_graph G.
Hypothesis HX : forall x, X x -> exists p, X p /\ In p (Dict.keys (pred_of G x)).

Lemma relax_children_cyc (started : list string) n :
  ~ X n -> In n started ->
  forall cs rel im z im' z',
    NoDup cs ->
    (forall c, In c cs -> In n (Dict.keys (pred_of G c)) /\ rel n c = false) ->
    cyc_inv G X started rel im ->
    relax_children cs (im, z) = Ok (im', z') ->
    exists rel', cyc_inv G X started rel' im' /\
                 forall u v, u <> n -> rel' u v = rel u v.
Proof.
  intros HnX HnS.
  induction cs as [|c cs IH]; intros rel im z im' z' ND Hcs Inv H;
    cbn [relax_children] in H.
  - injection H as <- <-. exists rel. auto.
  - destruct (Dict.get im c) as [d|] eqn:E; [|discriminate].
    inversion ND as [|? ? Hc ND']; subst.
    destruct (Hcs c (or_introl eq_refl)) as [Hpred Hrel].
    destruct Inv as (Ia & Ib & Ic & Id).
    set (rel1 := fun u v => rel u v || (String.eqb u n && String.eqb v c)).
    assert (Hmono : forall u v, rel u v = true -> rel1 u v = true).
    { intros u v Hr. unfold rel1. rewrite Hr. reflexivity. }
    assert (Hdrop : (pending G rel1 c < pending G rel c)%nat).
    { apply pending_drop with (n := n); auto.
      unfold rel1. rewrite !String.eqb_refl. apply orb_true_r. }
    assert (Ia1 : forall u v, rel1 u v = true -> In u started).
    { intros u v Hr. unfold rel1 in Hr. apply orb_true_iff in Hr.
      destruct Hr as [Hr|Hr]; [exact (Ia _ _ Hr)|].
      apply andb_true_iff in Hr. destruct Hr as [Hr _].
      apply String.eqb_eq in Hr. subst u. exact HnS. }
    assert (Hcs1 : forall c', In c' cs ->
                              In n (Dict.keys (pred_of G c')) /\ rel1 n c' = false).
    { intros c' Hc'. destruct (Hcs c' (or_intror Hc')) as [H1 H2].
      split; [exact H1|]. unfold rel1. rewrite H2. cbn [orb].
      apply andb_false_iff. right. apply String.eqb_neq. congruence. }
    assert (Hagree : forall rel', (forall u v, u <> n -> rel' u v = rel1 u v) ->
                                  forall u v, u <> n -> rel' u v = rel u v).
    { intros rel' Hr u v Hu. rewrite (Hr u v Hu). unfold rel1.
      apply String.eqb_neq in Hu. rewrite Hu. cbn [andb]. apply orb_false_r. }
    destruct ((d - 1 =? 0)%Z) eqn:Ez.
    + apply Z.eqb_eq in Ez.
      assert (HcX : ~ X c).
      { intros F. destruct (HX c F) as [p [Hp Hpc]].
        assert (Hr : rel1 p c = false).
        { unfold rel1. apply orb_false_iff. split.
          - destruct (rel p c) eqn:Er; [|reflexivity].
            exfalso. exact (Id _ Hp (Ia _ _ Er)).
          - apply andb_false_iff. left. apply String.eqb_neq. congruence. }
        pose proof (pending_pos G rel1 p c Hpc Hr).
        pose proof (Ib c d E). lia. }
      assert (Inv1 : cyc_inv G X started rel1 (Dict.del im c)).
      { split; [exact Ia1|]. split; [|split; [|exact Id]].
        - intros v d0 Hv. eqb_case v c.
          + rewrite get_del_same in Hv. discriminate.
          + rewrite get_del_other in Hv by exact E0.
            pose proof (Ib v d0 Hv).
            pose proof (pending_mono G rel rel1 v (fun u => Hmono u v)). lia.
        - intros x Hx. unfold Dict.mem. rewrite get_del_other.
          + exact (Ic x Hx).
          + intros ->. exact (HcX Hx). }
      destruct (IH rel1 _ _ _ _ ND' Hcs1 Inv1 H) as [rel' [Inv' Hr']].
      exists rel'. split; [exact Inv' | exact (Hagree rel' Hr')].
    + apply Z.eqb_neq in Ez.
      assert (Inv1 : cyc_inv G X started rel1 (Dict.set im c (d - 1)%Z)).
      { split; [exact Ia1|]. split; [|split; [|exact Id]].
        - intros v d0 Hv. rewrite get_set in Hv. eqb_case v c.
          + injection Hv as <-. pose proof (Ib c d E). lia.
          + pose proof (Ib v d0 Hv).
            pose proof (pending_mono G rel rel1 v (fun u => Hmono u v)). lia.
        - intros x Hx. unfold Dict.mem. rewrite get_set.
          destruct (String.eqb x c); [reflexivity | exact (Ic x Hx)]. }
      destruct (IH rel1 _ _ _ _ ND' Hcs1 Inv1 H) as [rel' [Inv' Hr']].
      exists rel'. split; [exact Inv' | exact (Hagree rel' Hr')].
Qed.

Lemma process_generation_cyc (started : list string) :
  forall gen rel im z im' z',
    NoDup gen ->
    (forall n, In n gen -> In n started /\ forall c, rel n c = false) ->
    cyc_inv G X started rel im ->
    process_generation G gen (im, z) = Ok (im', z') ->
    exists rel', cyc_inv G X started rel' im'.
Proof.
  induction gen as [|n gen IH]; intros rel im z im' z' ND Hgen Inv H;
    cbn [process_generation] in H.
  - injection H as <- <-. exists rel. exact Inv.
  - destruct (has_node G n); [|discriminate].
    apply bind_ok in H. destruct H as [[im1 z1] [H1 H2]].
    inversion ND as [|? ? Hn ND']; subst.
    destruct (Hgen n (or_introl eq_refl)) as [HnS Hrel].
    assert (HnX : ~ X n).
    { intros F. destruct Inv as (_ & _ & _ & Id). exact (Id _ F HnS). }
    assert (Hcs : forall c, In c (Dict.keys (succ_of G n)) ->
                            In n (Dict.keys (pred_of G c)) /\ rel n c = false).
    { intros c Hc. split; [|apply Hrel]. apply (wf_sym W). exact Hc. }
    destruct (relax_children_cyc started n HnX HnS _ rel im z im1 z1
                (wf_succ_nodup W n) Hcs Inv H1) as [rel1 [Inv1 Hr1]].
    apply (IH rel1 im1 z1 im' z' ND'); [|exact Inv1 | exact H2].
    intros m Hm. destruct (Hgen m (or_intror Hm)) as [HmS Hm0].
    split; [exact HmS|]. intros c. rewrite Hr1; [apply Hm0|].
    intros ->. exact (Hn Hm).
Qed.

Lemma generations_loop_cyc :
  (exists x, X x) ->
  forall fuel im zero seen rel gens,
    topo_inv seen (im, zero) ->
    cyc_inv G X seen rel im ->
    generations_loop fuel G im zero <> Ok gens.
Proof.
  intros [x0 Hx0].
  assert (Hnil : forall im seen rel gens, cyc_inv G X seen rel im ->
                   generations_loop 0 G im [] <> Ok gens).
  { intros im seen rel gens (_ & _ & Ic & _) H. cbn in H.
    destruct im; [|discriminate]. specialize (Ic x0 Hx0). discriminate. }
  induction fuel as [|fuel IH]; intros im zero seen rel gens Tinv Inv H.
  - destruct zero; [exact (Hnil _ _ _ _ Inv H) | discriminate].
  - destruct zero as [|n zero].
    + rewrite generations_loop_nil in H. apply (Hnil _ _ _ gens Inv).
      rewrite generations_loop_nil. exact H.
    + rewrite generations_loop_cons in H.
      apply bind_ok in H. destruct H as [[im' z'] [H1 H2]]. cbn [fst snd] in H2.
      apply bind_ok in H2. destruct H2 as [later [H2 _]].
      destruct Tinv as [ND Dis]. cbn [fst snd] in ND, Dis.
      destruct Inv as (Ia & Ib & Ic & Id).
      assert (Tinv' : topo_inv (seen ++ n :: zero) (im, [])).
      { split; cbn [fst snd]; rewrite app_nil_r; assumption. }
      destruct (process_generation_inv _ _ _ _ _ Tinv' H1) as (J1 & _ & _).
      assert (NDz : NoDup (n :: zero)).
      { apply NoDup_app_remove_l in ND. exact ND. }
      assert (Hz : forall m, In m (n :: zero) ->
                     In m (seen ++ n :: zero)%list /\ forall c, rel m c = false).
      { intros m Hm. split; [apply in_or_app; auto|].
        intros c. destruct (rel m c) eqn:Er; [|reflexivity].
        exfalso. apply Ia in Er. clear - ND Er Hm.
        induction seen as [|s seen IHs]; [destruct Er|].
        cbn [app] in ND. inversion ND as [|? ? Hs ND']; subst.
        destruct Er as [->|Er]; [apply Hs, in_or_app; auto | auto]. }
      assert (Inv0 : cyc_inv G X (seen ++ n :: zero) rel im).
      { split; [|split; [exact Ib | split; [exact Ic|]]].
        - intros u v Hr. apply in_or_app. left. exact (Ia _ _ Hr).
        - intros x Hx F. apply (Dis x F). apply mem_iff. exact (Ic x Hx). }
      destruct (process_generation_cyc _ _ rel im [] im' z' NDz Hz Inv0 H1)
        as [rel' Inv'].
      exact (IH _ _ _ _ _ J1 Inv' H2).
Qed.

Lemma topological_sort_cycle :
  (exists x, X x) -> forall order, topological_sort G <> Ok order.
Proof.
  intros Hx order H. unfold topological_sort, topological_generations in H.
  apply bind_ok in H. destruct H as [gens [H _]].
  revert H.
  apply generations_loop_cyc with (seen := []) (rel := fun _ _ => false).
  - exact Hx.
  - apply initial_topo_inv. exact (wf_nodup W).
  - split; [discriminate|]. split; [|split; [|tauto]].
    + intros v d Hv. apply get_some_in in Hv.
      unfold initial_indegree_map in Hv. apply filter_In in Hv.
      destruct Hv as [Hv _]. apply in_in_degree in Hv. destruct Hv as [_ ->].
      unfold pending. cbn [negb].
      assert (F : forall l : list string, filter (fun _ => true) l = l).
      { induction l as [|a l IHl]; cbn [filter]; congruence. }
      rewrite F. unfold Dict.keys. rewrite length_map. lia.
    + intros x Hxx. apply mem_iff. destruct (HX x Hxx) as [p [_ Hp]].
      unfold initial_indegree_map, Dict.keys. apply in_map_iff.
      exists (x, Z.of_nat (length (pred_of G x))). split; [reflexivity|].
      apply filter_In. split.
      * apply in_in_degree. split; [|reflexivity].
        apply (wf_sym W) in Hp. apply (wf_succ_nodes W) in Hp. tauto.
      * cbn [snd]. apply Z.ltb_lt. unfold Dict.keys in Hp.
        destruct (pred_of G x); [destruct Hp | cbn [length]; lia].
Qed.
End Cycle.

(* ===================================================================== *)
(** ** The loop over the task records *)
(* ===================================================================== *)

Lemma absent_or_num_inv o d :
  absent_or_num o = true -> get_default o (VNum d) = VNum (num_or o d).
Proof.
  destruct o as [[q|s|]|]; cbn; intros H; try discriminate; reflexivity.
Qed.

Lemma role_loop_typed rates roles acc :
  forallb well_typed_role roles = true ->
  role_loop rates (VNum acc) roles = Ok (VNum (typed_task_cost rates roles acc)).
Proof.
  revert acc. induction roles as [|r roles IH]; intros acc H; cbn [role_loop].
  - reflexivity.
  - cbn [forallb] in H. apply andb_true_iff in H. destruct H as [Hr H].
    unfold add_role_cost. unfold well_typed_role in Hr.
    rewrite (absent_or_num_inv _ 40 Hr). cbn [py_mul_int bind py_add].
    rewrite (IH _ H). reflexivity.
Qed.

Lemma role_loop_ok_typed rates roles acc v :
  role_loop rates (VNum acc) roles = Ok v -> forallb well_typed_role roles = true.
Proof.
  revert acc. induction roles as [|r roles IH]; intros acc H; cbn [role_loop] in H.
  - reflexivity.
  - apply bind_ok in H. destruct H as [c [H1 H2]].
    unfold add_role_cost in H1. cbn [forallb]. unfold well_typed_role at 1.
    destruct (rd_hours_most_likely r) as [[q|s|]|]; cbn in H1; try discriminate;
      injection H1 as <-; cbn [absent_or_num is_num andb]; exact (IH _ H2).
Qed.

Lemma pert_typed o m p :
  calculate_pert_estimate (VNum o) (VNum m) (VNum p)
  = Ok (VNum ((o + inject_Z 4 * m + p) / inject_Z 6)).
Proof. reflexivity. Qed.

Lemma pert_ok_num o m p v :
  calculate_pert_estimate o m p = Ok v ->
  is_num o = true /\ is_num m = true /\ is_num p = true.
Proof.
  unfold calculate_pert_estimate.
  destruct m as [m|sm|]; destruct o as [o|so|]; destruct p as [p|sp|]; cbn;
    intros H; try discriminate; auto.
Qed.

Lemma process_task_typed w rates st td :
  well_typed_task td = true ->
  is_num (ls_total_cost st) = true ->
  process_task w rates st td = Ok (typed_task w rates st td).
Proof.
  unfold well_typed_task. intros H Hc.
  apply andb_true_iff in H. destruct H as [H Hr].
  apply andb_true_iff in H. destruct H as [H Hp].
  apply andb_true_iff in H. destruct H as [Ho Hm].
  unfold process_task, typed_task, task_cost.
  rewrite (absent_or_num_inv _ 5 Ho), (absent_or_num_inv _ 10 Hm),
    (absent_or_num_inv _ 15 Hp).
  rewrite pert_typed. cbn [bind]. rewrite (role_loop_typed _ _ _ Hr).
  cbn [bind as_float]. destruct (ls_total_cost st) as [c|s|]; try discriminate.
  reflexivity.
Qed.

Lemma process_task_ok_typed w rates st td st' :
  is_num (ls_total_cost st) = true ->
  process_task w rates st td = Ok st' ->
  well_typed_task td = true.
Proof.
  intros Hc H. unfold process_task in H.
  apply bind_ok in H. destruct H as [e [H1 H]].
  apply bind_ok in H. destruct H as [c [H2 _]].
  apply pert_ok_num in H1. destruct H1 as (Ho & Hm & Hp).
  apply role_loop_ok_typed in H2.
  unfold well_typed_task. rewrite H2.
  destruct (td_optimistic_days td), (td_most_likely_days td), (td_pessimistic_days td);
    cbn in *; rewrite ?Ho, ?Hm, ?Hp; reflexivity.
Qed.

Lemma typed_task_num w rates st td : is_num (ls_total_cost (typed_task w rates st td)) = true.
Proof. reflexivity. Qed.

Lemma process_tasks_typed w rates tds st :
  forallb well_typed_task tds = true ->
  is_num (ls_total_cost st) = true ->
  process_tasks w rates st tds = Ok (fold_left (typed_task w rates) tds st).
Proof.
  revert st. induction tds as [|td tds IH]; intros st H Hc; cbn [process_tasks fold_left].
  - reflexivity.
  - cbn [forallb] in H. apply andb_true_iff in H. destruct H as [H1 H2].
    rewrite (process_task_typed w rates st td H1 Hc). cbn [bind].
    apply IH; [exact H2 | apply typed_task_num].
Qed.

Lemma process_tasks_ok_typed w rates tds st st' :
  is_num (ls_total_cost st) = true ->
  process_tasks w rates st tds = Ok st' ->
  forallb well_typed_task tds = true.
Proof.
  revert st. induction tds as [|td tds IH]; intros st Hc H; cbn [process_tasks] in H.
  - reflexivity.
  - apply bind_ok in H. destruct H as [st1 [H1 H2]].
    pose proof (process_task_ok_typed _ _ _ _ _ Hc H1) as Ht.
    rewrite (process_task_typed w rates st td Ht Hc) in H1. injection H1 as <-.
    cbn [forallb]. rewrite Ht. cbn [andb].
    exact (IH _ (typed_task_num _ _ _ _) H2).
Qed.


Lemma in_set_inv {V : Type} (d : Dict.t V) k x a y :
  In (a, y) (Dict.set d k x) -> (a = k /\ y = x) \/ In (a, y) d.
Proof.
  induction d as [|[b z] d IH]; cbn [Dict.set].
  - intros [H|[]]. injection H as <- <-. auto.
  - eqb_case k b.
    + intros [H|H]; [injection H as <- <-; auto | right; right; exact H].
    + intros [H|H]; [right; left; exact H|].
      destruct (IH H) as [?|?]; [auto | right; right; assumption].
Qed.

Lemma typed_task_cost_spec rates roles acc :
  typed_task_cost rates roles acc == acc + spec_task_cost rates 1000 roles.
Proof.
  unfold typed_task_cost. revert acc.
  induction roles as [|r roles IH]; intros acc; cbn [fold_left spec_task_cost].
  - ring.
  - rewrite IH. unfold spec_role_cost, spec_rate, rate_of, get_default. ring.
Qed.

(** The state after the loop on a well-typed list: one estimate per record,
    in order; the cost is the specification's sum; every entry of the
    dependency table comes from an estimate. *)
Lemma typed_fold_inv w rates tds st :
  exists ts,
    ls_tasks (fold_left (typed_task w rates) tds st) = (ls_tasks st ++ ts)%list /\
    Forall2 (fun td t => exists fresh, t = estimate_of fresh td) tds ts /\
    num_or (Some (ls_total_cost (fold_left (typed_task w rates) tds st))) 0
      == num_or (Some (ls_total_cost st)) 0 + spec_total_cost rates 1000 ts /\
    (forall v ds, In (v, ds) (ls_dependencies (fold_left (typed_task w rates) tds st)) ->
                  In (v, ds) (ls_dependencies st) \/
                  exists t, In t ts /\ te_id t = v /\ te_dependencies t = ds).
Proof.
  revert st. induction tds as [|td tds IH]; intros st; cbn [fold_left].
  - exists []. rewrite app_nil_r. split; [reflexivity|]. split; [constructor|].
    split; [cbn [spec_total_cost]; ring | auto].
  - destruct (IH (typed_task w rates st td)) as (ts & I1 & I2 & I3 & I4).
    exists (estimate_of (uuid4 w (ls_uuid_calls st)) td :: ts).
    split; [|split; [|split]].
    + rewrite I1. cbn [typed_task ls_tasks]. rewrite <- app_assoc. reflexivity.
    + constructor; [eauto | exact I2].
    + rewrite I3. cbn [typed_task ls_total_cost num_or spec_total_cost estimate_of te_roles].
      rewrite typed_task_cost_spec. ring.
    + intros v ds H. apply I4 in H. destruct H as [H|(t & Ht & Hv & Hd)].
      * cbn [typed_task ls_dependencies] in H. apply in_set_inv in H.
        destruct H as [[-> ->]|H]; [|auto].
        right. eexists. split; [left; reflexivity | auto].
      * right. exists t. split; [right; exact Ht | auto].
Qed.

(** What a successful run of the body looks like. *)
Lemma analyze_body_ok w rates project_id tds est :
  analyze_body w rates project_id tds = Ok est ->
  exists st cost,
    process_tasks w rates initial_loop_state tds = Ok st /\
    forallb well_typed_task tds = true /\
    st = fold_left (typed_task w rates) tds initial_loop_state /\
    ls_total_cost st = VNum cost /\
    calculate_critical_path (task_dicts (ls_tasks st)) (ls_dependencies st)
      = Ok (pe_critical_path est) /\
    est = mkProjectEstimate (uuid4 w (ls_uuid_calls st)) project_id (ls_tasks st) cost
            (total_duration (ls_tasks st) (pe_critical_path est))
            (pe_critical_path est) (now w)
            (now w + total_duration (ls_tasks st) (pe_critical_path est)) rates.
Proof.
  unfold analyze_body. intros H.
  apply bind_ok in H. destruct H as [st [H1 H]].
  apply bind_ok in H. destruct H as [cp [H2 H]].
  apply bind_ok in H. destruct H as [cost [H3 H]].
  injection H as <-. cbn [pe_critical_path].
  pose proof (process_tasks_ok_typed w rates tds initial_loop_state st eq_refl H1) as Ht.
  exists st, cost. split; [exact H1|]. split; [exact Ht|]. split.
  - rewrite (process_tasks_typed w rates tds initial_loop_state Ht eq_refl) in H1.
    injection H1 as <-. reflexivity.
  - split; [|split; [exact H2 | reflexivity]].
    destruct (ls_total_cost st); cbn in H3; try discriminate. injection H3 as <-.
    reflexivity.
Qed.

Lemma analyze_project_ok w rates project_id tds est :
  analyze_project w rates project_id tds = Ok est ->
  analyze_body w rates project_id tds = Ok est.
Proof.
  unfold analyze_project. destruct (analyze_body w rates project_id tds);
    intros H; try discriminate. exact H.
Qed.

(* ===================================================================== *)
(** ** The resolver *)
(* ===================================================================== *)

(** [calculate_critical_path] always returns: a list of distinct ids that
    the task list mentions. *)
Lemma calculate_critical_path_ok tasks dependencies :
  exists p, calculate_critical_path tasks dependencies = Ok p /\
            NoDup p /\
            forall x, In x p -> In x (mentioned_ids tasks dependencies).
Proof.
  destruct (build_graph_spec tasks dependencies) as (W & _ & Hn & _).
  unfold calculate_critical_path.
  destruct (dag_longest_path_cases _ (wf_nodup W)) as [(p & -> & ND & Sub)|[e ->]].
  - exists p. split; [reflexivity|]. split; [exact ND|]. intros x Hx. apply Hn, Sub, Hx.
  - exists []. split; [reflexivity|]. split; [constructor | intros x []].
Qed.

(** On a dependency table with a cycle the topological sort raises, and the
    resolver answers with the empty path. *)
Lemma calculate_critical_path_cycle tasks dependencies :
  has_cycle dependencies ->
  calculate_critical_path tasks dependencies = Ok [].
Proof.
  intros [v0 Hc].
  destruct (build_graph_spec tasks dependencies) as (W & He & _ & _).
  set (G := build_graph tasks dependencies) in *.
  set (R := fun a b => depends_on dependencies b a) in *.
  set (X := fun x => clos_trans string R v0 x /\ clos_trans string R x v0).
  assert (HX : forall x, X x -> exists p, X p /\ In p (Dict.keys (pred_of G x))).
  { intros x [H1 H2]. apply clos_trans_tn1 in H1.
    destruct H1 as [x Hs | y x Hs H1].
    - exists v0. split; [split; exact Hc|].
      apply (wf_sym W). apply He. exact Hs.
    - apply clos_tn1_trans in H1. exists y. split.
      + split; [exact H1|]. apply t_trans with x; [apply t_step; exact Hs | exact H2].
      + apply (wf_sym W). apply He. exact Hs. }
  assert (Hx0 : exists x, X x) by (exists v0; split; exact Hc).
  assert (Hnodes : nodes G <> []).
  { destruct (HX v0 (conj Hc Hc)) as [p [_ Hp]].
    apply (wf_sym W) in Hp. apply (wf_succ_nodes W) in Hp. destruct Hp as [_ Hp].
    intros F. rewrite F in Hp. destruct Hp. }
  unfold calculate_critical_path, dag_longest_path. fold G.
  destruct (nodes G) as [|n ns]; [congruence|].
  destruct (topological_sort G) as [order|e|] eqn:Et; cbn [bind].
  - exfalso. exact (topological_sort_cycle G X W HX Hx0 order Et).
  - reflexivity.
  - exfalso. exact (topological_sort_terminates _ Et).
Qed.



(* ===================================================================== *)
(** ** Duration estimator: claim C8 *)
(* ===================================================================== *)



(* ===================================================================== *)
(** ** Cost aggregator: claims C7 and C10 *)
(* ===================================================================== *)


Lemma total_cost_spec w rates project_id tds est :
  analyze_project w rates project_id tds = Ok est ->
  pe_total_cost est == spec_total_cost rates 1000 (pe_tasks est).
Proof.
  intros H. apply analyze_project_ok, analyze_body_ok in H.
  destruct H as (st & cost & _ & _ & Hst & Hc & _ & ->). cbn [pe_total_cost pe_tasks].
  destruct (typed_fold_inv w rates tds initial_loop_state) as (ts & I1 & _ & I3 & _).
  rewrite <- Hst in I1, I3. rewrite Hc in I3. cbn [num_or initial_loop_state ls_total_cost] in I3.
  rewrite I1. cbn [initial_loop_state ls_tasks app]. rewrite I3. ring.
Qed.





(* ===================================================================== *)
(** ** Graph builder and resolver: claims C1, C2, C3, C5, C6 *)
(* ===================================================================== *)

(** C1 (the code departs from the claim).  On three tasks T1 (100 days),
    T2 (1 day) and T3 (1 day, after T2) the resolver returns T2, T3, of
    total weight 2, although the root-to-leaf path T1 weighs 100: the
    ["duration"] weight is looked up on the edges, which carry none, so the
    path with the most edges wins.  On the diamond the answer depends on the
    order in which T4 lists its dependencies: 7 for [T2, T3], 4 for
    [T3, T2]. *)
Theorem C1_longest_path_counts_edges_not_days :
  (let tasks := [("T1", 100); ("T2", 1); ("T3", 1)] in
   let dependencies := [("T1", []); ("T2", []); ("T3", ["T2"])] in
   calculate_critical_path tasks dependencies = Ok ["T2"; "T3"] /\
   path_weight tasks ["T2"; "T3"] == 2 /\
   root_to_leaf_path (build_graph tasks dependencies) ["T1"] = true /\
   path_weight tasks ["T1"] == 100) /\
  (let tasks := [("T1", 1); ("T2", 5); ("T3", 2); ("T4", 1)] in
   calculate_critical_path tasks
     [("T1", []); ("T2", ["T1"]); ("T3", ["T1"]); ("T4", ["T2"; "T3"])]
     = Ok ["T1"; "T2"; "T4"] /\
   path_weight tasks ["T1"; "T2"; "T4"] == 7 /\
   calculate_critical_path tasks
     [("T1", []); ("T2", ["T1"]); ("T3", ["T1"]); ("T4", ["T3"; "T2"])]
     = Ok ["T1"; "T3"; "T4"] /\
   path_weight tasks ["T1"; "T3"; "T4"] == 4).
Proof.
  cbv zeta. repeat split; vm_compute; reflexivity.
Qed.

(** C6 (the code departs from the claim).  On the acyclic list T1 (100
    days), T2 (1 day), T3 (1 day, after T2) the estimate has
    total_duration_days = 2 while the largest expected_days is 100. *)
Theorem C6_total_duration_below_longest_task :
  let tds := [task_record "T1" [] 100 100 100;
              task_record "T2" [] 1 1 1;
              task_record "T3" ["T2"] 1 1 1] in
  exists est,
    analyze_project example_world DEFAULT_RATES "p" tds = Ok est /\
    pe_critical_path est = ["T2"; "T3"] /\
    pe_total_duration_days est == 2 /\
    max_expected_days (pe_tasks est) == 100 /\
    pe_total_duration_days est < max_expected_days (pe_tasks est).
Proof.
  cbv zeta. eexists. split; [vm_compute; reflexivity|].
  repeat split; vm_compute; reflexivity.
Qed.

(** C2, counterexample.  T2 declares a dependency on "T99", an id of no
    task: the built graph has the edge from T99 into T2. *)
Lemma C2_counterexample_dangling_edge_is_built :
  ~ In "T99" (map fst [("T1", 1); ("T2", 1)]) /\
  has_edge (build_graph [("T1", 1); ("T2", 1)] [("T1", []); ("T2", ["T99"])])
           "T99" "T2" = true.
Proof.
  split; [|vm_compute; reflexivity].
  cbn. intros [H|[H|[]]]; discriminate.
Qed.

(** C2, amended.  When a task declares a dependency id that matches no task
    of the list, the graph builder keeps the edge: the unknown id becomes a
    node of the graph, without a duration, and the graph has the edge from it
    into the declaring task; the resolver does not raise on it, it returns a
    path. *)
Theorem C2_dangling_dependency_becomes_a_node tasks dependencies v deps u :
  In (v, deps) dependencies ->
  In u deps ->
  ~ In u (map fst tasks) ->
  has_node (build_graph tasks dependencies) u = true /\
  Dict.get (g_node (build_graph tasks dependencies)) u = Some None /\
  has_edge (build_graph tasks dependencies) u v = true /\
  exists p, calculate_critical_path tasks dependencies = Ok p.
Proof.
  intros Hv Hu Hd.
  destruct (build_graph_spec tasks dependencies) as (W & He & _ & _).
  assert (E : edge (build_graph tasks dependencies) u v).
  { apply He. exists deps. auto. }
  pose proof (proj1 (wf_succ_nodes W u v E)) as Hn.
  split; [|split; [|split]].
  - apply mem_iff. exact Hn.
  - exact (build_graph_attr tasks dependencies u Hn Hd).
  - apply has_edge_iff. exact E.
  - destruct (calculate_critical_path_ok tasks dependencies) as (p & Hp & _).
    eauto.
Qed.

Lemma C2_witness_dangling_T99 :
  has_node (build_graph [("T1", 1); ("T2", 1)] [("T1", []); ("T2", ["T99"])]) "T99" = true /\
  Dict.get (g_node (build_graph [("T1", 1); ("T2", 1)] [("T1", []); ("T2", ["T99"])]))
           "T99" = Some None /\
  has_edge (build_graph [("T1", 1); ("T2", 1)] [("T1", []); ("T2", ["T99"])])
           "T99" "T2" = true /\
  exists p, calculate_critical_path [("T1", 1); ("T2", 1)]
                                    [("T1", []); ("T2", ["T99"])] = Ok p.
Proof.
  apply (C2_dangling_dependency_becomes_a_node
           [("T1", 1); ("T2", 1)] [("T1", []); ("T2", ["T99"])] "T2" ["T99"] "T99").
  - right. left. reflexivity.
  - left. reflexivity.
  - cbn. intros [H|[H|[]]]; discriminate.
Defined.

(** C3, counterexample.  The single task T2 depends on "T99": the critical
    path of the estimate is T99, T2, and T99 is the id of no task. *)
Lemma C3_counterexample_unknown_id_on_critical_path :
  exists est,
    analyze_project example_world DEFAULT_RATES "p" [task_record "T2" ["T99"] 1 1 1]
      = Ok est /\
    pe_critical_path est = ["T99"; "T2"] /\
    ~ In "T99" (map te_id (pe_tasks est)).
Proof.
  eexists. split; [vm_compute; reflexivity|]. split; [reflexivity|].
  cbn. intros [H|[]]. discriminate.
Qed.

(** C3, amended.  Every id on the critical path of a produced estimate is
    the id of a task of the list or a dependency id that a task of the list
    declares, and the critical path has no duplicate id. *)
Theorem C3_critical_path_ids_are_mentioned_once w rates project_id tds est :
  analyze_project w rates project_id tds = Ok est ->
  NoDup (pe_critical_path est) /\
  forall x, In x (pe_critical_path est) ->
            In x (map te_id (pe_tasks est)) \/
            exists t, In t (pe_tasks est) /\ In x (te_dependencies t).
Proof.
  intros H. apply analyze_project_ok, analyze_body_ok in H.
  destruct H as (st & cost & _ & _ & Hst & _ & Hcp & ->).
  cbn [pe_critical_path pe_tasks] in *.
  destruct (calculate_critical_path_ok (task_dicts (ls_tasks st)) (ls_dependencies st))
    as (p & Hp & ND & Sub).
  rewrite Hp in Hcp. injection Hcp as ->.
  split; [exact ND|]. intros x Hx. apply Sub in Hx.
  destruct (typed_fold_inv w rates tds initial_loop_state) as (ts & I1 & _ & _ & I4).
  rewrite <- Hst in I1, I4. cbn [initial_loop_state ls_tasks ls_dependencies app] in I1, I4.
  assert (D : forall v ds, In (v, ds) (ls_dependencies st) ->
                exists t, In t (ls_tasks st) /\ te_id t = v /\ te_dependencies t = ds).
  { intros v ds Hv. destruct (I4 v ds Hv) as [[]|D]. rewrite I1. exact D. }
  unfold mentioned_ids in Hx. rewrite !in_app_iff in Hx.
  destruct Hx as [Hx|[Hx|Hx]].
  - left. unfold task_dicts in Hx. rewrite map_map in Hx. exact Hx.
  - left. unfold Dict.keys in Hx. apply in_map_iff in Hx.
    destruct Hx as [[v ds] [<- Hv]]. destruct (D v ds Hv) as (t & Ht & <- & _).
    cbn [fst]. apply in_map. exact Ht.
  - right. apply in_concat in Hx. destruct Hx as [ds [Hds Hx]].
    apply in_map_iff in Hds. destruct Hds as [[v ds'] [<- Hv]].
    cbn [snd] in Hx. destruct (D v ds' Hv) as (t & Ht & _ & <-). eauto.
Qed.

Lemma C3_witness_dangling_T99 :
  exists est,
    analyze_project example_world DEFAULT_RATES "p" [task_record "T2" ["T99"] 1 1 1]
      = Ok est /\
    NoDup (pe_critical_path est) /\
    forall x, In x (pe_critical_path est) ->
              In x (map te_id (pe_tasks est)) \/
              exists t, In t (pe_tasks est) /\ In x (te_dependencies t).
Proof.
  eexists. split.
  - vm_compute. reflexivity.
  - apply (C3_critical_path_ids_are_mentioned_once example_world DEFAULT_RATES "p"
             [task_record "T2" ["T99"] 1 1 1]).
    vm_compute. reflexivity.
Defined.



(* ===================================================================== *)
(** ** Orchestrator: claims C4 and C9 *)
(* ===================================================================== *)








(* ===================================================================== *)
(** ** The topological sort: exact bookkeeping *)
(* ===================================================================== *)

Lemma filter_length_remove_one {A : Type} (f g : A -> bool) (l : list A) a :
  NoDup l -> In a l -> f a = true -> g a = false ->
  (forall x, x <> a -> g x = f x) ->
  length (filter f l) = S (length (filter g l)).
Proof.
  induction l as [|b l IH]; intros ND Ha Hf Hg H; [destruct Ha|].
  inversion ND as [|? ? Hb ND']; subst. cbn [filter]. destruct Ha as [->|Ha].
  - rewrite Hf, Hg. cbn [length]. f_equal. f_equal. apply filter_ext_in.
    intros x Hx. symmetry. apply H. intros ->. exact (Hb Hx).
  - assert (Hne : b <> a) by (intros ->; exact (Hb Ha)).
    rewrite (H b Hne). destruct (f b); cbn [length]; rewrite (IH ND' Ha Hf Hg H);
      reflexivity.
Qed.

Lemma pending_exact_drop G rel rel' n c :
  NoDup (Dict.keys (pred_of G c)) ->
  In n (Dict.keys (pred_of G c)) -> rel n c = false -> rel' n c = true ->
  (forall u, u <> n -> rel' u c = rel u c) ->
  pending G rel c = S (pending G rel' c).
Proof.
  intros ND Hn H0 H1 H. unfold pending. apply filter_length_remove_one with (a := n).
  - exact ND.
  - exact Hn.
  - rewrite H0. reflexivity.
  - rewrite H1. reflexivity.
  - intros u Hu. rewrite (H u Hu). reflexivity.
Qed.

Lemma pending_same G rel rel' v :
  (forall u, rel' u v = rel u v) -> pending G rel' v = pending G rel v.
Proof.
  intros H. unfold pending. f_equal. apply filter_ext. intros u. rewrite H. reflexivity.
Qed.

Lemma pending_zero G rel v u :
  pending G rel v = 0%nat -> In u (Dict.keys (pred_of G v)) -> rel u v = true.
Proof.
  unfold pending. intros H Hu. destruct (rel u v) eqn:E; [reflexivity|].
  assert (F : In u (filter (fun u => negb (rel u v)) (Dict.keys (pred_of G v)))).
  { apply filter_In. rewrite E. auto. }
  destruct (filter _ _); [destruct F | discriminate].
Qed.

Section Kahn.
Variable G : DiGraph.
Hypothesis W : wf_graph G.
Hypothesis PN : forall v, NoDup (Dict.keys (pred_of G v)).

Lemma relax_children_kahn (started : list string) n :
  In n started ->
  forall cs rel im z,
    NoDup cs ->
    (forall c, In c cs ->
               In n (Dict.keys (pred_of G c)) /\ rel n c = false /\ In c (nodes G)) ->
    kahn_inv G started rel im ->
    exists im' z' rel',
      relax_children cs (im, z) = Ok (im', z') /\
      kahn_inv G started rel' im' /\
      (forall u v, rel u v = true -> rel' u v = true) /\
      (forall u v, u <> n -> rel' u v = rel u v) /\
      (forall c, In c cs -> rel' n c = true) /\
      (forall x, In x z -> In x z') /\
      (forall x, In x z' -> In x z \/ (In x (nodes G) /\ preds_in G started x)) /\
      (forall v, In v (Dict.keys im) -> In v (Dict.keys im') \/ In v z').
Proof.
  intros HnS. induction cs as [|c cs IH]; intros rel im z ND Hcs Inv.
  - exists im, z, rel. cbn [relax_children].
    split; [reflexivity|]. split; [exact Inv|]. split; [auto|]. split; [auto|].
    split; [intros c []|]. split; [auto|]. split; auto.
  - inversion ND as [|? ? Hc ND']; subst.
    destruct (Hcs c (or_introl eq_refl)) as (Hpred & Hrel & Hcn).
    destruct Inv as (Ia & Ib & Ic).
    assert (Hpos : (0 < pending G rel c)%nat) by exact (pending_pos G rel n c Hpred Hrel).
    assert (Hin : In c (Dict.keys im)).
    { destruct (in_dec string_dec c (Dict.keys im)) as [H|H]; [exact H|].
      pose proof (Ic c Hcn H). lia. }
    destruct (in_get im c Hin) as [d E].
    destruct (Ib c d E) as [Ed Hd].
    set (rel1 := fun u v => rel u v || (String.eqb u n && String.eqb v c)).
    assert (Hmono : forall u v, rel u v = true -> rel1 u v = true).
    { intros u v Hr. unfold rel1. rewrite Hr. reflexivity. }
    assert (Hnc : rel1 n c = true).
    { unfold rel1. rewrite !String.eqb_refl. apply orb_true_r. }
    assert (Hoth : forall u v, (u <> n \/ v <> c) -> rel1 u v = rel u v).
    { intros u v Huv. unfold rel1.
      assert (F : String.eqb u n && String.eqb v c = false).
      { apply andb_false_iff. destruct Huv as [H|H]; [left|right];
          apply String.eqb_neq; exact H. }
      rewrite F. apply orb_false_r. }
    assert (Hdrop : pending G rel c = S (pending G rel1 c)).
    { apply pending_exact_drop with (n := n); auto. }
    assert (Hsame : forall v, v <> c -> pending G rel1 v = pending G rel v).
    { intros v Hv. apply pending_same. intros u. apply Hoth. auto. }
    assert (Ia1 : forall u v, rel1 u v = true -> In u started).
    { intros u v Hr. unfold rel1 in Hr. apply orb_true_iff in Hr.
      destruct Hr as [Hr|Hr]; [exact (Ia _ _ Hr)|].
      apply andb_true_iff in Hr. destruct Hr as [Hr _].
      apply String.eqb_eq in Hr. subst u. exact HnS. }
    assert (Hcs1 : forall c', In c' cs ->
               In n (Dict.keys (pred_of G c')) /\ rel1 n c' = false /\ In c' (nodes G)).
    { intros c' Hc'. destruct (Hcs c' (or_intror Hc')) as (H1 & H2 & H3).
      split; [exact H1|]. split; [|exact H3]. rewrite Hoth; [exact H2|].
      right. intros ->. exact (Hc Hc'). }
    cbn [relax_children]. rewrite E.
    destruct ((d - 1 =? 0)%Z) eqn:Ez.
    + apply Z.eqb_eq in Ez.
      assert (Hp0 : pending G rel1 c = 0%nat) by lia.
      assert (Inv1 : kahn_inv G started rel1 (Dict.del im c)).
      { split; [exact Ia1|]. split.
        - intros v d0 Hv. eqb_case v c.
          + rewrite get_del_same in Hv. discriminate.
          + rewrite get_del_other in Hv by exact E0.
            rewrite (Hsame v E0). exact (Ib v d0 Hv).
        - intros v Hv Hk. eqb_case v c; [exact Hp0|].
          rewrite (Hsame v E0). apply (Ic v Hv). intros F. apply Hk.
          apply in_keys_del. auto. }
      destruct (IH rel1 (Dict.del im c) (z ++ [c])%list ND' Hcs1 Inv1)
        as (im' & z' & rel' & R & Inv' & M & A & C & Z1 & Z2 & K).
      exists im', z', rel'. split; [exact R|]. split; [exact Inv'|].
      split; [auto|]. split.
      { intros u v Hu. rewrite (A u v Hu). apply Hoth. auto. }
      split.
      { intros c' [<-|Hc']; [apply M; exact Hnc | exact (C c' Hc')]. }
      split.
      { intros x Hx. apply Z1. apply in_or_app. auto. }
      split.
      { intros x Hx. apply Z2 in Hx. rewrite in_app_iff in Hx. cbn [In] in Hx.
        destruct Hx as [[Hx|[<-|[]]]|Hx]; auto.
        right. split; [exact Hcn|]. intros u Hu.
        apply (Ia1 u c). exact (pending_zero G rel1 c u Hp0 Hu). }
      { intros v Hv. eqb_case v c.
        - right. apply Z1. apply in_or_app. right. left. reflexivity.
        - apply K. apply in_keys_del. auto. }
    + apply Z.eqb_neq in Ez.
      assert (Inv1 : kahn_inv G started rel1 (Dict.set im c (d - 1)%Z)).
      { split; [exact Ia1|]. split.
        - intros v d0 Hv. rewrite get_set in Hv. eqb_case v c.
          + injection Hv as <-. split; lia.
          + rewrite (Hsame v E0). exact (Ib v d0 Hv).
        - intros v Hv Hk. rewrite in_keys_set in Hk.
          assert (v <> c) by (intros ->; apply Hk; auto).
          rewrite (Hsame v H). apply (Ic v Hv). tauto. }
      destruct (IH rel1 (Dict.set im c (d - 1)%Z) z ND' Hcs1 Inv1)
        as (im' & z' & rel' & R & Inv' & M & A & C & Z1 & Z2 & K).
      exists im', z', rel'. split; [exact R|]. split; [exact Inv'|].
      split; [auto|]. split.
      { intros u v Hu. rewrite (A u v Hu). apply Hoth. auto. }
      split.
      { intros c' [<-|Hc']; [apply M; exact Hnc | exact (C c' Hc')]. }
      split; [exact Z1|]. split; [exact Z2|].
      intros v Hv. apply K. apply in_keys_set. auto.
Qed.

Lemma process_generation_kahn (started : list string) :
  forall gen done rel im z,
    NoDup gen ->
    (forall n, In n gen ->
               In n started /\ In n (nodes G) /\ forall c, rel n c = false) ->
    (forall u, In u done -> forall v, In v (Dict.keys (succ_of G u)) -> rel u v = true) ->
    kahn_inv G started rel im ->
    exists im' z' rel',
      process_generation G gen (im, z) = Ok (im', z') /\
      kahn_inv G started rel' im' /\
      (forall u, In u (done ++ gen)%list ->
                 forall v, In v (Dict.keys (succ_of G u)) -> rel' u v = true) /\
      (forall x, In x z -> In x z') /\
      (forall x, In x z' -> In x z \/ (In x (nodes G) /\ preds_in G started x)) /\
      (forall v, In v (Dict.keys im) -> In v (Dict.keys im') \/ In v z').
Proof.
  induction gen as [|n gen IH]; intros done rel im z ND Hgen Hdone Inv.
  - exists im, z, rel. cbn [process_generation]. rewrite app_nil_r.
    split; [reflexivity|]. split; [exact Inv|]. split; [exact Hdone|].
    split; [auto|]. split; auto.
  - inversion ND as [|? ? Hn ND']; subst.
    destruct (Hgen n (or_introl eq_refl)) as (HnS & HnG & Hrel).
    assert (Hcs : forall c, In c (Dict.keys (succ_of G n)) ->
               In n (Dict.keys (pred_of G c)) /\ rel n c = false /\ In c (nodes G)).
    { intros c Hc. split; [apply (wf_sym W); exact Hc|]. split; [apply Hrel|].
      exact (proj2 (wf_succ_nodes W n c Hc)). }
    destruct (relax_children_kahn started n HnS _ rel im z (wf_succ_nodup W n) Hcs Inv)
      as (im1 & z1 & rel1 & R1 & Inv1 & M1 & A1 & C1 & Y1 & Y2 & K1).
    destruct (IH (done ++ [n])%list rel1 im1 z1 ND') as
      (im' & z' & rel' & R & Inv' & D & Z1 & Z2 & K); [| |exact Inv1|].
    { intros m Hm. destruct (Hgen m (or_intror Hm)) as (H1 & H2 & H3).
      split; [exact H1|]. split; [exact H2|]. intros c. rewrite A1; [apply H3|].
      intros ->. exact (Hn Hm). }
    { intros u Hu v Hv. apply in_app_iff in Hu. destruct Hu as [Hu|[<-|[]]].
      - apply M1. exact (Hdone u Hu v Hv).
      - exact (C1 v Hv). }
    exists im', z', rel'. cbn [process_generation].
    assert (Hh : has_node G n = true) by (apply mem_iff; exact HnG).
    rewrite Hh, R1. cbn [bind]. split; [exact R|]. split; [exact Inv'|].
    split.
    { intros u Hu. apply D. rewrite <- app_assoc. exact Hu. }
    split; [auto|]. split.
    { intros x Hx. apply Z2 in Hx. destruct Hx as [Hx|Hx]; [|auto]. apply Y2. exact Hx. }
    intros v Hv. apply K1 in Hv. destruct Hv as [Hv|Hv]; [apply K; exact Hv | auto].
Qed.

Lemma preds_in_mono l l' v :
  (forall x, In x l -> In x l') -> preds_in G l v -> preds_in G l' v.
Proof. intros H P u Hu. apply H, P, Hu. Qed.

Lemma preds_closed_app gen : forall seen later,
  (forall v, In v gen -> preds_in G seen v) ->
  preds_closed G (seen ++ gen) later ->
  preds_closed G seen (gen ++ later).
Proof.
  induction gen as [|g gen IH]; intros seen later Hg Hl; cbn [app preds_closed].
  - rewrite app_nil_r in Hl. exact Hl.
  - split; [apply Hg; left; reflexivity|].
    apply IH.
    + intros v Hv. apply preds_in_mono with (l := seen).
      * intros x Hx. apply in_or_app. auto.
      * apply Hg. right. exact Hv.
    + rewrite <- app_assoc. exact Hl.
Qed.

Lemma pending_pos_inv rel v :
  (0 < pending G rel v)%nat ->
  exists u, In u (Dict.keys (pred_of G v)) /\ rel u v = false.
Proof.
  unfold pending. intros H.
  destruct (filter (fun u => negb (rel u v)) (Dict.keys (pred_of G v))) as [|u l] eqn:E;
    [cbn in H; lia|].
  assert (F : In u (filter (fun u => negb (rel u v)) (Dict.keys (pred_of G v))))
    by (rewrite E; left; reflexivity).
  apply filter_In in F. destruct F as [F1 F2]. exists u. split; [exact F1|].
  apply negb_true_iff. exact F2.
Qed.

(** The state in which the loop stops. *)
Lemma generations_loop_end fuel im seen rel :
  kahn_inv G seen rel im ->
  (forall u, In u seen -> forall v, In v (Dict.keys (succ_of G u)) -> rel u v = true) ->
  (forall v, In v (nodes G) -> In v seen \/ In v (Dict.keys im)) ->
  (generations_loop fuel G im [] = Ok [] /\ forall v, In v (nodes G) -> In v seen)
  \/ (generations_loop fuel G im [] = Raise NetworkXUnfeasible /\
      exists X : list string,
        X <> [] /\ forall x, In x X -> exists p, In p X /\ In p (Dict.keys (pred_of G x))).
Proof.
  intros (Ia & Ib & Ic) Hdone Hcov. rewrite generations_loop_nil.
  destruct im as [|[k d] im].
  - left. split; [reflexivity|]. intros v Hv. destruct (Hcov v Hv) as [H|[]]. exact H.
  - right. split; [reflexivity|]. exists (Dict.keys ((k, d) :: im)).
    split; [discriminate|]. intros x Hx.
    destruct (in_get _ x Hx) as [dx Ex]. destruct (Ib x dx Ex) as [-> Hp].
    destruct (pending_pos_inv rel x) as [u [Hu Hr]]; [lia|].
    exists u. split; [|exact Hu].
    assert (Hux : In x (Dict.keys (succ_of G u))) by (apply (wf_sym W); exact Hu).
    destruct (Hcov u (proj1 (wf_succ_nodes W u x Hux))) as [H|H]; [|exact H].
    rewrite (Hdone u H x Hux) in Hr. discriminate.
Qed.

Lemma generations_loop_kahn :
  forall fuel im zero seen rel,
    (length im < fuel)%nat ->
    topo_inv seen (im, zero) ->
    kahn_inv G seen rel im ->
    (forall u, In u seen -> forall v, In v (Dict.keys (succ_of G u)) -> rel u v = true) ->
    (forall x, In x zero -> In x (nodes G) /\ preds_in G seen x) ->
    (forall v, In v (nodes G) -> In v (seen ++ zero)%list \/ In v (Dict.keys im)) ->
    (exists gens,
        generations_loop fuel G im zero = Ok gens /\
        preds_closed G seen (concat gens) /\
        forall v, In v (nodes G) -> In v (seen ++ concat gens)%list)
    \/ (generations_loop fuel G im zero = Raise NetworkXUnfeasible /\
        exists X : list string,
          X <> [] /\
          forall x, In x X -> exists p, In p X /\ In p (Dict.keys (pred_of G x))).
Proof.
  induction fuel as [|fuel IH]; intros im zero seen rel Hf Tinv Inv Hdone Hzero Hcov;
    [lia|].
  destruct zero as [|n zero].
  - destruct (generations_loop_end (S fuel) im seen rel Inv Hdone) as [[E H]|[E H]].
    + intros v Hv. destruct (Hcov v Hv) as [Hs|Hs]; [|auto].
      rewrite app_nil_r in Hs. auto.
    + left. exists []. split; [exact E|]. split; [exact I|].
      intros v Hv. cbn [concat]. rewrite app_nil_r. exact (H v Hv).
    + right. auto.
  - destruct Tinv as [ND Dis]. cbn [fst snd] in ND, Dis.
    destruct Inv as (Ia & Ib & Ic).
    assert (NDz : NoDup (n :: zero)) by (apply NoDup_app_remove_l in ND; exact ND).
    assert (Hz : forall m, In m (n :: zero) ->
               In m (seen ++ n :: zero)%list /\ In m (nodes G) /\ forall c, rel m c = false).
    { intros m Hm. split; [apply in_or_app; auto|]. split; [exact (proj1 (Hzero m Hm))|].
      intros c. destruct (rel m c) eqn:Er; [|reflexivity].
      exfalso. apply Ia in Er. clear - ND Er Hm.
      induction seen as [|s seen IHs]; [destruct Er|].
      cbn [app] in ND. inversion ND as [|? ? Hs ND']; subst.
      destruct Er as [->|Er]; [apply Hs, in_or_app; auto | auto]. }
    assert (Inv0 : kahn_inv G (seen ++ n :: zero) rel im).
    { split; [|split; [exact Ib | exact Ic]].
      intros u v Hr. apply in_or_app. left. exact (Ia _ _ Hr). }
    destruct (process_generation_kahn (seen ++ n :: zero) (n :: zero) seen rel im []
                NDz Hz Hdone Inv0)
      as (im' & z' & rel' & R & Inv' & D & _ & Z2 & K).
    assert (Tinv' : topo_inv (seen ++ n :: zero) (im, [])).
    { split; cbn [fst snd]; rewrite app_nil_r; assumption. }
    destruct (process_generation_inv _ _ _ _ _ Tinv' R) as (J1 & _ & _).
    pose proof (process_generation_length _ _ _ _ _ _ R) as [HL _]. cbn [length] in HL.
    rewrite generations_loop_cons, R. cbn [bind fst snd].
    assert (Hz' : forall x, In x z' -> In x (nodes G) /\ preds_in G (seen ++ n :: zero) x).
    { intros x Hx. destruct (Z2 x Hx) as [[]|H]. exact H. }
    assert (Hcov' : forall v, In v (nodes G) ->
               In v ((seen ++ n :: zero) ++ z')%list \/ In v (Dict.keys im')).
    { intros v Hv. destruct (Hcov v Hv) as [H|H].
      - left. apply in_or_app. auto.
      - destruct (K v H) as [H'|H']; [auto | left; apply in_or_app; auto]. }
    assert (Step : (exists gens,
        generations_loop fuel G im' z' = Ok gens /\
        preds_closed G (seen ++ n :: zero) (concat gens) /\
        forall v, In v (nodes G) -> In v ((seen ++ n :: zero) ++ concat gens)%list)
      \/ (generations_loop fuel G im' z' = Raise NetworkXUnfeasible /\
          exists X : list string,
            X <> [] /\
            forall x, In x X -> exists p, In p X /\ In p (Dict.keys (pred_of G x)))).
    { destruct z' as [|c z'].
      - destruct (generations_loop_end fuel im' (seen ++ n :: zero) rel' Inv' D)
          as [[E H]|[E H]].
        + intros v Hv. destruct (Hcov' v Hv) as [Hs|Hs]; [|auto].
          rewrite app_nil_r in Hs. auto.
        + left. exists []. split; [exact E|]. split; [exact I|].
          intros v Hv. cbn [concat]. rewrite app_nil_r. exact (H v Hv).
        + right. auto.
      - apply (IH im' (c :: z') (seen ++ n :: zero)%list rel'); auto.
        cbn [length] in HL. lia. }
    destruct Step as [(later & E & P & C)|[E HXs]].
    + left. exists ((n :: zero) :: later). rewrite E. cbn [bind].
      split; [reflexivity|]. cbn [concat]. split.
      * apply preds_closed_app; [|exact P].
        intros v Hv. exact (proj2 (Hzero v Hv)).
      * intros v Hv. rewrite app_assoc. exact (C v Hv).
    + right. rewrite E. cbn [bind]. auto.
Qed.

Lemma pending_none v : pending G (fun _ _ => false) v = length (pred_of G v).
Proof.
  unfold pending. cbn [negb].
  assert (F : forall l : list string, filter (fun _ => true) l = l).
  { induction l as [|a l IHl]; cbn [filter]; congruence. }
  rewrite F. unfold Dict.keys. apply length_map.
Qed.

(** The topological sort of networkx on a well-formed graph: it returns
    every node once, each after all its predecessors, or it raises
    [NetworkXUnfeasible] and some non-empty set of nodes is closed under
    taking a predecessor. *)
Lemma topological_sort_kahn :
  (exists order,
      topological_sort G = Ok order /\
      NoDup order /\
      preds_closed G [] order /\
      forall v, In v order <-> In v (nodes G))
  \/ (topological_sort G = Raise NetworkXUnfeasible /\
      exists X : list string,
        X <> [] /\
        forall x, In x X -> exists p, In p X /\ In p (Dict.keys (pred_of G x))).
Proof.
  destruct (generations_loop_kahn (S (length (initial_indegree_map G)))
              (initial_indegree_map G) (initial_zero_indegree G) []
              (fun _ _ => false)) as [(gens & E & P & C)|[E HXs]].
  - lia.
  - apply initial_topo_inv. exact (wf_nodup W).
  - split; [discriminate|]. split.
    + intros v d Hv. apply get_some_in in Hv.
      unfold initial_indegree_map in Hv. apply filter_In in Hv.
      destruct Hv as [Hv Hd]. apply in_in_degree in Hv. destruct Hv as [_ ->].
      cbn [snd] in Hd. apply Z.ltb_lt in Hd. rewrite pending_none. auto.
    + intros v Hv Hk. rewrite pending_none.
      destruct (length (pred_of G v)) eqn:El; [reflexivity|].
      exfalso. apply Hk. unfold initial_indegree_map, Dict.keys. apply in_map_iff.
      exists (v, Z.of_nat (length (pred_of G v))). split; [reflexivity|].
      apply filter_In. split; [apply in_in_degree; auto|].
      cbn [snd]. apply Z.ltb_lt. lia.
  - intros u [].
  - intros x Hx. unfold initial_zero_indegree in Hx. apply in_map_iff in Hx.
    destruct Hx as [[a d] [<- Hx]]. apply filter_In in Hx. destruct Hx as [Hx Hd].
    apply in_in_degree in Hx. destruct Hx as [Hx ->]. cbn [fst snd] in *.
    split; [exact Hx|]. apply Z.eqb_eq in Hd. intros u Hu. exfalso.
    unfold Dict.keys in Hu. destruct (pred_of G a); [destruct Hu | cbn in Hd; lia].
  - intros v Hv. cbn [app].
    destruct (length (pred_of G v)) eqn:El.
    + left. unfold initial_zero_indegree. apply in_map_iff.
      exists (v, Z.of_nat (length (pred_of G v))). split; [reflexivity|].
      apply filter_In. split; [apply in_in_degree; auto|].
      cbn [snd]. apply Z.eqb_eq. lia.
    + right. unfold initial_indegree_map, Dict.keys. apply in_map_iff.
      exists (v, Z.of_nat (length (pred_of G v))). split; [reflexivity|].
      apply filter_In. split; [apply in_in_degree; auto|].
      cbn [snd]. apply Z.ltb_lt. lia.
  - left. exists (concat gens). unfold topological_sort, topological_generations.
    rewrite E. cbn [bind]. split; [reflexivity|].
    assert (Et : topological_sort G = Ok (concat gens)).
    { unfold topological_sort, topological_generations. rewrite E. reflexivity. }
    destruct (topological_sort_nodup G _ (wf_nodup W) Et) as [ND Sub].
    split; [exact ND|]. split; [exact P|].
    intros v. split; [apply Sub | intros Hv; exact (C v Hv)].
  - right. unfold topological_sort, topological_generations. rewrite E. cbn [bind].
    auto.
Qed.
End Kahn.

(* ===================================================================== *)
(** ** The built graph is plain; a closed set of nodes holds a cycle *)
(* ===================================================================== *)

Lemma succ_of_new_node G n a x :
  has_node G n = false ->
  succ_of (mkDiGraph (Dict.set (g_node G) n a) (Dict.set (g_succ G) n [])
                     (Dict.set (g_pred G) n [])) x = succ_of G x.
Proof.
  intros H. unfold succ_of. cbn [g_succ]. apply get_default_set_new. exact H.
Qed.

Lemma pred_of_new_node G n a x :
  wf_graph G -> has_node G n = false ->
  pred_of (mkDiGraph (Dict.set (g_node G) n a) (Dict.set (g_succ G) n [])
                     (Dict.set (g_pred G) n [])) x = pred_of G x.
Proof.
  intros W H. unfold pred_of. cbn [g_pred]. apply get_default_set_new.
  rewrite wf_has_node_pred; assumption.
Qed.

Lemma plain_new_node G n a :
  plain_graph G -> has_node G n = false ->
  plain_graph (mkDiGraph (Dict.set (g_node G) n a) (Dict.set (g_succ G) n [])
                         (Dict.set (g_pred G) n [])).
Proof.
  intros [W P1 P2 P3] H. split.
  - apply wf_new_node; assumption.
  - intros v. rewrite pred_of_new_node by assumption. apply P1.
  - intros u v d. rewrite succ_of_new_node by assumption. apply P2.
  - intros v u d. rewrite pred_of_new_node by assumption. apply P3.
Qed.

Lemma plain_ensure_node G n : plain_graph G -> plain_graph (ensure_node G n).
Proof.
  intros P. unfold ensure_node. destruct (has_node G n) eqn:E; [exact P|].
  apply plain_new_node; assumption.
Qed.

Lemma plain_add_node G n d : plain_graph G -> plain_graph (add_node G n d).
Proof.
  intros P. unfold add_node. destruct (has_node G n) eqn:E.
  - destruct P as [[W1 W2 W3 W4 W5] P1 P2 P3]. split; [split|..]; assumption.
  - apply plain_new_node; assumption.
Qed.

Lemma plain_add_edge G u v : plain_graph G -> plain_graph (add_edge G u v).
Proof.
  intros P.
  assert (P2 : plain_graph (ensure_node (ensure_node G u) v))
    by (apply plain_ensure_node, plain_ensure_node, P).
  assert (Hd : get_default (Dict.get (succ_of (ensure_node (ensure_node G u) v) u) v) None
               = None).
  { destruct (Dict.get _ v) as [d|] eqn:E; [|reflexivity]. cbn [get_default].
    apply get_some_in in E. exact (pg_succ_plain P2 u v d E). }
  split.
  - apply wf_add_edge. exact (pg_wf P).
  - intros b. rewrite pred_of_add_edge. eqb_case b v.
    + apply nodup_keys_set. apply (pg_pred_nodup P2).
    + apply (pg_pred_nodup P2).
  - intros a b d. rewrite succ_of_add_edge. eqb_case a u.
    + intros H. apply in_set_inv in H. destruct H as [[_ ->]|H]; [exact Hd|].
      exact (pg_succ_plain P2 u b d H).
    + apply (pg_succ_plain P2).
  - intros b a d. rewrite pred_of_add_edge. eqb_case b v.
    + intros H. apply in_set_inv in H. destruct H as [[_ ->]|H]; [exact Hd|].
      exact (pg_pred_plain P2 v a d H).
    + apply (pg_pred_plain P2).
Qed.

Lemma plain_build_graph tasks dependencies :
  plain_graph (build_graph tasks dependencies).
Proof.
  unfold build_graph.
  assert (P0 : plain_graph empty_graph).
  { split; [exact wf_empty | intros v; constructor | intros u v d [] | intros v u d []]. }
  assert (P1 : plain_graph (add_task_nodes empty_graph tasks)).
  { unfold add_task_nodes. revert P0. generalize empty_graph as G.
    induction tasks as [|[n d] tasks IH]; intros G P; cbn [fold_left fst snd];
      [exact P|].
    apply IH. apply plain_add_node. exact P. }
  revert P1. generalize (add_task_nodes empty_graph tasks) as G.
  unfold add_all_edges.
  induction dependencies as [|[v ds] rest IH]; intros G P; cbn [fold_left fst snd];
    [exact P|].
  apply IH. clear IH. revert G P. unfold add_dep_edges.
  induction ds as [|u ds IHs]; intros G P; cbn [fold_left]; [exact P|].
  apply IHs. apply plain_add_edge. exact P.
Qed.

(** In a non-empty finite set in which every element has a predecessor,
    some element reaches itself. *)
Lemma closed_set_has_cycle :
  forall (n : nat) (R : string -> string -> Prop) (X : list string),
    (length X <= n)%nat ->
    X <> [] ->
    (forall x, In x X -> exists p, In p X /\ R p x) ->
    exists v, clos_trans string R v v.
Proof.
  induction n as [|n IH]; intros R X Hn Hne HX.
  - destruct X; [congruence | cbn in Hn; lia].
  - destruct X as [|x X0]; [congruence|].
    destruct (HX x (or_introl eq_refl)) as [q [Hq Rq]].
    destruct (string_dec q x) as [->|Hqx].
    { exists x. apply t_step. exact Rq. }
    set (X' := remove string_dec x X0).
    set (R' := fun a b => R a b \/ (R a x /\ R x b)).
    assert (Hin : forall y, In y (x :: X0) -> y <> x -> In y X').
    { intros y [Hy|Hy] Hne'; [congruence|]. apply in_in_remove; assumption. }
    assert (Hq' : In q X') by (apply Hin; assumption).
    destruct (IH R' X') as [v Hv].
    + pose proof (remove_length_le string_dec X0 x). cbn [length] in Hn.
      unfold X'. lia.
    + intros F. rewrite F in Hq'. destruct Hq'.
    + intros y Hy. apply in_remove in Hy. destruct Hy as [Hy Hyx].
      destruct (HX y (or_intror Hy)) as [p [Hp Rp]].
      destruct (string_dec p x) as [->|Hpx].
      * exists q. split; [exact Hq'|]. right. auto.
      * exists p. split; [apply Hin; assumption | left; exact Rp].
    + exists v.
      assert (T : forall a b, clos_trans string R' a b -> clos_trans string R a b).
      { intros a b Hab. induction Hab as [a b [H|[H1 H2]] | a b c _ IH1 _ IH2].
        - apply t_step. exact H.
        - apply t_trans with x; apply t_step; assumption.
        - apply t_trans with b; assumption. }
      exact (T v v Hv).
Qed.

(* ===================================================================== *)
(** ** The longest-path pass on a plain graph *)
(* ===================================================================== *)

Lemma Qlt_bool_true x y : Qlt_bool x y = true -> x < y.
Proof.
  unfold Qlt_bool. intros H. apply negb_true_iff in H.
  apply Qnot_le_lt. intros F. apply Qle_bool_iff in F. congruence.
Qed.

Lemma Qlt_bool_false x y : Qlt_bool x y = false -> y <= x.
Proof.
  unfold Qlt_bool. intros H. apply negb_false_iff in H. apply Qle_bool_iff. exact H.
Qed.

Lemma py_max_from_ge {A : Type} (key : A -> Q) (xs : list A) :
  forall best y, In y (best :: xs) -> key y <= key (py_max_from key best xs).
Proof.
  induction xs as [|x xs IH]; intros best y Hy; cbn [py_max_from].
  - destruct Hy as [<-|[]]. apply Qle_refl.
  - destruct (Qlt_bool (key best) (key x)) eqn:E.
    + apply Qlt_bool_true in E.
      destruct Hy as [<-|Hy].
      * apply Qle_trans with (key x); [apply Qlt_le_weak; exact E|].
        apply IH. left. reflexivity.
      * apply IH. exact Hy.
    + apply Qlt_bool_false in E.
      destruct Hy as [<-|[<-|Hy]].
      * apply IH. left. reflexivity.
      * apply Qle_trans with (key best); [exact E|]. apply IH. left. reflexivity.
      * apply IH. right. exact Hy.
Qed.

Lemma py_max_ge {A : Type} (key : A -> Q) (xs : list A) v :
  py_max key xs = Ok v -> forall y, In y xs -> key y <= key v.
Proof.
  destruct xs as [|x xs]; cbn [py_max]; [discriminate|].
  intros [= <-] y Hy. apply py_max_from_ge. exact Hy.
Qed.

Lemma dist_len_get dist u l p :
  Dict.get dist u = Some (l, p) -> dist_len dist u = l.
Proof. unfold dist_len. intros ->. reflexivity. Qed.

Lemma candidates_plain dist preds :
  (forall u d, In (u, d) preds -> d = None /\ In u (Dict.keys dist)) ->
  candidates dist preds
  = Ok (map (fun ud => (dist_len dist (fst ud) + 1, fst ud)) preds).
Proof.
  induction preds as [|[u d] preds IH]; intros H; cbn [candidates map fst].
  - reflexivity.
  - destruct (H u d (or_introl eq_refl)) as [-> Hu].
    destruct (in_get dist u Hu) as [[lu pu] E]. rewrite E.
    rewrite IH by (intros u' d' Hu'; apply H; right; exact Hu').
    cbn [bind]. rewrite (dist_len_get dist u lu pu E). reflexivity.
Qed.

Lemma relax_node_plain G dist v :
  plain_graph G ->
  dist_ok G dist ->
  ~ In v (Dict.keys dist) ->
  preds_in G (Dict.keys dist) v ->
  exists e, relax_node G dist v = Ok (Dict.set dist v e) /\
            dist_ok G (Dict.set dist v e).
Proof.
  intros P D Hv Hp.
  assert (Hc : forall u d, In (u, d) (pred_of G v) -> d = None /\ In u (Dict.keys dist)).
  { intros u d Hu. split; [exact (pg_pred_plain P v u d Hu)|].
    apply Hp. apply (in_map fst) in Hu. exact Hu. }
  unfold relax_node. rewrite (candidates_plain dist (pred_of G v) Hc). cbn [bind].
  match goal with
  | |- context [map ?f (pred_of G v)] =>
      remember (map f (pred_of G v)) as us eqn:Eus
  end.
  assert (Hus : forall y, In y us ->
             exists u, In u (Dict.keys (pred_of G v)) /\ y = (dist_len dist u + 1, u)).
  { intros y Hy. rewrite Eus in Hy. apply in_map_iff in Hy.
    destruct Hy as [[u d] [<- Hu]].
    exists u. split; [apply (in_map fst) in Hu; exact Hu | reflexivity]. }
  assert (Hin : forall u, In u (Dict.keys (pred_of G v)) -> In (dist_len dist u + 1, u) us).
  { intros u Hu. unfold Dict.keys in Hu. apply in_map_iff in Hu.
    destruct Hu as [[u' d] [<- Hu]]. rewrite Eus. apply in_map_iff.
    exists (u', d). auto. }
  clear Eus.
  assert (Hget : forall u, In u (Dict.keys (pred_of G v)) ->
             exists lu pu, Dict.get dist u = Some (lu, pu) /\ 0 <= lu /\ u <> v).
  { intros u Hu. destruct (in_get dist u (Hp u Hu)) as [[lu pu] E].
    exists lu, pu. split; [exact E|]. split; [exact (proj1 (D u lu pu E))|].
    intros ->. exact (Hv (Hp v Hu)). }
  assert (Hold : forall w e l p, w <> v -> Dict.get dist w = Some (l, p) ->
      0 <= l /\
      (forall u, In u (Dict.keys (pred_of G w)) ->
                 exists lu pu, Dict.get (Dict.set dist v e) u = Some (lu, pu) /\ lu + 1 <= l) /\
      ((p = w /\ l == 0) \/
       (In p (Dict.keys (pred_of G w)) /\
        exists lp pp, Dict.get (Dict.set dist v e) p = Some (lp, pp) /\ l == lp + 1))).
  { intros w e l p Hw E. destruct (D w l p E) as (D1 & D2 & D3).
    assert (K : forall u x, Dict.get dist u = Some x ->
                            Dict.get (Dict.set dist v e) u = Some x).
    { intros u x Eu. rewrite get_set_other; [exact Eu|].
      intros ->. apply Hv. apply mem_iff. unfold Dict.mem. rewrite Eu. reflexivity. }
    split; [exact D1|]. split.
    - intros u Hu. destruct (D2 u Hu) as (lu & pu & Eu & Hl).
      exists lu, pu. split; [apply K; exact Eu | exact Hl].
    - destruct D3 as [D3|(Hpw & lp & pp & Ep & Hl)]; [auto|]. right.
      split; [exact Hpw|]. exists lp, pp. split; [apply K; exact Ep | exact Hl]. }
  destruct us as [|x xs].
  - exists (0, v). cbn [fst]. split; [reflexivity|].
    intros w l p E. rewrite get_set in E. eqb_case w v.
    + injection E as <- <-. split; [apply Qle_refl|]. split.
      * intros u Hu. apply Hin in Hu. destruct Hu.
      * left. split; reflexivity.
    + exact (Hold w (0, v) l p E0 E).
  - set (m := py_max_from fst x xs).
    assert (Hm : In m (x :: xs)).
    { destruct (py_max_from_in fst x xs) as [H|H]; [left; symmetry; exact H | right; exact H]. }
    destruct (Hus m Hm) as [um [Hum Em]].
    destruct (Hget um Hum) as (lm & pm & Egm & Hlm & Hne).
    rewrite (dist_len_get dist um lm pm Egm) in Em.
    assert (Hpos : Qle_bool 0 (fst m) = true).
    { apply Qle_bool_iff. rewrite Em. cbn [fst]. lra. }
    rewrite Hpos. exists m. split; [reflexivity|].
    intros w l p E. rewrite get_set in E. eqb_case w v.
    + injection E as E. rewrite Em in E. injection E as <- <-.
      split; [lra|]. split.
      * intros u Hu. destruct (Hget u Hu) as (lu & pu & Eu & _ & Hu').
        exists lu, pu. rewrite get_set_other by exact Hu'. split; [exact Eu|].
        pose proof (py_max_from_ge fst xs x _ (Hin u Hu)) as Hge.
        fold m in Hge. rewrite Em in Hge. cbn [fst] in Hge.
        rewrite (dist_len_get dist u lu pu Eu) in Hge. exact Hge.
      * right. split; [exact Hum|]. exists lm, pm.
        rewrite get_set_other by exact Hne. split; [exact Egm | reflexivity].
    + exact (Hold w m l p E0 E).
Qed.

Lemma relax_all_plain G :
  plain_graph G ->
  forall order dist,
    NoDup (Dict.keys dist ++ order)%list ->
    preds_closed G (Dict.keys dist) order ->
    dist_ok G dist ->
    exists dist',
      relax_all G dist order = Ok dist' /\
      Dict.keys dist' = (Dict.keys dist ++ order)%list /\
      dist_ok G dist'.
Proof.
  intros P. induction order as [|v order IH]; intros dist ND PC D;
    cbn [relax_all preds_closed] in *.
  - exists dist. rewrite app_nil_r. auto.
  - destruct PC as [Hp PC].
    assert (Hv : ~ In v (Dict.keys dist)).
    { apply NoDup_remove_2 in ND. intros F. apply ND. apply in_or_app. auto. }
    destruct (relax_node_plain G dist v P D Hv Hp) as (e & R & D').
    rewrite R. cbn [bind].
    assert (Hk : Dict.keys (Dict.set dist v e) = (Dict.keys dist ++ [v])%list)
      by (apply keys_set_new; exact Hv).
    destruct (IH (Dict.set dist v e)) as (dist' & R' & K' & D'').
    + rewrite Hk, <- app_assoc. exact ND.
    + rewrite Hk. exact PC.
    + exact D'.
    + exists dist'. split; [exact R'|]. split; [|exact D''].
      rewrite K', Hk, <- app_assoc. reflexivity.
Qed.

(* ===================================================================== *)
(** ** The walk back follows predecessors down to a root *)
(* ===================================================================== *)

Lemma qlen_cons x l : qlen (x :: l) == qlen l + 1.
Proof.
  unfold qlen. cbn [length]. rewrite Nat2Z.inj_succ. unfold Z.succ.
  rewrite inject_Z_plus. reflexivity.
Qed.

Lemma qlen_nil : qlen [] == 0.
Proof. reflexivity. Qed.

Lemma qlen_le a b : qlen a <= qlen b -> (length a <= length b)%nat.
Proof.
  unfold qlen. intros H. rewrite <- Zle_Qle in H. lia.
Qed.

Lemma walk_back_chain G dist r :
  back_ok r ->
  NoDup (Dict.keys r) ->
  (forall k x, In (k, x) r -> Dict.get dist k = Some x) ->
  dist_ok G dist ->
  forall v, In v (Dict.keys r) ->
  forall fuel u path, (length r <= fuel)%nat -> u <> Some v ->
  exists chain,
    walk_back fuel dist u v path = Ok (path ++ chain)%list /\
    back_chain G v chain /\
    qlen chain == dist_len dist v + 1.
Proof.
  intros B ND Hget D. revert B ND Hget.
  induction r as [|[k [l p]] r IH]; intros B ND Hget v Hv fuel u path Hf Hu.
  - destruct Hv.
  - cbn [back_ok] in B. destruct B as [Hp B].
    cbn [Dict.keys map fst] in ND. inversion ND as [|? ? Hk ND']; subst.
    assert (Hget' : forall k0 x, In (k0, x) r -> Dict.get dist k0 = Some x).
    { intros k0 x Hx. apply Hget. right. exact Hx. }
    cbn [length] in Hf.
    destruct (string_dec v k) as [->|Hvk].
    + destruct fuel as [|fuel]; [lia|].
      rewrite walk_back_unfold.
      replace (match u with Some u' => String.eqb u' k | None => false end) with false.
      2:{ destruct u as [u'|]; [|reflexivity]. symmetry. apply String.eqb_neq. congruence. }
      pose proof (Hget k (l, p) (or_introl eq_refl)) as Ek. rewrite Ek.
      destruct (D k l p Ek) as (D1 & D2 & D3).
      rewrite (dist_len_get dist k l p Ek).
      destruct (string_dec p k) as [->|Hpk].
      * rewrite walk_back_unfold, String.eqb_refl. exists [k].
        assert (Hl : l == 0).
        { destruct D3 as [[_ H]|(_ & lp & pp & Ep & H)]; [exact H|].
          rewrite Ek in Ep. injection Ep as <- <-. lra. }
        split; [reflexivity|]. split.
        -- cbn [back_chain]. split; [reflexivity|].
           destruct (pred_of G k) as [|[u0 d0] rest] eqn:Ep; [reflexivity|].
           exfalso. destruct (D2 u0) as (lu & pu & Eu & Hlu).
           { rewrite ?Ep. left. reflexivity. }
           pose proof (proj1 (D u0 lu pu Eu)). lra.
        -- rewrite qlen_cons, qlen_nil. lra.
      * destruct Hp as [Hp|Hp]; [congruence|].
        destruct D3 as [[H _]|(Hpp & lp & pp & Ep & Hl)]; [congruence|].
        destruct (IH B ND' Hget' p Hp fuel (Some k) (path ++ [k])%list)
          as (chain & Wk & Bc & Ql).
        { lia. }
        { congruence. }
        exists (k :: chain). split.
        -- rewrite Wk, <- app_assoc. reflexivity.
        -- split.
           ++ cbn [back_chain]. split; [reflexivity|].
              destruct chain as [|y chain]; [destruct Bc|].
              pose proof Bc as Bc'. cbn [back_chain] in Bc'. destruct Bc' as [-> _].
              split; [exact Hpp | exact Bc].
           ++ rewrite qlen_cons, Ql, (dist_len_get dist p lp pp Ep). lra.
    + destruct Hv as [Hv|Hv]; [cbn [fst] in Hv; congruence|].
      exact (IH B ND' Hget' v Hv fuel u path ltac:(lia) Hu).
Qed.

Lemma is_chain_snoc G l x d :
  l <> [] -> is_chain G l = true -> has_edge G (last l d) x = true ->
  is_chain G (l ++ [x]) = true.
Proof.
  induction l as [|a l IH]; intros Hne Hc He; [congruence|].
  destruct l as [|b l].
  - cbn [app is_chain last] in *. rewrite He. reflexivity.
  - cbn [app is_chain] in *. apply andb_true_iff in Hc. destruct Hc as [H1 H2].
    rewrite H1. cbn [andb]. apply IH; [discriminate | exact H2 | exact He].
Qed.

Lemma back_chain_rev G chain :
  wf_graph G ->
  forall v d, In v (nodes G) -> back_chain G v chain ->
    is_chain G (rev chain) = true /\
    last (rev chain) d = v /\
    (forall x, In x chain -> In x (nodes G)) /\
    exists root rest, rev chain = root :: rest /\ pred_of G root = [].
Proof.
  intros W. induction chain as [|x rest IH]; intros v d Hv Bc; [destruct Bc|].
  cbn [back_chain] in Bc. destruct Bc as [-> Bc].
  destruct rest as [|y rest'].
  - cbn [rev app]. split; [reflexivity|]. split; [reflexivity|]. split.
    + intros x [<-|[]]. exact Hv.
    + exists v, []. auto.
  - destruct Bc as [Hy Bc].
    assert (Hyv : In v (Dict.keys (succ_of G y))) by (apply (wf_sym W); exact Hy).
    destruct (IH y d (proj1 (wf_succ_nodes W y v Hyv)) Bc)
      as (I1 & I2 & I3 & root & tl & Er & Hr).
    change (rev (v :: y :: rest')) with (rev (y :: rest') ++ [v])%list.
    split; [|split; [|split]].
    + apply is_chain_snoc with (d := d).
      * rewrite Er. discriminate.
      * exact I1.
      * rewrite I2. apply has_edge_iff. exact Hyv.
    + apply last_last.
    + intros x [<-|Hx]; [exact Hv | exact (I3 x Hx)].
    + exists root, (tl ++ [v])%list. rewrite Er. auto.
Qed.

Lemma last_cons_default (c : list string) : forall y x, last (y :: c) x = last c y.
Proof.
  induction c as [|z c IH]; intros y x; [reflexivity|].
  change (last (y :: z :: c) x) with (last (z :: c) x).
  rewrite (IH z x), (IH z y). reflexivity.
Qed.

Lemma last_in (c : list string) : forall x, In (last c x) (x :: c).
Proof.
  induction c as [|y c IH]; intros x; [left; reflexivity|].
  rewrite last_cons_default. right. apply IH.
Qed.

Lemma chain_gain G dist :
  wf_graph G ->
  dist_ok G dist ->
  (forall x, In x (nodes G) -> In x (Dict.keys dist)) ->
  forall c x,
    forallb (has_node G) (x :: c) = true ->
    is_chain G (x :: c) = true ->
    dist_len dist x + qlen c <= dist_len dist (last c x).
Proof.
  intros W D Hall. induction c as [|y c IH]; intros x Hn Hc.
  - cbn [last]. rewrite qlen_nil. lra.
  - cbn [forallb] in Hn. apply andb_true_iff in Hn. destruct Hn as [Hx Hn].
    cbn [is_chain] in Hc. apply andb_true_iff in Hc. destruct Hc as [He Hc].
    specialize (IH y Hn Hc).
    assert (Hy : In y (nodes G)).
    { cbn [forallb] in Hn. apply andb_true_iff in Hn. apply mem_iff. tauto. }
    destruct (in_get dist y (Hall y Hy)) as [[ly py] Ey].
    destruct (D y ly py Ey) as (_ & D2 & _).
    apply has_edge_iff in He. apply (wf_sym W) in He.
    destruct (D2 x He) as (lx & px & Ex & Hl).
    rewrite (dist_len_get dist x lx px Ex).
    rewrite (dist_len_get dist y ly py Ey) in IH.
    rewrite qlen_cons.
    rewrite last_cons_default. lra.
Qed.

(* ===================================================================== *)
(** ** What the resolver computes *)
(* ===================================================================== *)

Lemma dag_longest_path_nonempty G :
  nodes G <> [] ->
  dag_longest_path G =
  (topo_order <- topological_sort G ;;
   dist <- relax_all G [] topo_order ;;
   v <- py_max (fun x => fst (get_default (Dict.get dist x) (0, x))) (Dict.keys dist) ;;
   path <- walk_back (S (length dist)) dist None v [] ;;
   Ok (rev path)).
Proof.
  unfold dag_longest_path. destruct (nodes G); [congruence | reflexivity].
Qed.

(** A run of [dag_longest_path] on a plain, non-empty graph: either the
    walk back from a node of greatest recorded length, or
    [NetworkXUnfeasible] with a set of nodes closed under predecessors. *)
Lemma dag_longest_path_run G :
  plain_graph G ->
  nodes G <> [] ->
  (exists dist v chain,
      dist_ok G dist /\
      (forall x, In x (nodes G) -> In x (Dict.keys dist)) /\
      In v (nodes G) /\
      (forall y, In y (nodes G) -> dist_len dist y <= dist_len dist v) /\
      dag_longest_path G = Ok (rev chain) /\
      back_chain G v chain /\
      qlen chain == dist_len dist v + 1)
  \/ (dag_longest_path G = Raise NetworkXUnfeasible /\
      exists X : list string,
        X <> [] /\
        forall x, In x X -> exists p, In p X /\ In p (Dict.keys (pred_of G x))).
Proof.
  intros P Hne. rewrite (dag_longest_path_nonempty G Hne).
  destruct (topological_sort_kahn G (pg_wf P) (pg_pred_nodup P))
    as [(order & E & ND & PC & Cov)|[E HX]].
  2:{ right. rewrite E. cbn [bind]. auto. }
  left. rewrite E. cbn [bind].
  assert (D0 : dist_ok G []) by (intros v l p H; discriminate).
  destruct (relax_all_plain G P order [] ND PC D0) as (dist & R & K & D).
  cbn [Dict.keys map app] in K. fold (Dict.keys dist) in K.
  destruct (relax_all_inv G order [] dist ND I R) as [_ Hb].
  rewrite R. cbn [bind].
  destruct (py_max (fun x => fst (get_default (Dict.get dist x) (0, x))) (Dict.keys dist))
    as [v|e|] eqn:Em.
  2:{ exfalso. rewrite K in Em. destruct order as [|o order]; [|discriminate].
      destruct (nodes G) as [|n ns]; [congruence|].
      exact (proj2 (Cov n) (or_introl eq_refl)). }
  2:{ destruct (Dict.keys dist); discriminate. }
  cbn [bind].
  pose proof (py_max_in _ _ _ Em) as Hv.
  pose proof (py_max_ge _ _ _ Em) as Hmax.
  assert (NDd : NoDup (Dict.keys dist)) by (rewrite K; exact ND).
  destruct (walk_back_chain G dist (rev dist) Hb) with (v := v) (fuel := S (length dist))
    (u := @None string) (path := @nil string) as (chain & Wk & Bc & Ql).
  - unfold Dict.keys. rewrite map_rev. apply NoDup_rev. exact NDd.
  - intros k x Hx. apply in_nodup_get; [exact NDd|]. apply in_rev. exact Hx.
  - exact D.
  - apply keys_rev. exact Hv.
  - rewrite length_rev. lia.
  - discriminate.
  - rewrite Wk. cbn [bind app]. exists dist, v, chain.
    split; [exact D|]. split.
    { intros x Hx. rewrite K. apply Cov. exact Hx. }
    split.
    { apply Cov. rewrite <- K. exact Hv. }
    split.
    { intros y Hy. apply (Hmax y). rewrite K. apply Cov. exact Hy. }
    auto.
Qed.

Lemma back_chain_nonempty G v chain : back_chain G v chain -> chain <> [].
Proof. destruct chain; [intros [] | discriminate]. Qed.

Lemma critical_path_nonempty_run tasks dependencies p :
  calculate_critical_path tasks dependencies = Ok p ->
  p <> [] ->
  dag_longest_path (build_graph tasks dependencies) = Ok p /\
  nodes (build_graph tasks dependencies) <> [].
Proof.
  unfold calculate_critical_path. intros H Hp.
  destruct (dag_longest_path (build_graph tasks dependencies)) as [q|e|] eqn:E;
    try discriminate.
  - injection H as ->. split; [reflexivity|].
    intros F. unfold dag_longest_path in E. rewrite F in E. injection E as <-.
    congruence.
  - injection H as <-. congruence.
Qed.

(** X1.  A non-empty critical path is a chain of declared dependencies that
    starts at a node without predecessor and ends at a node without
    successor, and no chain of the graph has more nodes: the resolver
    returns a longest chain counted in tasks, not in days. *)
Theorem critical_path_is_a_longest_chain tasks dependencies p :
  calculate_critical_path tasks dependencies = Ok p ->
  p <> [] ->
  root_to_leaf_path (build_graph tasks dependencies) p = true /\
  forall c,
    forallb (has_node (build_graph tasks dependencies)) c = true ->
    is_chain (build_graph tasks dependencies) c = true ->
    (length c <= length p)%nat.
Proof.
  intros H Hp. destruct (critical_path_nonempty_run _ _ _ H Hp) as [E Hne].
  pose proof (plain_build_graph tasks dependencies) as P.
  set (G := build_graph tasks dependencies) in *.
  pose proof (pg_wf P) as W.
  destruct (dag_longest_path_run G P Hne)
    as [(dist & v & chain & D & Cov & Hv & Hmax & E' & Bc & Ql)|[E' _]];
    [|rewrite E' in E; discriminate].
  rewrite E' in E. injection E as <-.
  destruct (back_chain_rev G chain W v v Hv Bc) as (I1 & I2 & I3 & root & rest & Er & Hr).
  assert (Hleaf : succ_of G v = []).
  { destruct (succ_of G v) as [|[s d] tl] eqn:Es; [reflexivity|]. exfalso.
    assert (Hs : In s (Dict.keys (succ_of G v))) by (rewrite Es; left; reflexivity).
    pose proof (proj2 (wf_succ_nodes W v s Hs)) as Hsn.
    destruct (in_get dist s (Cov s Hsn)) as [[ls ps] Egs].
    destruct (D s ls ps Egs) as (_ & D2 & _).
    destruct (D2 v (proj1 (wf_sym W v s) Hs)) as (lv & pv & Egv & Hl).
    pose proof (Hmax s Hsn) as Hm.
    rewrite (dist_len_get dist s ls ps Egs), (dist_len_get dist v lv pv Egv) in Hm.
    lra. }
  split.
  - assert (F : forallb (has_node G) (rev chain) = true).
    { apply forallb_forall. intros x Hx. apply mem_iff. apply I3. apply in_rev. exact Hx. }
    rewrite Er in I1, I2, F. rewrite last_cons_default in I2.
    unfold root_to_leaf_path. rewrite Er, F, I1, Hr, last_cons_default, I2, Hleaf.
    reflexivity.
  - intros c Hn Hc. destruct c as [|x c]; [cbn; lia|].
    pose proof (chain_gain G dist W D Cov c x Hn Hc) as Hg.
    assert (Hx : In x (nodes G)).
    { cbn [forallb] in Hn. apply andb_true_iff in Hn. apply mem_iff. tauto. }
    assert (Hlast : In (last c x) (nodes G)).
    { apply mem_iff. exact (proj1 (forallb_forall _ _) Hn _ (last_in c x)). }
    destruct (in_get dist x (Cov x Hx)) as [[lx px] Egx].
    pose proof (proj1 (D x lx px Egx)) as Hx0.
    rewrite (dist_len_get dist x lx px Egx) in Hg.
    pose proof (Hmax _ Hlast) as Hm.
    apply qlen_le. rewrite qlen_cons.
    unfold qlen at 2. rewrite length_rev. fold (qlen chain). lra.
Qed.

Lemma critical_path_is_a_longest_chain_witness :
  root_to_leaf_path
    (build_graph [("A", 9); ("B", 1); ("C", 1)] [("A", []); ("B", []); ("C", ["B"])])
    ["B"; "C"] = true /\
  forall c,
    forallb (has_node (build_graph [("A", 9); ("B", 1); ("C", 1)]
                                   [("A", []); ("B", []); ("C", ["B"])])) c = true ->
    is_chain (build_graph [("A", 9); ("B", 1); ("C", 1)]
                          [("A", []); ("B", []); ("C", ["B"])]) c = true ->
    (length c <= length ["B"; "C"])%nat.
Proof.
  apply (critical_path_is_a_longest_chain
           [("A", 9); ("B", 1); ("C", 1)] [("A", []); ("B", []); ("C", ["B"])]
           ["B"; "C"]).
  - vm_compute. reflexivity.
  - discriminate.
Defined.

(** X2.  For a non-empty task list the resolver returns the empty path
    exactly when the declared dependencies have a cycle. *)
Theorem critical_path_empty_iff_cycle tasks dependencies :
  tasks <> [] ->
  (calculate_critical_path tasks dependencies = Ok [] <-> has_cycle dependencies).
Proof.
  intros Ht. split; [|apply calculate_critical_path_cycle].
  intros H.
  pose proof (plain_build_graph tasks dependencies) as P.
  destruct (build_graph_spec tasks dependencies) as (W & He & _ & Hn).
  assert (Hne : nodes (build_graph tasks dependencies) <> []).
  { destruct tasks as [|[t d] tasks]; [congruence|].
    intros F. specialize (Hn t (or_introl eq_refl)). rewrite F in Hn. destruct Hn. }
  destruct (dag_longest_path_run _ P Hne)
    as [(dist & v & chain & _ & _ & _ & _ & E & Bc & _)|[_ (X & HX1 & HX2)]].
  - exfalso. unfold calculate_critical_path in H. rewrite E in H. injection H as H.
    apply back_chain_nonempty in Bc. apply Bc.
    destruct chain as [|a chain]; [reflexivity|].
    cbn [rev] in H. destruct (rev chain); discriminate.
  - apply (closed_set_has_cycle (length X) (fun a b => depends_on dependencies b a) X);
      [lia | exact HX1 |].
    intros x Hx. destruct (HX2 x Hx) as [p [Hp Hpx]]. exists p. split; [exact Hp|].
    apply He. apply (wf_sym W). exact Hpx.
Qed.

Lemma critical_path_empty_iff_cycle_witness :
  calculate_critical_path [("A", 1); ("B", 2)] [("A", []); ("B", ["A"])] = Ok []
  <-> has_cycle [("A", []); ("B", ["A"])].
Proof.
  apply (critical_path_empty_iff_cycle [("A", 1); ("B", 2)] [("A", []); ("B", ["A"])]).
  discriminate.
Defined.

(* ===================================================================== *)
(** ** What the graph builder builds *)
(* ===================================================================== *)

Lemma build_graph_nodes_touch tasks dependencies x :
  In x (nodes (build_graph tasks dependencies)) ->
  In x (map fst tasks) \/
  exists y, edge (build_graph tasks dependencies) x y \/
            edge (build_graph tasks dependencies) y x.
Proof.
  unfold build_graph.
  destruct (add_task_nodes_spec tasks empty_graph wf_empty) as (_ & _ & J3).
  assert (A : forall z, In z (nodes (add_task_nodes empty_graph tasks)) ->
                In z (map fst tasks) \/
                exists y, edge (add_task_nodes empty_graph tasks) z y \/
                          edge (add_task_nodes empty_graph tasks) y z).
  { intros z Hz. apply J3 in Hz. destruct Hz as [[]|Hz]. auto. }
  revert A x. generalize (add_task_nodes empty_graph tasks) as G.
  assert (S1 : forall G u v,
             (forall z, In z (nodes G) ->
                In z (map fst tasks) \/ exists y, edge G z y \/ edge G y z) ->
             forall z, In z (nodes (add_edge G u v)) ->
                In z (map fst tasks) \/
                exists y, edge (add_edge G u v) z y \/ edge (add_edge G u v) y z).
  { intros G u v A z Hz. apply nodes_add_edge in Hz.
    destruct Hz as [->|[->|Hz]].
    - right. exists v. left. apply edge_add_edge. auto.
    - right. exists u. right. apply edge_add_edge. auto.
    - destruct (A z Hz) as [H|[y [H|H]]]; [auto| |];
        right; exists y; [left|right]; apply edge_add_edge; auto. }
  unfold add_all_edges.
  induction dependencies as [|[v ds] rest IH]; intros G A; cbn [fold_left fst snd];
    [exact A|].
  apply IH. clear IH. revert G A. unfold add_dep_edges.
  induction ds as [|u ds IHs]; intros G A; cbn [fold_left]; [exact A|].
  apply IHs. apply S1. exact A.
Qed.

(** X3.  The graph handed to the resolver has an edge from [u] to [v]
    exactly when the dependency table lists [u] among the dependencies of
    [v], and its nodes are exactly the task ids and the ids that occur in a
    declared dependency, on either side. *)
Theorem build_graph_is_the_dependency_table tasks dependencies :
  (forall u v, has_edge (build_graph tasks dependencies) u v = true
               <-> depends_on dependencies v u) /\
  (forall x, has_node (build_graph tasks dependencies) x = true
             <-> In x (map fst tasks) \/
                 exists y, depends_on dependencies x y \/ depends_on dependencies y x).
Proof.
  destruct (build_graph_spec tasks dependencies) as (W & He & _ & Hn).
  split.
  - intros u v. rewrite has_edge_iff. apply He.
  - intros x. unfold has_node. rewrite mem_iff. fold (nodes (build_graph tasks dependencies)).
    split.
    + intros Hx. destruct (build_graph_nodes_touch tasks dependencies x Hx)
        as [H|[y [H|H]]]; [auto| |]; right; exists y; [right|left]; apply He; exact H.
    + intros [H|[y [H|H]]]; [exact (Hn x H)| |]; apply He in H;
        apply (wf_succ_nodes W) in H; tauto.
Qed.

(* ===================================================================== *)
(** ** The resolver never reads a duration *)
(* ===================================================================== *)

Lemma process_generation_shape n n' s p gen st :
  process_generation (mkDiGraph n s p) gen st
  = process_generation (mkDiGraph n' s p) gen st.
Proof.
  revert st. induction gen as [|x gen IH]; intros st; cbn [process_generation];
    [reflexivity|].
  change (has_node (mkDiGraph n s p) x) with (has_node (mkDiGraph n' s p) x).
  destruct (has_node (mkDiGraph n' s p) x); [|reflexivity].
  change (succ_of (mkDiGraph n s p) x) with (succ_of (mkDiGraph n' s p) x).
  destruct (relax_children _ st); cbn [bind]; auto.
Qed.

Lemma generations_loop_shape n n' s p fuel :
  forall im zero,
    generations_loop fuel (mkDiGraph n s p) im zero
    = generations_loop fuel (mkDiGraph n' s p) im zero.
Proof.
  induction fuel as [|fuel IH]; intros im zero.
  - destruct zero; reflexivity.
  - destruct zero as [|z zero]; [reflexivity|].
    rewrite !generations_loop_cons, (process_generation_shape n n').
    destruct (process_generation _ _ _) as [[im' z']| |]; cbn [bind fst snd];
      [|reflexivity|reflexivity].
    rewrite IH. reflexivity.
Qed.

Lemma relax_all_shape n n' s p order :
  forall dist,
    relax_all (mkDiGraph n s p) dist order = relax_all (mkDiGraph n' s p) dist order.
Proof.
  induction order as [|v order IH]; intros dist; cbn [relax_all]; [reflexivity|].
  change (relax_node (mkDiGraph n s p) dist v) with (relax_node (mkDiGraph n' s p) dist v).
  destruct (relax_node _ dist v); cbn [bind]; auto.
Qed.

Lemma dag_longest_path_shape G G' :
  g_succ G = g_succ G' -> g_pred G = g_pred G' ->
  dag_longest_path G = dag_longest_path G'.
Proof.
  destruct G as [n s p], G' as [n' s' p']. cbn [g_succ g_pred]. intros <- <-.
  unfold dag_longest_path.
  change (nodes (mkDiGraph n s p)) with (nodes (mkDiGraph n' s p)).
  destruct (nodes (mkDiGraph n' s p)); [reflexivity|].
  unfold topological_sort, topological_generations.
  change (initial_indegree_map (mkDiGraph n s p))
    with (initial_indegree_map (mkDiGraph n' s p)).
  change (initial_zero_indegree (mkDiGraph n s p))
    with (initial_zero_indegree (mkDiGraph n' s p)).
  rewrite (generations_loop_shape n n').
  destruct (generations_loop _ _ _ _); cbn [bind]; [|reflexivity|reflexivity].
  rewrite (relax_all_shape n n'). reflexivity.
Qed.

Lemma add_node_shape G G' x d d' :
  g_succ G = g_succ G' -> g_pred G = g_pred G' ->
  g_succ (add_node G x d) = g_succ (add_node G' x d') /\
  g_pred (add_node G x d) = g_pred (add_node G' x d').
Proof.
  intros Hs Hp. unfold add_node, has_node. rewrite Hs.
  destruct (Dict.mem (g_succ G') x); cbn [g_succ g_pred]; rewrite ?Hs, ?Hp; auto.
Qed.

Lemma add_edge_shape G G' u v :
  g_succ G = g_succ G' -> g_pred G = g_pred G' ->
  g_succ (add_edge G u v) = g_succ (add_edge G' u v) /\
  g_pred (add_edge G u v) = g_pred (add_edge G' u v).
Proof.
  intros Hs Hp.
  assert (E : forall H H' x, g_succ H = g_succ H' -> g_pred H = g_pred H' ->
                g_succ (ensure_node H x) = g_succ (ensure_node H' x) /\
                g_pred (ensure_node H x) = g_pred (ensure_node H' x)).
  { intros H H' x Es Ep. unfold ensure_node, has_node. rewrite Es.
    destruct (Dict.mem (g_succ H') x); cbn [g_succ g_pred]; rewrite ?Es, ?Ep; auto. }
  destruct (E G G' u Hs Hp) as [Es1 Ep1].
  destruct (E _ _ v Es1 Ep1) as [Es2 Ep2].
  unfold add_edge, succ_of, pred_of. cbn [g_succ g_pred]. rewrite Es2, Ep2. auto.
Qed.

Lemma build_graph_shape tasks tasks' dependencies :
  map fst tasks = map fst tasks' ->
  g_succ (build_graph tasks dependencies) = g_succ (build_graph tasks' dependencies) /\
  g_pred (build_graph tasks dependencies) = g_pred (build_graph tasks' dependencies).
Proof.
  intros Hids. unfold build_graph.
  assert (A : g_succ (add_task_nodes empty_graph tasks)
              = g_succ (add_task_nodes empty_graph tasks') /\
              g_pred (add_task_nodes empty_graph tasks)
              = g_pred (add_task_nodes empty_graph tasks')).
  { unfold add_task_nodes.
    assert (B : forall G G', g_succ G = g_succ G' -> g_pred G = g_pred G' ->
                g_succ (fold_left (fun g t => add_node g (fst t) (snd t)) tasks G)
                = g_succ (fold_left (fun g t => add_node g (fst t) (snd t)) tasks' G') /\
                g_pred (fold_left (fun g t => add_node g (fst t) (snd t)) tasks G)
                = g_pred (fold_left (fun g t => add_node g (fst t) (snd t)) tasks' G')).
    { revert tasks' Hids. induction tasks as [|[x d] tasks IH];
        intros [|[x' d'] tasks'] Hids G G' Hs Hp; try discriminate;
        cbn [fold_left fst snd]; [auto|].
      cbn [map fst] in Hids. injection Hids as <- Hids.
      destruct (add_node_shape G G' x d d' Hs Hp) as [Hs' Hp'].
      exact (IH tasks' Hids _ _ Hs' Hp'). }
    apply B; reflexivity. }
  destruct A as [As Ap]. revert As Ap.
  generalize (add_task_nodes empty_graph tasks) as G.
  generalize (add_task_nodes empty_graph tasks') as G'.
  unfold add_all_edges.
  induction dependencies as [|[v ds] rest IH]; intros G' G Hs Hp;
    cbn [fold_left fst snd]; [auto|].
  apply IH; clear IH; revert G' G Hs Hp; unfold add_dep_edges;
    (induction ds as [|u ds IHs]; intros G' G Hs Hp; cbn [fold_left]; [assumption|];
     destruct (add_edge_shape G G' u v Hs Hp) as [Hs' Hp']; apply IHs; assumption).
Qed.

(** X4.  The critical path depends on the ids of the tasks and on the
    dependency table only: two task lists with the same ids in the same
    order get the same critical path, whatever their expected_days. *)
Theorem critical_path_ignores_expected_days tasks tasks' dependencies :
  map fst tasks = map fst tasks' ->
  calculate_critical_path tasks dependencies
  = calculate_critical_path tasks' dependencies.
Proof.
  intros H. destruct (build_graph_shape tasks tasks' dependencies H) as [Hs Hp].
  unfold calculate_critical_path. rewrite (dag_longest_path_shape _ _ Hs Hp).
  reflexivity.
Qed.

Lemma critical_path_ignores_expected_days_witness :
  calculate_critical_path [("A", 1); ("B", 2)] [("A", []); ("B", ["A"])]
  = calculate_critical_path [("A", 50); ("B", 0)] [("A", []); ("B", ["A"])].
Proof.
  apply (critical_path_ignores_expected_days
           [("A", 1); ("B", 2)] [("A", 50); ("B", 0)] [("A", []); ("B", ["A"])]).
  reflexivity.
Defined.

(* ===================================================================== *)
(** ** Further properties of the estimator and of the orchestrator *)
(* ===================================================================== *)





Lemma produced_tasks w rates project_id tds est :
  analyze_project w rates project_id tds = Ok est ->
  Forall2 (fun td t => exists fresh, t = estimate_of fresh td) tds (pe_tasks est).
Proof.
  intros H. apply analyze_project_ok, analyze_body_ok in H.
  destruct H as (st & cost & _ & _ & Hst & _ & _ & ->). cbn [pe_tasks].
  destruct (typed_fold_inv w rates tds initial_loop_state) as (ts & I1 & I2 & _).
  rewrite <- Hst in I1. rewrite I1. exact I2.
Qed.



Lemma spec_task_cost_nonneg rates roles :
  (forall role rate, In (role, rate) rates -> (0 <= rate)%Z) ->
  (forall r, In r roles -> 0 <= hours_of r) ->
  0 <= spec_task_cost rates 1000 roles.
Proof.
  intros Hr. induction roles as [|r roles IH]; intros Hh; cbn [spec_task_cost].
  - apply Qle_refl.
  - assert (H1 : 0 <= spec_role_cost rates 1000 r).
    { unfold spec_role_cost. apply Qmult_le_0_compat; [apply Hh; left; reflexivity|].
      unfold spec_rate. destruct (Dict.get rates (role_of r)) as [rate|] eqn:E.
      - apply get_some_in in E. apply Hr in E.
        change 0 with (inject_Z 0). rewrite <- Zle_Qle. exact E.
      - discriminate. }
    assert (H2 : 0 <= spec_task_cost rates 1000 roles).
    { apply IH. intros r' Hr'. apply Hh. right. exact Hr'. }
    lra.
Qed.

(** X8.  When no rate of the table is negative and no role allocation has
    negative most-likely hours, the total cost of the produced estimate is
    not negative. *)
Theorem total_cost_is_not_negative w rates project_id tds est :
  analyze_project w rates project_id tds = Ok est ->
  (forall role rate, In (role, rate) rates -> (0 <= rate)%Z) ->
  (forall td r, In td tds -> In r (get_default (td_roles td) []) -> 0 <= hours_of r) ->
  0 <= pe_total_cost est.
Proof.
  intros H Hr Hh. rewrite (total_cost_spec w rates project_id tds est H).
  apply produced_tasks in H. revert Hh.
  induction H as [|td t tds ts [fresh ->] _ IH]; intros Hh; cbn [spec_total_cost].
  - apply Qle_refl.
  - assert (H1 : 0 <= spec_task_cost rates 1000 (te_roles (estimate_of fresh td))).
    { apply spec_task_cost_nonneg; [exact Hr|]. cbn [estimate_of te_roles].
      intros r Hin. apply (Hh td r); [left; reflexivity | exact Hin]. }
    assert (H2 : 0 <= spec_total_cost rates 1000 ts).
    { apply IH. intros td' r Htd. apply Hh. right. exact Htd. }
    lra.
Qed.

Lemma total_cost_is_not_negative_witness :
  exists est,
    analyze_project example_world DEFAULT_RATES "p"
      [mkTaskData (Some "T1") None None None None None
                  (Some [allocation "Architect" 3; mkRole None None None None])
                  None None None None None] = Ok est /\
    0 <= pe_total_cost est.
Proof.
  eexists. split.
  - vm_compute. reflexivity.
  - apply (total_cost_is_not_negative example_world DEFAULT_RATES "p"
             [mkTaskData (Some "T1") None None None None None
                         (Some [allocation "Architect" 3; mkRole None None None None])
                         None None None None None]).
    + vm_compute. reflexivity.
    + intros role rate H. cbn in H.
      repeat (destruct H as [H|H]; [injection H as _ <-; discriminate|]). destruct H.
    + intros td r [<-|[]] Hr. cbn in Hr.
      destruct Hr as [<-|[<-|[]]]; discriminate.
Defined.

Lemma py_sum_acc l : forall a, fold_left Qplus l a == a + fold_left Qplus l 0.
Proof.
  induction l as [|x l IH]; intros a; cbn [fold_left]; [ring|].
  rewrite (IH (a + x)), (IH (0 + x)). ring.
Qed.

Lemma py_sum_cons x l : py_sum (x :: l) == x + py_sum l.
Proof.
  unfold py_sum. cbn [fold_left]. rewrite py_sum_acc. ring.
Qed.

Lemma py_sum_nonneg l : (forall x, In x l -> 0 <= x) -> 0 <= py_sum l.
Proof.
  induction l as [|x l IH]; intros H.
  - apply Qle_refl.
  - rewrite py_sum_cons.
    assert (0 <= x) by (apply H; left; reflexivity).
    assert (0 <= py_sum l) by (apply IH; intros y Hy; apply H; right; exact Hy).
    lra.
Qed.

Lemma py_sum_filter_le {A : Type} (f : A -> Q) (keep : A -> bool) (l : list A) :
  (forall t, In t l -> 0 <= f t) ->
  0 <= py_sum (map f (filter keep l)) /\
  py_sum (map f (filter keep l)) <= py_sum (map f l).
Proof.
  induction l as [|t l IH]; intros H; cbn [filter map].
  - split; apply Qle_refl.
  - assert (Ht : 0 <= f t) by (apply H; left; reflexivity).
    destruct IH as [I1 I2]; [intros y Hy; apply H; right; exact Hy|].
    destruct (keep t); cbn [map]; rewrite ?py_sum_cons; split; lra.
Qed.

Lemma expected_days_nonneg fresh td :
  nonneg_durations td -> 0 <= te_expected_days (estimate_of fresh td).
Proof.
  intros (H1 & H2 & H3). cbn [estimate_of te_expected_days].
  unfold Qdiv. change (/ inject_Z 6) with (1 # 6). change (inject_Z 4) with 4. lra.
Qed.

(** X9.  When the durations of every record are non-negative, the total
    duration of the produced estimate is not negative and not larger than
    the sum of expected_days over all tasks; the estimate starts at the
    moment of the run and ends total_duration_days later, never before it
    starts. *)
Theorem timeline_of_the_estimate w rates project_id tds est :
  analyze_project w rates project_id tds = Ok est ->
  (forall td, In td tds -> nonneg_durations td) ->
  0 <= pe_total_duration_days est /\
  pe_total_duration_days est <= py_sum (map te_expected_days (pe_tasks est)) /\
  pe_start_date est = now w /\
  pe_end_date est == pe_start_date est + pe_total_duration_days est /\
  pe_start_date est <= pe_end_date est.
Proof.
  intros H Hd.
  assert (Hexp : forall t, In t (pe_tasks est) -> 0 <= te_expected_days t).
  { pose proof (produced_tasks w rates project_id tds est H) as F. clear H.
    revert Hd. generalize dependent (pe_tasks est). intros ts F.
    induction F as [|td t tds0 ts [fresh ->] _ IH]; intros Hd t0 Ht0; [destruct Ht0|].
    destruct Ht0 as [<-|Ht0].
    - apply expected_days_nonneg. apply Hd. left. reflexivity.
    - apply IH; [|exact Ht0]. intros td' Htd'. apply Hd. right. exact Htd'. }
  apply analyze_project_ok, analyze_body_ok in H.
  destruct H as (st & cost & _ & _ & _ & _ & _ & Hest).
  assert (E1 : pe_tasks est = ls_tasks st) by (rewrite Hest; reflexivity).
  assert (E2 : pe_total_duration_days est
               = total_duration (ls_tasks st) (pe_critical_path est))
    by (rewrite Hest at 1; reflexivity).
  assert (E3 : pe_start_date est = now w) by (rewrite Hest; reflexivity).
  assert (E4 : pe_end_date est
               = now w + total_duration (ls_tasks st) (pe_critical_path est))
    by (rewrite Hest at 1; reflexivity).
  rewrite E2, E3, E4, E1. rewrite E1 in Hexp. clear Hest E1 E2 E3 E4.
  generalize (pe_critical_path est) as cp. intros cp.
  assert (T : 0 <= total_duration (ls_tasks st) cp /\
              total_duration (ls_tasks st) cp <= py_sum (map te_expected_days (ls_tasks st))).
  { unfold total_duration. destruct cp as [|c cp].
    - split; [|apply Qle_refl]. apply py_sum_nonneg.
      intros x Hx. apply in_map_iff in Hx. destruct Hx as [t [<- Ht]]. exact (Hexp t Ht).
    - apply py_sum_filter_le. exact Hexp. }
  destruct T as [T1 T2]. split; [exact T1|]. split; [exact T2|].
  split; [reflexivity|]. split; [reflexivity|]. lra.
Qed.

Lemma timeline_of_the_estimate_witness :
  exists est,
    analyze_project example_world DEFAULT_RATES "p"
      [task_record "T1" [] 1 2 3; task_record "T2" ["T1"] 4 5 6] = Ok est /\
    0 <= pe_total_duration_days est /\
    pe_total_duration_days est <= py_sum (map te_expected_days (pe_tasks est)) /\
    pe_start_date est = now example_world /\
    pe_end_date est == pe_start_date est + pe_total_duration_days est /\
    pe_start_date est <= pe_end_date est.
Proof.
  eexists. split.
  - vm_compute. reflexivity.
  - apply (timeline_of_the_estimate example_world DEFAULT_RATES "p"
             [task_record "T1" [] 1 2 3; task_record "T2" ["T1"] 4 5 6]).
    + vm_compute. reflexivity.
    + intros td [<-|[<-|[]]]; cbn; repeat split; discriminate.
Defined.

Lemma dependency_table_fold w rates tds :
  forall st,
    NoDup (Dict.keys (ls_dependencies st)) ->
    (forall id, Dict.get (ls_dependencies st) id
                = option_map te_dependencies (last_with_id (ls_tasks st) id)) ->
    NoDup (Dict.keys (ls_dependencies (fold_left (typed_task w rates) tds st))) /\
    (forall id,
        Dict.get (ls_dependencies (fold_left (typed_task w rates) tds st)) id
        = option_map te_dependencies
            (last_with_id (ls_tasks (fold_left (typed_task w rates) tds st)) id)).
Proof.
  induction tds as [|td tds IH]; intros st ND H; cbn [fold_left]; [auto|].
  apply IH; cbn [typed_task ls_dependencies ls_tasks].
  - apply nodup_keys_set. exact ND.
  - intros id. rewrite get_set. unfold last_with_id. rewrite rev_app_distr.
    cbn [rev app find]. rewrite (String.eqb_sym id).
    destruct (String.eqb _ id); [reflexivity|]. apply H.
Qed.

(** X10.  The dependency table the orchestrator hands to the resolver has
    one entry per task id, and the entry of an id holds the dependencies of
    the last task carrying that id: when two records share an id, the
    dependencies of the earlier one are dropped. *)
Theorem dependency_table_keeps_the_last_record w rates tds st :
  process_tasks w rates initial_loop_state tds = Ok st ->
  NoDup (Dict.keys (ls_dependencies st)) /\
  forall id, Dict.get (ls_dependencies st) id
             = option_map te_dependencies (last_with_id (ls_tasks st) id).
Proof.
  intros H.
  pose proof (process_tasks_ok_typed w rates tds initial_loop_state st eq_refl H) as Ht.
  rewrite (process_tasks_typed w rates tds initial_loop_state Ht eq_refl) in H.
  injection H as <-.
  apply dependency_table_fold; [constructor | reflexivity].
Qed.

Lemma dependency_table_keeps_the_last_record_witness :
  exists st,
    process_tasks example_world DEFAULT_RATES initial_loop_state
      [task_record "T1" ["A"] 1 1 1; task_record "T1" ["B"] 1 1 1] = Ok st /\
    Dict.get (ls_dependencies st) "T1" = Some ["B"] /\
    NoDup (Dict.keys (ls_dependencies st)) /\
    forall id, Dict.get (ls_dependencies st) id
               = option_map te_dependencies (last_with_id (ls_tasks st) id).
Proof.
  eexists. split; [vm_compute; reflexivity|]. split; [reflexivity|].
  apply (dependency_table_keeps_the_last_record example_world DEFAULT_RATES
           [task_record "T1" ["A"] 1 1 1; task_record "T1" ["B"] 1 1 1]).
  vm_compute. reflexivity.
Defined.

(** X11.  An empty task list is not an error: the estimate has no task, an
    empty critical path, cost 0 and duration 0, and ends when it starts. *)
Theorem empty_task_list_gives_empty_estimate w rates project_id :
  exists est,
    analyze_project w rates project_id [] = Ok est /\
    pe_tasks est = [] /\
    pe_critical_path est = [] /\
    pe_total_cost est == 0 /\
    pe_total_duration_days est == 0 /\
    pe_end_date est == pe_start_date est.
Proof.
  eexists. split; [reflexivity|]. cbn.
  repeat split; try reflexivity. ring.
Qed.

(* ===================================================================== *)
(** ** The conversation handlers *)
(* ===================================================================== *)

Lemma find_conversation_id db id c : find_conversation db id = Some c -> cv_id c = id.
Proof.
  unfold find_conversation. intros H. apply find_some in H. destruct H as [_ H].
  apply String.eqb_eq. exact H.
Qed.

Lemma find_replace_first docs id doc c :
  find (fun c => String.eqb (cv_id c) id) docs = Some c ->
  cv_id doc = id ->
  find (fun c => String.eqb (cv_id c) id) (replace_first docs id doc) = Some doc.
Proof.
  intros H Hd. induction docs as [|x docs IH]; cbn [find replace_first] in *;
    [discriminate|].
  destruct (String.eqb (cv_id x) id) eqn:E; cbn [find].
  - rewrite Hd, String.eqb_refl. reflexivity.
  - rewrite E. apply IH. exact H.
Qed.

Lemma find_replace_first_other docs id doc id' :
  cv_id doc = id -> id' <> id ->
  find (fun c => String.eqb (cv_id c) id') (replace_first docs id doc)
  = find (fun c => String.eqb (cv_id c) id') docs.
Proof.
  intros Hd Hne. induction docs as [|x docs IH]; cbn [find replace_first]; [reflexivity|].
  destruct (String.eqb (cv_id x) id) eqn:E; cbn [find].
  - apply String.eqb_eq in E.
    assert (F1 : String.eqb (cv_id doc) id' = false)
      by (apply String.eqb_neq; congruence).
    assert (F2 : String.eqb (cv_id x) id' = false)
      by (apply String.eqb_neq; congruence).
    rewrite F1, F2. reflexivity.
  - destruct (String.eqb (cv_id x) id'); [reflexivity | exact IH].
Qed.

Lemma ids_replace_first docs id doc :
  cv_id doc = id ->
  map cv_id (replace_first docs id doc) = map cv_id docs.
Proof.
  intros Hd. induction docs as [|x docs IH]; cbn [map replace_first]; [reflexivity|].
  destruct (String.eqb (cv_id x) id) eqn:E; cbn [map].
  - apply String.eqb_eq in E. congruence.
  - rewrite IH. reflexivity.
Qed.

(** X12.  A message sent to a stored conversation is answered, and the
    stored conversation then holds its former messages followed by the
    user's message and the assistant's answer; its id, its project id and
    its completed steps are unchanged, the ids of all stored conversations
    are as before, no other conversation and no estimate is touched. *)
Theorem chat_turn_appends_two_messages db id content c :
  find_conversation db id = Some c ->
  exists response step db' c',
    chat_response db id content = Ok ((response, step), db') /\
    find_conversation db' id = Some c' /\
    cv_messages c' = (cv_messages c ++ [mkMessage "user" (get_default content "");
                                        mkMessage "assistant" response])%list /\
    cv_current_step c' = step /\
    cv_id c' = cv_id c /\
    cv_project_id c' = cv_project_id c /\
    cv_completed_steps c' = cv_completed_steps c /\
    map cv_id (db_conversations db') = map cv_id (db_conversations db) /\
    (forall id', id' <> id -> find_conversation db' id' = find_conversation db id') /\
    db_project_estimates db' = db_project_estimates db.
Proof.
  intros H. pose proof (find_conversation_id db id c H) as Hid.
  unfold chat_response. rewrite H.
  destruct (script_step (cv_current_step c) (cv_context c) (get_default content ""))
    as [[context step] response].
  eexists response, step, _, _. split; [reflexivity|].
  unfold find_conversation, replace_conversation. cbn [db_conversations db_project_estimates].
  split; [apply (find_replace_first _ _ _ c H); exact Hid|].
  cbn [cv_messages cv_current_step cv_id cv_project_id cv_completed_steps].
  split; [rewrite <- app_assoc; reflexivity|].
  split; [reflexivity|]. split; [reflexivity|]. split; [reflexivity|].
  split; [reflexivity|]. split; [apply ids_replace_first; exact Hid|].
  split; [|reflexivity].
  intros id' Hne. apply find_replace_first_other; [exact Hid | exact Hne].
Qed.

Lemma chat_turn_appends_two_messages_witness :
  exists response step db' c',
    chat_response (snd (start_conversation example_world (mkDatabase [] [])))
                  (uuid4 example_world 1) (Some "a shop") = Ok ((response, step), db') /\
    find_conversation db' (uuid4 example_world 1) = Some c' /\
    cv_messages c' = ([mkMessage "assistant" greeting_text] ++
                      [mkMessage "user" "a shop"; mkMessage "assistant" response])%list /\
    cv_current_step c' = step /\
    cv_id c' = uuid4 example_world 1 /\
    cv_project_id c' = uuid4 example_world 0 /\
    cv_completed_steps c' = [] /\
    map cv_id (db_conversations db')
      = map cv_id (db_conversations (snd (start_conversation example_world
                                              (mkDatabase [] [])))) /\
    (forall id', id' <> uuid4 example_world 1 ->
       find_conversation db' id'
       = find_conversation (snd (start_conversation example_world (mkDatabase [] []))) id') /\
    db_project_estimates db' = [].
Proof.
  apply (chat_turn_appends_two_messages
           (snd (start_conversation example_world (mkDatabase [] [])))
           (uuid4 example_world 1) (Some "a shop")
           (fst (start_conversation example_world (mkDatabase [] [])))).
  reflexivity.
Defined.

(** X13.  The script has three questions: from a conversation in step
    "greeting", three messages are answered with the steps "details",
    "constraints" and "ready_for_analysis"; the conversation has six more
    messages, and the project data that the analysis reads from it has the
    first message as objective, the second as tech stack and the third as
    constraints. *)
Theorem three_turns_complete_the_script db id m1 m2 m3 c :
  find_conversation db id = Some c ->
  cv_current_step c = "greeting" ->
  exists db3 c3,
    three_turns db id m1 m2 m3
      = Ok ([(details_text, "details"); (constraints_text, "constraints");
             (ready_text, "ready_for_analysis")], db3) /\
    find_conversation db3 id = Some c3 /\
    cv_current_step c3 = "ready_for_analysis" /\
    project_data_of c3 = mkProjectData "Project from conversation" m1 m2 "medium" m3 /\
    length (cv_messages c3) = (length (cv_messages c) + 6)%nat.
Proof.
  intros H Hs. pose proof (find_conversation_id db id c H) as Hid.
  unfold three_turns.
  unfold chat_response at 1. rewrite H, Hs. cbn [get_default script_step String.eqb Ascii.eqb Bool.eqb].
  cbn [bind].
  set (c1 := mkConversation _ _ "details" _ _ _).
  assert (H1 : find_conversation (replace_conversation db id c1) id = Some c1).
  { apply (find_replace_first _ _ _ c H). exact Hid. }
  unfold chat_response at 1. rewrite H1. cbn [cv_current_step c1].
  unfold c1 at 1. cbn [cv_current_step get_default script_step String.eqb Ascii.eqb Bool.eqb].
  cbn [bind].
  set (c2 := mkConversation _ _ "constraints" _ _ _).
  assert (H2 : find_conversation (replace_conversation (replace_conversation db id c1) id c2) id
               = Some c2).
  { apply (find_replace_first _ _ _ c1 H1). exact Hid. }
  unfold chat_response at 1. rewrite H2.
  unfold c2 at 1. cbn [cv_current_step get_default script_step String.eqb Ascii.eqb Bool.eqb].
  cbn [bind].
  set (c3 := mkConversation _ _ "ready_for_analysis" _ _ _).
  exists (replace_conversation
            (replace_conversation (replace_conversation db id c1) id c2) id c3), c3.
  split; [reflexivity|]. split.
  { apply (find_replace_first _ _ _ c2 H2). exact Hid. }
  split; [reflexivity|]. split.
  - unfold project_data_of, c3, c2, c1. cbn [cv_context].
    rewrite !get_set. cbn. reflexivity.
  - unfold c3, c2, c1. cbn [cv_messages]. rewrite !length_app. cbn [length]. lia.
Qed.

Lemma three_turns_complete_the_script_witness :
  exists db3 c3,
    three_turns (snd (start_conversation example_world (mkDatabase [] [])))
                (uuid4 example_world 1) "a shop" "python" "none"
      = Ok ([(details_text, "details"); (constraints_text, "constraints");
             (ready_text, "ready_for_analysis")], db3) /\
    find_conversation db3 (uuid4 example_world 1) = Some c3 /\
    cv_current_step c3 = "ready_for_analysis" /\
    project_data_of c3
      = mkProjectData "Project from conversation" "a shop" "python" "medium" "none" /\
    length (cv_messages c3)
      = (length (cv_messages (fst (start_conversation example_world (mkDatabase [] [])))) + 6)%nat.
Proof.
  apply (three_turns_complete_the_script
           (snd (start_conversation example_world (mkDatabase [] [])))
           (uuid4 example_world 1) "a shop" "python" "none"
           (fst (start_conversation example_world (mkDatabase [] [])))).
  - reflexivity.
  - reflexivity.
Defined.

(** X14.  Once the step of a conversation is none of "greeting", "details"
    and "constraints" (as after the third answer), a further message is
    still recorded, but the assistant answers with the empty text and the
    step and the recorded context stay as they are. *)
Theorem chat_after_the_script_answers_nothing db id content c :
  find_conversation db id = Some c ->
  cv_current_step c <> "greeting" ->
  cv_current_step c <> "details" ->
  cv_current_step c <> "constraints" ->
  exists db' c',
    chat_response db id content = Ok (("", cv_current_step c), db') /\
    find_conversation db' id = Some c' /\
    cv_current_step c' = cv_current_step c /\
    cv_context c' = cv_context c /\
    cv_messages c' = (cv_messages c ++ [mkMessage "user" (get_default content "");
                                        mkMessage "assistant" ""])%list.
Proof.
  intros H N1 N2 N3. pose proof (find_conversation_id db id c H) as Hid.
  unfold chat_response, script_step. rewrite H.
  apply String.eqb_neq in N1, N2, N3. rewrite N1, N2, N3.
  eexists _, _. split; [reflexivity|].
  unfold find_conversation, replace_conversation. cbn [db_conversations].
  split; [apply (find_replace_first _ _ _ c H); exact Hid|].
  cbn [cv_current_step cv_context cv_messages].
  split; [reflexivity|]. split; [reflexivity|]. rewrite <- app_assoc. reflexivity.
Qed.

Lemma chat_after_the_script_answers_nothing_witness :
  exists db' c',
    chat_response
      (mkDatabase [mkConversation "c" "p" "ready_for_analysis" [] [("constraints", "x")] []] [])
      "c" (Some "hello") = Ok (("", "ready_for_analysis"), db') /\
    find_conversation db' "c" = Some c' /\
    cv_current_step c' = "ready_for_analysis" /\
    cv_context c' = [("constraints", "x")] /\
    cv_messages c' = ([] ++ [mkMessage "user" "hello"; mkMessage "assistant" ""])%list.
Proof.
  apply (chat_after_the_script_answers_nothing
           (mkDatabase [mkConversation "c" "p" "ready_for_analysis" [] [("constraints", "x")] []] [])
           "c" (Some "hello")
           (mkConversation "c" "p" "ready_for_analysis" [] [("constraints", "x")] []));
    [reflexivity | discriminate | discriminate | discriminate].
Defined.

Lemma find_app_some {A : Type} (f : A -> bool) (l l' : list A) x :
  find f l = Some x -> find f (l ++ l') = Some x.
Proof.
  induction l as [|a l IH]; cbn [find app]; [discriminate|].
  destruct (f a); auto.
Qed.

Lemma find_app_none {A : Type} (f : A -> bool) (l l' : list A) :
  find f l = None -> find f (l ++ l') = find f l'.
Proof.
  induction l as [|a l IH]; cbn [find app]; [reflexivity|].
  destruct (f a); [discriminate | exact IH].
Qed.

(** X15.  Starting a conversation stores one more conversation, in step
    "greeting", with the greeting of the assistant as its only message and
    an empty context; every id that resolved to a stored conversation still
    resolves to the same one, and the new id resolves to the new
    conversation when no stored conversation had it. *)
Theorem start_conversation_stores_a_greeting w db :
  let c := fst (start_conversation w db) in
  let db' := snd (start_conversation w db) in
  cv_current_step c = "greeting" /\
  cv_messages c = [mkMessage "assistant" greeting_text] /\
  cv_context c = [] /\
  db_conversations db' = (db_conversations db ++ [c])%list /\
  db_project_estimates db' = db_project_estimates db /\
  (forall id x, find_conversation db id = Some x -> find_conversation db' id = Some x) /\
  (find_conversation db (cv_id c) = None -> find_conversation db' (cv_id c) = Some c).
Proof.
  cbv zeta. unfold start_conversation. cbn [fst snd cv_current_step cv_messages cv_context
                                             db_conversations db_project_estimates cv_id].
  repeat (split; [reflexivity|]). split.
  - intros id x H. unfold find_conversation in *. cbn [db_conversations].
    apply find_app_some. exact H.
  - intros H. unfold find_conversation in *. cbn [db_conversations].
    rewrite (find_app_none _ _ _ H). cbn [find cv_id]. rewrite String.eqb_refl. reflexivity.
Qed.

Lemma start_conversation_stores_a_greeting_witness :
  find_conversation (snd (start_conversation example_world (mkDatabase [] [])))
                    (cv_id (fst (start_conversation example_world (mkDatabase [] []))))
  = Some (fst (start_conversation example_world (mkDatabase [] []))).
Proof.
  apply (proj2 (proj2 (proj2 (proj2 (proj2 (proj2
           (start_conversation_stores_a_greeting example_world (mkDatabase [] [])))))))).
  reflexivity.
Defined.



(** X17.  A successful analysis stores exactly one more estimate, the one
    it returns, whose project id is the one of the conversation, and leaves
    the conversations as they are; the estimate of that project can then be
    retrieved, and it is the new one when the project had none before. *)
Theorem analysis_stores_the_estimate w rates groq db id c est db' :
  find_conversation db id = Some c ->
  analyze_project_handler w rates groq db id = Ok (est, db') ->
  pe_project_id est = cv_project_id c /\
  db_conversations db' = db_conversations db /\
  db_project_estimates db' = (db_project_estimates db ++ [est])%list /\
  (exists e, get_project_estimate db' (cv_project_id c) = Ok e /\
             pe_project_id e = cv_project_id c) /\
  (find_estimate db (cv_project_id c) = None ->
   get_project_estimate db' (cv_project_id c) = Ok est).
Proof.
  intros Hc H. unfold analyze_project_handler in H. rewrite Hc in H.
  destruct (groq (project_data_of c)) as [d|e|]; cbn [bind] in H; try discriminate.
  destruct (analyze_body w rates (cv_project_id c) (get_default d [])) as [est0|e|] eqn:E;
    try discriminate.
  injection H as <- <-.
  assert (Hp : pe_project_id est0 = cv_project_id c).
  { apply analyze_body_ok in E. destruct E as (st & cost & _ & _ & _ & _ & _ & E).
    rewrite E. reflexivity. }
  split; [exact Hp|]. split; [reflexivity|]. split; [reflexivity|].
  assert (Hnew : find_estimate db (cv_project_id c) = None ->
                 get_project_estimate
                   (mkDatabase (db_conversations db) (db_project_estimates db ++ [est0]))
                   (cv_project_id c) = Ok est0).
  { intros Hn. unfold get_project_estimate, find_estimate in *.
    cbn [db_project_estimates]. rewrite (find_app_none _ _ _ Hn). cbn [find].
    rewrite Hp, String.eqb_refl. reflexivity. }
  split; [|exact Hnew].
  destruct (find_estimate db (cv_project_id c)) as [e0|] eqn:Ef.
  - exists e0. unfold get_project_estimate, find_estimate in *.
    cbn [db_project_estimates]. rewrite (find_app_some _ _ _ _ Ef). split; [reflexivity|].
    apply find_some in Ef. destruct Ef as [_ Ef]. apply String.eqb_eq. exact Ef.
  - exists est0. split; [apply Hnew; reflexivity | exact Hp].
Qed.

Lemma analysis_stores_the_estimate_witness :
  exists est db',
    analyze_project_handler example_world DEFAULT_RATES
      (fun _ => Ok (Some [task_record "T1" [] 1 2 3]))
      (mkDatabase [mkConversation "c" "p" "greeting" [] [] []] []) "c" = Ok (est, db') /\
    pe_project_id est = "p" /\
    db_conversations db' = [mkConversation "c" "p" "greeting" [] [] []] /\
    db_project_estimates db' = ([] ++ [est])%list /\
    (exists e, get_project_estimate db' "p" = Ok e /\ pe_project_id e = "p") /\
    (find_estimate (mkDatabase [mkConversation "c" "p" "greeting" [] [] []] []) "p" = None ->
     get_project_estimate db' "p" = Ok est).
Proof.
  eexists _, _. split.
  - vm_compute. reflexivity.
  - apply (analysis_stores_the_estimate example_world DEFAULT_RATES
             (fun _ => Ok (Some [task_record "T1" [] 1 2 3]))
             (mkDatabase [mkConversation "c" "p" "greeting" [] [] []] []) "c"
             (mkConversation "c" "p" "greeting" [] [] [])).
    + reflexivity.
    + vm_compute. reflexivity.
Defined.

(* ===================================================================== *)
(** ** Cleaning the answer of the model *)
(* ===================================================================== *)

Lemma lstrip_spaces pre s : all_space pre = true -> lstrip (pre ++ s) = lstrip s.
Proof.
  induction pre as [|c pre IH]; cbn [all_space String.append lstrip]; intros H;
    [reflexivity|].
  apply andb_true_iff in H. destruct H as [-> H]. exact (IH H).
Qed.

Lemma rstrip_spaces post : all_space post = true -> rstrip post = "".
Proof.
  induction post as [|c post IH]; cbn [all_space rstrip]; intros H; [reflexivity|].
  apply andb_true_iff in H. destruct H as [-> H]. rewrite (IH H). reflexivity.
Qed.

Lemma rstrip_app_spaces s post :
  all_space post = true -> rstrip (s ++ post) = rstrip s.
Proof.
  intros H. induction s as [|c s IH]; cbn [String.append rstrip].
  - exact (rstrip_spaces post H).
  - rewrite IH. reflexivity.
Qed.

Lemma rstrip_fence s : rstrip (s ++ "```") = (s ++ "```")%string.
Proof.
  induction s as [|c s IH]; cbn [String.append rstrip].
  - reflexivity.
  - rewrite IH. destruct (s ++ "```")%string eqn:E; [|reflexivity].
    destruct s; discriminate.
Qed.

Lemma append_nil_r s : (s ++ "")%string = s.
Proof. induction s as [|c s IH]; cbn [String.append]; congruence. Qed.

Lemma append_assoc s t u : ((s ++ t) ++ u)%string = (s ++ (t ++ u))%string.
Proof. induction s as [|c s IH]; cbn [String.append]; congruence. Qed.

(** A text without backtick holds no occurrence of a fence. *)
Lemma remove_from_no_backtick old body rest :
  occurs "`"%char body = false ->
  remove_from (String "`"%char old) 0 (body ++ rest)
  = (body ++ remove_from (String "`"%char old) 0 rest)%string.
Proof.
  induction body as [|c body IH]; cbn [occurs String.append]; intros H; [reflexivity|].
  apply orb_false_iff in H. destruct H as [Hc H].
  cbn [remove_from String.prefix].
  destruct (Ascii.ascii_dec "`"%char c) as [<-|Hne].
  - rewrite Ascii.eqb_refl in Hc. discriminate.
  - rewrite (IH H). reflexivity.
Qed.

Lemma prefix_cons_same c s1 s2 :
  String.prefix (String c s1) (String c s2) = String.prefix s1 s2.
Proof.
  cbn [String.prefix]. destruct (Ascii.ascii_dec c c); [reflexivity | congruence].
Qed.

Lemma prefix_nil_l s : String.prefix "" s = true.
Proof. destruct s; reflexivity. Qed.

Lemma prefix_nil_r c s : String.prefix (String c s) "" = false.
Proof. reflexivity. Qed.

Lemma clean_fenced pre body post :
  all_space pre = true -> all_space post = true -> occurs "`"%char body = false ->
  clean_response (pre ++ "```json" ++ body ++ "```" ++ post) = py_strip body.
Proof.
  intros Hpre Hpost Hb. unfold clean_response.
  assert (S : py_strip (pre ++ "```json" ++ body ++ "```" ++ post)
              = ("```json" ++ body ++ "```")%string).
  { unfold py_strip. rewrite (lstrip_spaces pre _ Hpre).
    assert (L : forall y, lstrip ("```json" ++ y) = ("```json" ++ y)%string)
      by reflexivity.
    rewrite L, <- !append_assoc, (rstrip_app_spaces _ post Hpost), rstrip_fence.
    apply append_assoc. }
  rewrite S.
  assert (L1 : forall y, String.prefix "```json" ("```json" ++ y) = true).
  { intros y. cbn [String.append]. rewrite !prefix_cons_same. apply prefix_nil_l. }
  assert (L2 : forall y, remove_from "```json" 0 ("```json" ++ y)
                         = remove_from "```json" 0 y).
  { intros y. change ("```json" ++ y)%string with (String "`" ("``json" ++ y)) at 1.
    cbn [remove_from].
    change (String "`" ("``json" ++ y)) with ("```json" ++ y)%string.
    rewrite L1. reflexivity. }
  assert (L3 : remove_from "```json" 0 "```" = "```").
  { repeat (cbn [remove_from]; rewrite ?prefix_cons_same, ?prefix_nil_r). reflexivity. }
  assert (L4 : remove_from "```" 0 "```" = "").
  { cbn [remove_from]. rewrite !prefix_cons_same, prefix_nil_l. reflexivity. }
  rewrite L1. unfold py_remove. rewrite L2.
  rewrite (remove_from_no_backtick "``json" body "```" Hb), L3.
  rewrite (remove_from_no_backtick "``" body "```" Hb), L4.
  rewrite append_nil_r. reflexivity.
Qed.

(** X18 ([decompose_project_with_groq]).  When the model answers with a
    block fenced by [```json] and [```], with nothing but white space around
    the fence and no backtick inside it, what is given to [json.loads] is the
    inside of the block with the white space at its two ends taken off: the
    parsed value is returned, and a [JSONDecodeError] becomes the HTTP error
    500 that carries its text. *)
Theorem fenced_answer_is_parsed_without_the_fence
  (A : Type) (call_groq_api : ProjectData -> result string)
  (json_loads : string -> A + string) (project_data : ProjectData)
  (pre body post : string) :
  call_groq_api project_data = Ok (pre ++ "```json" ++ body ++ "```" ++ post)%string ->
  all_space pre = true -> all_space post = true ->
  occurs "`"%char body = false ->
  decompose_project_with_groq call_groq_api json_loads project_data
  = match json_loads (py_strip body) with
    | inl parsed_data => Ok parsed_data
    | inr msg =>
        Raise (HTTPException 500 ("Failed to parse Groq response as JSON: " ++ msg))
    end.
Proof.
  intros Hcall Hpre Hpost Hb. unfold decompose_project_with_groq.
  rewrite Hcall. cbn [bind].
  rewrite (clean_fenced pre body post Hpre Hpost Hb). reflexivity.
Qed.

Lemma fenced_answer_is_parsed_without_the_fence_witness :
  let nl := String (Ascii.ascii_of_nat 10) "" in
  let project_data := mkProjectData "Shop" "Sell books" "Python" "medium" "None" in
  let call_groq_api := fun _ : ProjectData =>
    Ok (nl ++ "```json" ++ (nl ++ "[]" ++ nl) ++ "```" ++ " ")%string in
  let json_loads := fun s : string =>
    if String.eqb s "[]" then inl (@nil string) else inr "Expecting value" in
  decompose_project_with_groq call_groq_api json_loads project_data = Ok [].
Proof.
  intros nl project_data call_groq_api json_loads.
  rewrite (fenced_answer_is_parsed_without_the_fence
             (list string) call_groq_api json_loads project_data
             nl (nl ++ "[]" ++ nl)%string " ");
    reflexivity.
Defined.
